(** * buat-pembahasan: the explanation pipeline of [app/ai_utils.py]

    A shallow embedding of the option-correctness inference, the tolerant
    reply parser and the reason normalisers of [app/ai_utils.py], with the
    properties the specification states about them.

    Modelling conventions.
    - A Python [str] is a [list ascii]; a character is a code point of the
      Latin-1 range U+0000..U+00FF, which is the range the source's own
      character class (A-Z, a-z, U+00C0..U+00FF, apostrophe) speaks about.
      Text with code points above U+00FF is outside the model.
    - A row ([pd.Series]) is an association list from column names to
      cells; a cell is [None], NaN, an integer, a float or a string, and a
      column may be absent.
    - A score is a float, seen as the rational number ([Q]) it stands for:
      the code only compares scores and takes their maximum.  An integer
      cell becomes a float the way [float()] makes one: rounded to the
      nearest double, ties to even, with [OverflowError] when it is out of
      range.  Infinite and NaN floats are outside the model.
    - A decoded reply is a [json] value, [JNull] being Python's [None].
    - Functions of the Python runtime and of third-party packages that the
      source calls but does not define ([html.unescape], [json.loads],
      [float] on a string, the text of a float, the text of a decoded list
      or dict, the text-generation client) are parameters of the
      development, as is the fixed instruction text of the prompt.
    - A [while] loop over an index is a recursion on the text still to be
      read; a loop that runs until nothing changes carries a fuel that is
      proved to suffice.
    - Exceptions and the calls to the client are explicit: [result] for a
      computation that may raise, [M] for one that also talks to the
      client and records its calls. *)

From Stdlib Require Import Ascii String.
From Stdlib Require Import List Bool Arith PeanoNat Lia.
From Stdlib Require Import ZArith QArith Lqa DecimalString.
From Stdlib Require Import Sorting.Sorted.
Import ListNotations.

Set Implicit Arguments.
Local Open Scope nat_scope.
Local Open Scope list_scope.

(* ================================================================== *)
(** * Text *)
(* ================================================================== *)

Module Text.

Definition text := list ascii.

(** Rocq string literal to [text]. *)
Definition txt (s : string) : text := list_ascii_of_string s.

Definition code (c : ascii) : nat := nat_of_ascii c.

Definition in_range (lo hi : nat) (c : ascii) : bool :=
  (lo <=? code c) && (code c <=? hi).

Definition ch (n : nat) : ascii := ascii_of_nat n.

Definition LF : ascii := ch 10.
Definition CR : ascii := ch 13.
Definition DQUOTE : ascii := ch 34.
Definition BACKSLASH : ascii := ch 92.

(** [str.isspace] / regex [\s] on Latin-1: TAB..CR, FS..US, SPACE, NEL, NBSP. *)
Definition is_space (c : ascii) : bool :=
  in_range 9 13 c || in_range 28 32 c || (code c =? 133) || (code c =? 160).

(** Characters that [str.lower] changes on Latin-1: A-Z, U+00C0..U+00D6,
    U+00D8..U+00DE. *)
Definition is_upper (c : ascii) : bool :=
  in_range 65 90 c || in_range 192 214 c || in_range 216 222 c.

(** Characters with a Latin-1 upper-case form 32 below: a-z,
    U+00E0..U+00F6, U+00F8..U+00FE. *)
Definition is_lower32 (c : ascii) : bool :=
  in_range 97 122 c || in_range 224 246 c || in_range 248 254 c.

(** [str.isalpha] on Latin-1. *)
Definition is_alpha (c : ascii) : bool :=
  in_range 65 90 c || in_range 97 122 c
  || (code c =? 170) || (code c =? 181) || (code c =? 186)
  || in_range 192 214 c || in_range 216 246 c || in_range 248 255 c.

Definition lower_char (c : ascii) : ascii :=
  if is_upper c then ch (code c + 32) else c.

Definition lower (s : text) : text := map lower_char s.

(** [str.upper] of one character.  U+00DF becomes "SS"; U+00B5 and U+00FF,
    whose upper-case forms lie above U+00FF, are left as they are. *)
Definition upper_char (c : ascii) : text :=
  if is_lower32 c then [ch (code c - 32)]
  else if code c =? 223 then txt "SS"
  else [c].

Definition upper (s : text) : text := flat_map upper_char s.

Fixpoint teqb (a b : text) : bool :=
  match a, b with
  | [], [] => true
  | x :: a', y :: b' => Ascii.eqb x y && teqb a' b'
  | _, _ => false
  end.

Fixpoint dropwhile (p : ascii -> bool) (s : text) : text :=
  match s with
  | [] => []
  | c :: s' => if p c then dropwhile p s' else s
  end.

Fixpoint takewhile (p : ascii -> bool) (s : text) : text :=
  match s with
  | [] => []
  | c :: s' => if p c then c :: takewhile p s' else []
  end.

Definition lstrip_by (p : ascii -> bool) (s : text) : text := dropwhile p s.
Definition rstrip_by (p : ascii -> bool) (s : text) : text :=
  rev (dropwhile p (rev s)).

(** [s.lstrip()], [s.rstrip()], [s.strip()]. *)
Definition lstrip (s : text) : text := lstrip_by is_space s.
Definition rstrip (s : text) : text := rstrip_by is_space s.
Definition strip (s : text) : text := rstrip (lstrip s).

Definition mem_char (c : ascii) (set : text) : bool :=
  existsb (Ascii.eqb c) set.

(** [s.lstrip(chars)], [s.rstrip(chars)], [s.strip(chars)]. *)
Definition lstrip_chars (set s : text) : text :=
  lstrip_by (fun c => mem_char c set) s.
Definition rstrip_chars (set s : text) : text :=
  rstrip_by (fun c => mem_char c set) s.
Definition strip_chars (set s : text) : text :=
  rstrip_chars set (lstrip_chars set s).

(** [s.startswith(p)]. *)
Fixpoint startswith (p s : text) : bool :=
  match p, s with
  | [], _ => true
  | x :: p', y :: s' => Ascii.eqb x y && startswith p' s'
  | _ :: _, [] => false
  end.

(** [s.endswith(p)]. *)
Definition endswith (p s : text) : bool := startswith (rev p) (rev s).

(** [p in s]. *)
Fixpoint contains (p s : text) : bool :=
  startswith p s ||
  match s with
  | [] => false
  | _ :: s' => contains p s'
  end.

(** [s.count(c)] for a one-character [c]. *)
Definition count_char (c : ascii) (s : text) : nat :=
  length (filter (Ascii.eqb c) s).

(** [s.find(c)] for a one-character [c]; [None] stands for -1. *)
Fixpoint find_char (c : ascii) (s : text) : option nat :=
  match s with
  | [] => None
  | x :: s' =>
      if Ascii.eqb x c then Some 0
      else option_map S (find_char c s')
  end.

(** [s.rfind(c)] for a one-character [c]; [None] stands for -1. *)
Fixpoint rfind_char (c : ascii) (s : text) : option nat :=
  match s with
  | [] => None
  | x :: s' =>
      match rfind_char c s' with
      | Some i => Some (S i)
      | None => if Ascii.eqb x c then Some 0 else None
      end
  end.

(** [s[a:b]]. *)
Definition slice (a b : nat) (s : text) : text := firstn (b - a) (skipn a s).

(** [s.partition(":")]: the text before the first colon, whether a colon
    was found, and the text after it. *)
Fixpoint partition_at (sep : ascii) (s : text) : text * bool * text :=
  match s with
  | [] => ([], false, [])
  | c :: s' =>
      if Ascii.eqb c sep then ([], true, s')
      else let '(p, found, q) := partition_at sep s' in (c :: p, found, q)
  end.

(** [re.sub(r"\s+", " ", s)]: every maximal run of white space becomes one
    space. *)
Fixpoint collapse_ws_from (in_run : bool) (s : text) : text :=
  match s with
  | [] => []
  | c :: s' =>
      if is_space c then
        if in_run then collapse_ws_from true s'
        else " "%char :: collapse_ws_from true s'
      else c :: collapse_ws_from false s'
  end.

Definition collapse_ws (s : text) : text := collapse_ws_from false s.

(** [re.sub(pattern, repl, s)] for a pattern that never matches the empty
    string: [m s] is the length of the match of the pattern at the start of
    [s], if there is one; the matches are taken from the left and do not
    overlap; [repl] receives the matched text.  [skip] counts the characters
    of the current match that are still to be passed over. *)
Fixpoint re_sub_from (m : text -> option nat) (repl : text -> text)
  (skip : nat) (s : text) : text :=
  match s with
  | [] => []
  | c :: s' =>
      match skip with
      | S k => re_sub_from m repl k s'
      | 0 =>
          match m s with
          | Some (S n) => repl (firstn (S n) s) ++ re_sub_from m repl n s'
          | _ => c :: re_sub_from m repl 0 s'
          end
      end
  end.

Definition re_sub (m : text -> option nat) (repl : text -> text) (s : text)
  : text := re_sub_from m repl 0 s.

(** [s.replace(a, b)] for a non-empty [a]. *)
Definition replace (a b s : text) : text :=
  re_sub (fun t => if startswith a t then Some (List.length a) else None)
         (fun _ => b) s.

(** [s.lower().startswith(p)] for a lower-case [p]; also the match of a
    literal under [re.IGNORECASE]. *)
Definition ci_startswith (p s : text) : bool := startswith p (lower s).

(** The pieces of [s] between the characters that satisfy [p]. *)
Fixpoint split_on_from (p : ascii -> bool) (acc : text) (s : text) : list text :=
  match s with
  | [] => [rev acc]
  | c :: s' =>
      if p c then rev acc :: split_on_from p [] s'
      else split_on_from p (c :: acc) s'
  end.

Definition split_on (p : ascii -> bool) (s : text) : list text :=
  split_on_from p [] s.

(** Number of words of [s.split()]. *)
Fixpoint count_words_from (in_word : bool) (s : text) : nat :=
  match s with
  | [] => 0
  | c :: s' =>
      if is_space c then count_words_from false s'
      else (if in_word then 0 else 1) + count_words_from true s'
  end.

Definition count_words (s : text) : nat := count_words_from false s.

Definition nonempty (s : text) : bool :=
  match s with [] => false | _ :: _ => true end.

End Text.

(* ================================================================== *)
(** * Rows, cells and decoded replies *)
(* ================================================================== *)

Module Data.
Import Text.

(** The value of a spreadsheet cell as pandas hands it to the code. *)
Inductive cell :=
| CNone                 (* Python None *)
| CNaN                  (* empty cell: float NaN *)
| CInt (z : Z)
| CFloat (q : Q)
| CText (s : text).

(** A row ([pd.Series]): column name to cell. *)
Definition Row := list (string * cell).

Fixpoint lookup (row : Row) (col : string) : option cell :=
  match row with
  | [] => None
  | (k, v) :: row' => if String.eqb k col then Some v else lookup row' col
  end.

(** [row.get(col)] and [row.get(col, default)]. *)
Definition get (row : Row) (col : string) : cell :=
  match lookup row col with Some c => c | None => CNone end.

Definition get_or (row : Row) (col : string) (default : cell) : cell :=
  match lookup row col with Some c => c | None => default end.

(** [pd.isna(c)] / [pd.notna(c)] on a scalar. *)
Definition isna (c : cell) : bool :=
  match c with CNone | CNaN => true | _ => false end.

Definition notna (c : cell) : bool := negb (isna c).

(** A decoded JSON value.  [JNull] is Python's [None].  A number is seen
    through the two operations the pipeline applies to it: its truth value
    and its [str()]. *)
#[warnings="-register-all"]
Inductive json :=
| JNull
| JBool (b : bool)
| JNumber (nonzero : bool) (shown : text)
| JString (s : text)
| JArray (items : list json)
| JObject (fields : list (text * json)).

Definition is_none (v : json) : bool :=
  match v with JNull => true | _ => false end.

(** Truth value of a decoded value ([x or default]). *)
Definition truthy (v : json) : bool :=
  match v with
  | JNull => false
  | JBool b => b
  | JNumber nz _ => nz
  | JString s => negb (teqb s [])
  | JArray l => match l with [] => false | _ => true end
  | JObject l => match l with [] => false | _ => true end
  end.

Fixpoint assoc (k : text) (l : list (text * json)) : option json :=
  match l with
  | [] => None
  | (k', v) :: l' => if teqb k' k then Some v else assoc k l'
  end.

(** Exceptions that reach the row boundary ([except Exception]).
    [JSONDecodeError] is the one [json.loads] raises for a malformed text;
    [ValueError] stands for a [ValueError] that is not a
    [JSONDecodeError]. *)
Inductive exn :=
| AttributeError | TypeError | ValueError | KeyError | ModelError
| OverflowError | JSONDecodeError | RecursionError.

Inductive result (A : Type) :=
| Ok (a : A)
| Raise (e : exn).
Arguments Ok {A} a.
Arguments Raise {A} e.

Definition bind_result {A B} (r : result A) (k : A -> result B) : result B :=
  match r with
  | Ok a => k a
  | Raise e => Raise e
  end.

(** A loop that appends [f a] for each [a] of [l], left to right, and is
    left by the first exception. *)
Fixpoint map_result {A B} (f : A -> result B) (l : list A) : result (list B) :=
  match l with
  | [] => Ok []
  | a :: rest =>
      bind_result (f a) (fun b =>
      bind_result (map_result f rest) (fun bs => Ok (b :: bs)))
  end.

(** The same for a loop that appends zero or more items per step. *)
Fixpoint flat_map_result {A B} (f : A -> result (list B)) (l : list A)
  : result (list B) :=
  match l with
  | [] => Ok []
  | a :: rest =>
      bind_result (f a) (fun bs =>
      bind_result (flat_map_result f rest) (fun more => Ok (bs ++ more)))
  end.

(** The double nearest to the integer [z], ties going to the even
    significand: [z] itself up to 53 bits, otherwise its leading 53 bits,
    rounded, with the shift put back. *)
Definition nearest_double (z : Z) : Z :=
  (let a := Z.abs z in
   let bits := Z.log2 a + 1 in
   if bits <=? 53 then z
   else
     let shift := bits - 53 in
     let q := Z.shiftr a shift in
     let r := a - Z.shiftl q shift in
     let half := Z.shiftl 1 (shift - 1) in
     let q := if (half <? r) || ((half =? r) && Z.odd q) then q + 1 else q in
     Z.sgn z * Z.shiftl q shift)%Z.

(** [float(z)] for a Python [int]: the nearest double, and [OverflowError]
    ("int too large to convert to float") when that is not below 2^1024. *)
Definition float_of_int (z : Z) : result Q :=
  let v := nearest_double z in
  if (Z.abs v <? 2 ^ 1024)%Z then Ok (inject_Z v) else Raise OverflowError.

(** One call of [model.generate_content]: the prompt, and whether the
    JSON generation config was passed. *)
Record Call := {
  call_prompt : text;
  call_json_mode : bool
}.

(** What a call gives back, as far as the pipeline looks at it:
    [response.text] is a string, is [None], or raises when read. *)
Inductive response :=
| ResponseText (t : text)
| ResponseNoText
| ResponseTextRaises.

(** Row processing talks to the text-generation client; the state is the
    list of the calls made so far, oldest first. *)
Definition M (A : Type) : Type := list Call -> result A * list Call.

Definition ret {A} (a : A) : M A := fun log => (Ok a, log).

Definition raise {A} (e : exn) : M A := fun log => (Raise e, log).

Definition bind {A B} (m : M A) (k : A -> M B) : M B :=
  fun log =>
    match m log with
    | (Ok a, log') => k a log'
    | (Raise e, log') => (Raise e, log')
    end.

Definition lift {A} (r : result A) : M A := fun log => (r, log).

(** [try: m except Exception: handler]. *)
Definition try_except {A} (m : M A) (handler : exn -> M A) : M A :=
  fun log =>
    match m log with
    | (Ok a, log') => (Ok a, log')
    | (Raise e, log') => handler e log'
    end.

(** [d.get(key, default)]: only a dict has [get]. *)
Definition dict_get (d : json) (key : text) (default : json) : result json :=
  match d with
  | JObject fields =>
      Ok (match assoc key fields with Some v => v | None => default end)
  | _ => Raise AttributeError
  end.

(** Decimal text of a natural number and of an integer ([str(n)]). *)
Definition nat_text (n : nat) : text :=
  list_ascii_of_string (NilZero.string_of_uint (Nat.to_uint n)).

Definition Z_text (z : Z) : text :=
  list_ascii_of_string (NilZero.string_of_int (Z.to_int z)).

(** [enumerate(l)]. *)
Definition enumerate {A} (l : list A) : list (nat * A) :=
  combine (seq 0 (List.length l)) l.

(** [sep.join(parts)]. *)
Fixpoint join (sep : text) (parts : list text) : text :=
  match parts with
  | [] => []
  | [p] => p
  | p :: rest => p ++ sep ++ join sep rest
  end.

End Data.

(* ================================================================== *)
(** * app/config.py *)
(* ================================================================== *)

Module Config.

Definition OPTION_COLUMNS : list (string * (string * string)) :=
  [ ("A", ("option_a_text", "option_a_score"));
    ("B", ("option_b_text", "option_b_score"));
    ("C", ("option_c_text", "option_c_score"));
    ("D", ("option_d_text", "option_d_score"));
    ("E", ("option_e_text", "option_e_score"));
    ("Pilihan", ("option_number", "option_number_score")) ]%string.

End Config.

(* ================================================================== *)
(** * Sample data *)
(* ================================================================== *)

(** Concrete rows, replies and stand-ins for the runtime parameters, on
    which the statements below are exercised. *)
Module Samples.
Import Text Data.

(** [html.unescape] on text without character references. *)
Definition plain_unescape (t : text) : text := t.

(** [float(s)] for score cells that hold no numeric string. *)
Definition no_float (t : text) : option Q := None.

(** The text of an integral float, as in "10.0". *)
Definition integral_repr (q : Q) : text :=
  Z_text (Qnum q / Zpos (Qden q)) ++ txt ".0".

(** A decoder given by the finite table of the texts it accepts; every
    other text is malformed. *)
Definition table_loads (table : list (text * json)) (t : text) : result json :=
  match assoc t table with
  | Some v => Ok v
  | None => Raise JSONDecodeError
  end.

(** A decoder that knows one thing about [json.loads]: an integer literal
    of more than 4300 digits makes it raise [ValueError]; it takes every
    other text for malformed. *)
Definition digit_limit_loads (t : text) : result json :=
  if forallb (in_range 48 57) t && (4300 <? List.length t)
  then Raise ValueError
  else Raise JSONDecodeError.

(** An integer literal of 4301 digits. *)
Definition long_literal : text := repeat "1"%char 4301.

Definition brackets (v : json) : text := txt "[...]".

Definition short_instruction (numerik silogisme analogi analitis : bool) : text :=
  txt "Tulis pembahasan dalam bahasa Indonesia.".

(** A client that answers the n-th call with the n-th entry of [replies]
    and raises when the entries are used up. *)
Definition scripted (replies : list (option response))
  (log : list Call) (c : Call) : option response :=
  nth (List.length log) replies None.

(** Options A="Paris" (score 10) and B="Lyon" (score 2). *)
Definition paris_row : Row :=
  [ ("category", CText (txt "TWK"));
    ("question", CText (txt "Ibu kota Prancis adalah ..."));
    ("option_a_text", CText (txt "Paris")); ("option_a_score", CInt 10);
    ("option_b_text", CText (txt "Lyon")); ("option_b_score", CInt 2);
    ("option_c_text", CNaN); ("option_c_score", CNaN);
    ("option_d_text", CNaN); ("option_d_score", CNaN);
    ("option_e_text", CNaN); ("option_e_score", CNaN);
    ("option_number", CNaN); ("option_number_score", CNaN) ]%string.

(** As [paris_row], with the chosen letter "B" carrying the score 20. *)
Definition chosen_row : Row :=
  [ ("category", CText (txt "TWK"));
    ("option_a_text", CText (txt "Paris")); ("option_a_score", CInt 10);
    ("option_b_text", CText (txt "Lyon")); ("option_b_score", CInt 2);
    ("option_number", CText (txt "b")); ("option_number_score", CInt 20) ]%string.

(** Option A has a score but no text. *)
Definition unpopulated_row : Row :=
  [ ("option_a_text", CNaN); ("option_a_score", CInt 10);
    ("option_b_text", CText (txt "Lyon")); ("option_b_score", CInt 2) ]%string.

Definition figural_row : Row :=
  [ ("category", CText (txt "TIU"));
    ("sub_category", CText (txt "Figural"));
    ("option_a_text", CText (txt "Gambar 1")); ("option_a_score", CInt 5) ]%string.


(** A reply with three distinct detail paragraphs, and what it decodes to. *)
Definition thin_reply : text := txt "{ tiga paragraf }".


Definition garbled_reply : text := txt "maaf, tidak bisa".

(** A reply whose string holds a bare newline, its repaired form, and
    what the repaired form decodes to. *)
Definition newline_reply : text :=
  txt "{" ++ [DQUOTE] ++ txt "correct_summary" ++ [DQUOTE] ++ txt ": "
  ++ [DQUOTE] ++ txt "baris satu" ++ [LF] ++ txt "baris dua" ++ [DQUOTE]
  ++ txt "}".

Definition newline_reply_fixed : text :=
  txt "{" ++ [DQUOTE] ++ txt "correct_summary" ++ [DQUOTE] ++ txt ": "
  ++ [DQUOTE] ++ txt "baris satu" ++ [BACKSLASH; "n"%char] ++ txt "baris dua"
  ++ [DQUOTE] ++ txt "}".

Definition newline_data : json :=
  JObject [ (txt "correct_summary",
             JString (txt "baris satu" ++ [LF] ++ txt "baris dua")) ].

(** A reason of two sentences and 25 words. *)
Definition long_reason : text :=
  txt "Kota ini bukan pusat pemerintahan negara yang ditanyakan pada soal sehingga tidak tepat. Pilihan ini hanya menyebut kota besar lain yang berada di wilayah selatan negara tersebut.".

(** Options A and B share the highest score. *)
Definition tied_row : Row :=
  [ ("category", CText (txt "TWK"));
    ("option_a_text", CText (txt "Paris")); ("option_a_score", CInt 5);
    ("option_b_text", CText (txt "Lyon")); ("option_b_score", CInt 5);
    ("option_c_text", CText (txt "Nice")); ("option_c_score", CInt 3) ]%string.

(** No slot has a score; the chosen letter is "c". *)
Definition unscored_row : Row :=
  [ ("category", CText (txt "TWK"));
    ("option_a_text", CText (txt "Paris"));
    ("option_b_text", CText (txt "Lyon"));
    ("option_c_text", CText (txt "Nice"));
    ("option_number", CText (txt "c")) ]%string.

(** A reply for [paris_row], and what it decodes to. *)
Definition paris_reply : text := txt "{ jawaban paris }".

Definition paris_data : json :=
  JObject
    [ (txt "correct_summary",
       JString (txt "Paris adalah ibu kota Prancis."));
      (txt "detail_paragraphs",
       JArray [ JString (txt "Pusat pemerintahan Prancis berada di Paris.") ]);
      (txt "incorrect_reasons",
       JObject [ (txt "2", JString (txt "Lyon bukan ibu kota.")) ]) ].

(** Option A has the score 2^53 + 1 and option B the score 2^53, which are
    the same float. *)
Definition rounded_row : Row :=
  [ ("category", CText (txt "TWK"));
    ("option_a_text", CText (txt "Paris")); ("option_a_score", CInt (2 ^ 53 + 1));
    ("option_b_text", CText (txt "Lyon")); ("option_b_score", CInt (2 ^ 53)) ]%string.

(** The score of option A is an integer too large for a float. *)
Definition huge_score_row : Row :=
  [ ("category", CText (txt "TWK"));
    ("option_a_text", CText (txt "Paris")); ("option_a_score", CInt (10 ^ 400));
    ("option_b_text", CText (txt "Lyon")); ("option_b_score", CInt 2) ]%string.

(** Option A is correct; of the others, B and C have the same float as
    score, D has a text but no score, and E has the score 3. *)
Definition mixed_row : Row :=
  [ ("category", CText (txt "TWK"));
    ("option_a_text", CText (txt "Paris")); ("option_a_score", CFloat (inject_Z (2 ^ 60)));
    ("option_b_text", CText (txt "Lyon")); ("option_b_score", CInt (2 ^ 53));
    ("option_c_text", CText (txt "Nice")); ("option_c_score", CInt (2 ^ 53 + 1));
    ("option_d_text", CText (txt "Lille")); ("option_d_score", CNaN);
    ("option_e_text", CText (txt "Brest")); ("option_e_score", CInt 3) ]%string.

(** A reply that decodes to a list. *)
Definition list_reply : text := txt "[1, 2]".

Definition list_data : json :=
  JArray [ JNumber true (txt "1"); JNumber true (txt "2") ].

End Samples.

(* ================================================================== *)
(** * streamlit_app.py *)
(* ================================================================== *)

(** The caller of the pipeline: how the spreadsheet is named and how the
    target rows are handed to [generate_ai_explanations]. *)
Module StreamlitApp.
Import Text.

Definition AUTO_SAVE_BATCH_SIZE : nat := 50.

(** A character of the class [[a-zA-Z0-9-_]]. *)
Definition is_id_char (c : ascii) : bool :=
  in_range 97 122 c || in_range 65 90 c || in_range 48 57 c
  || Ascii.eqb c "-" || Ascii.eqb c "_".

(** The literal start of [url_pattern]. *)
Definition url_marker : text := txt "/spreadsheets/d/".

(** [url_pattern] matched at the start of [s]: group 1, the longest run of
    one or more id characters after the marker. *)
Definition match_url_pattern (s : text) : option text :=
  if startswith url_marker s then
    match takewhile is_id_char (skipn (List.length url_marker) s) with
    | [] => None
    | c :: group => Some (c :: group)
    end
  else None.

(** [re.search(url_pattern, s)]: group 1 of the leftmost match. *)
Fixpoint search_url_pattern (s : text) : option text :=
  match match_url_pattern s with
  | Some group => Some group
  | None =>
      match s with
      | [] => None
      | _ :: s' => search_url_pattern s'
      end
  end.

Definition extract_spreadsheet_id (user_input : text) : option text :=
  match user_input with
  | [] => None
  | _ :: _ =>
      match search_url_pattern user_input with
      | Some group => Some group
      | None => Some (strip user_input)
      end
  end.

(** [max(1, (len(target_indices) + AUTO_SAVE_BATCH_SIZE - 1)
    // AUTO_SAVE_BATCH_SIZE)]. *)
Definition total_batches (target_indices : list nat) : nat :=
  Nat.max 1 ((List.length target_indices + AUTO_SAVE_BATCH_SIZE - 1)
             / AUTO_SAVE_BATCH_SIZE).

(** [target_indices[start : start + AUTO_SAVE_BATCH_SIZE]] for the batch
    numbered [batch_index]. *)
Definition batch (target_indices : list nat) (batch_index : nat) : list nat :=
  let start := batch_index * AUTO_SAVE_BATCH_SIZE in
  firstn (start + AUTO_SAVE_BATCH_SIZE - start) (skipn start target_indices).

(** The batches that the loop over [range(total_batches)] hands to
    [generate_ai_explanations], in order. *)
Definition batches (target_indices : list nat) : list (list nat) :=
  map (batch target_indices) (seq 0 (total_batches target_indices)).

End StreamlitApp.

(* ================================================================== *)
(** * app/ai_utils.py *)
(* ================================================================== *)

Module AiUtils.
Import Text Data Config.

Definition OPTION_TEXT_LABELS : list string :=
  filter (fun label => negb (String.eqb label "Pilihan"))
         (map fst OPTION_COLUMNS).

Definition MIN_NUMERIC_PARAGRAPHS : nat := 4.

(** [OPTION_COLUMNS[label]]. *)
Fixpoint columns_of (label : string)
  (cols : list (string * (string * string))) : string * string :=
  match cols with
  | [] => (""%string, ""%string)
  | (k, v) :: cols' => if String.eqb k label then v else columns_of label cols'
  end.

Section Pipeline.

#[local] Set Default Proof Using "Type".

(** ** Parameters: the Python runtime and third-party calls *)

(** [html.unescape]. *)
Variable html_unescape : text -> text.
(** [float(s)] on a string; [None] when it raises [ValueError]. *)
Variable float_of_text : text -> option Q.
(** [str(x)] of a float. *)
Variable float_repr : Q -> text.
(** [json.loads]: the decoded value, or the exception it raises:
    [JSONDecodeError] for a malformed text, and for some texts another one
    ([ValueError] for an integer literal over the digit limit,
    [RecursionError] for nesting that is too deep). *)
Variable json_loads : text -> result json.
(** [str(v)] of a decoded list or dict. *)
Variable container_repr : json -> text.
(** The fixed instruction text of [build_prompt], selected by the four
    category flags (numerik, silogisme, analogi, analitis). *)
Variable instruction_text : bool -> bool -> bool -> bool -> text.

(** [model.generate_content] of the text-generation client, given the calls
    made before; [None] when the call raises. *)
Variable generate_content : list Call -> Call -> option response.

Local Notation "'let?' x := e 'in' k" := (bind_result e (fun x => k))
  (at level 10, x name, e at level 100, k at level 200).
Local Notation "x <- m ;; k" := (bind m (fun x => k))
  (at level 61, m at next level, right associativity).

(** ** Cells as Python values *)

(** [str(c)]. *)
Definition cell_str (c : cell) : text :=
  match c with
  | CNone => txt "None"
  | CNaN => txt "nan"
  | CInt z => Z_text z
  | CFloat q => float_repr q
  | CText s => s
  end.

(** [float(c)] under [try/except (TypeError, ValueError)]: [Ok None] when
    the conversion raises one of these two, which the handler catches.  The
    [OverflowError] of an integer that is too large for a float is not
    caught. *)
Definition cell_float (c : cell) : result (option Q) :=
  match c with
  | CNone => Ok None
  | CNaN => Ok None
  | CInt z => let? numeric := float_of_int z in Ok (Some numeric)
  | CFloat q => Ok (Some q)
  | CText s => Ok (float_of_text s)
  end.

(** The guard shared by [_extract_option_scores] and
    [_infer_correct_indices]: a cell that is not NA and converts to float. *)
Definition numeric_score (row : Row) (score_col : string)
  : result (option Q) :=
  let score := get row score_col in
  if isna score then Ok None else cell_float score.

(** ** Text cleaning *)

(** [re.sub(r"<[^>]+>", " ", s)]: a '<', then at least one character other
    than '>', then the first '>'. *)
Definition match_tag (s : text) : option nat :=
  match s with
  | c :: r =>
      if Ascii.eqb c "<" then
        match find_char ">" r with
        | Some (S k) => Some (k + 3)
        | _ => None
        end
      else None
  | [] => None
  end.

Definition strip_tags (s : text) : text :=
  re_sub match_tag (fun _ => txt " ") s.

(** [s.replace(a, b)] for one-character [a] and [b]. *)
Definition replace_char (a b : ascii) (s : text) : text :=
  map (fun c => if Ascii.eqb c a then b else c) s.

Definition _sanitize_text (value : text) : text :=
  let text := html_unescape value in
  let text := strip_tags text in
  let text := replace_char CR " " (replace_char LF " " text) in
  let text := collapse_ws text in
  strip text.

(** [_normalize_label(value)]; [None] is Python [None]. *)
Definition _normalize_label (value : cell) : text :=
  match value with
  | CNone => []
  | _ => lower (strip (collapse_ws (cell_str value)))
  end.

Definition _should_skip_row (category_value sub_category_value : cell)
  : option text :=
  let category_norm := _normalize_label category_value in
  if negb (teqb category_norm (txt "tiu")) then None
  else
    let sub_norm := _normalize_label sub_category_value in
    if startswith (txt "figural") sub_norm then
      Some (txt "subkategori TIU figural di-skip.")
    else if startswith (txt "numerik deret") sub_norm then
      Some (txt "subkategori TIU numerik deret di-skip.")
    else None.

Definition _is_tiu_numerik (category_value sub_category_value : cell) : bool :=
  let category_norm := _normalize_label category_value in
  if negb (teqb category_norm (txt "tiu")) then false
  else
    let sub_norm := _normalize_label sub_category_value in
    startswith (txt "numerik") sub_norm
    && negb (startswith (txt "numerik deret") sub_norm).

Definition _is_verbal_silogisme (category_value sub_category_value : cell) : bool :=
  teqb (_normalize_label category_value) (txt "tiu")
  && teqb (_normalize_label sub_category_value) (txt "verbal silogisme").

Definition _is_verbal_analogi (category_value sub_category_value : cell) : bool :=
  teqb (_normalize_label category_value) (txt "tiu")
  && teqb (_normalize_label sub_category_value) (txt "verbal analogi").

Definition _is_verbal_analitis (category_value sub_category_value : cell) : bool :=
  teqb (_normalize_label category_value) (txt "tiu")
  && teqb (_normalize_label sub_category_value) (txt "verbal analitis").

(** ** Scores and ordering *)

Definition _extract_option_scores (row : Row) : result (list (option Q)) :=
  map_result
    (fun label => numeric_score row (snd (columns_of label OPTION_COLUMNS)))
    OPTION_TEXT_LABELS.

(** The first component of the sort key, [-score_value]: a missing score
    counts as minus infinity, so its negation is plus infinity. *)
Inductive neg_score :=
| Finite (q : Q)
| PlusInf.

Definition _score_sort_key (idx : nat) (scores : list (option Q))
  : neg_score * nat :=
  let score := if idx <? List.length scores then nth idx scores None else None in
  (match score with Some s => Finite (- s) | None => PlusInf end, idx).

Definition neg_score_eqb (a b : neg_score) : bool :=
  match a, b with
  | Finite x, Finite y => Qeq_bool x y
  | PlusInf, PlusInf => true
  | _, _ => false
  end.

Definition neg_score_ltb (a b : neg_score) : bool :=
  match a, b with
  | Finite x, Finite y => negb (Qle_bool y x)
  | Finite _, PlusInf => true
  | PlusInf, _ => false
  end.

(** Python's [<] on the key tuples. *)
Definition key_ltb (a b : neg_score * nat) : bool :=
  if neg_score_eqb (fst a) (fst b) then snd a <? snd b
  else neg_score_ltb (fst a) (fst b).

(** [sorted(l, key=key)]: a stable sort, here by insertion. *)
Fixpoint insert_by (key : nat -> neg_score * nat) (x : nat) (l : list nat)
  : list nat :=
  match l with
  | [] => [x]
  | y :: l' =>
      if key_ltb (key y) (key x) then y :: insert_by key x l'
      else x :: l
  end.

Definition sorted_by (key : nat -> neg_score * nat) (l : list nat) : list nat :=
  fold_right (insert_by key) [] l.

Definition mem_nat (n : nat) (l : list nat) : bool := existsb (Nat.eqb n) l.

(** The loop of [_order_indices]; [seen] and [filtered] hold the same
    elements, so one list stands for both. *)
Fixpoint order_filter (indices : list nat) (option_map : list text)
  (seen : list nat) : list nat :=
  match indices with
  | [] => []
  | idx :: rest =>
      if mem_nat idx seen || (List.length option_map <=? idx) then
        order_filter rest option_map seen
      else if teqb (nth idx option_map []) [] then
        order_filter rest option_map seen
      else idx :: order_filter rest option_map (idx :: seen)
  end.

Definition _order_indices (indices : list nat) (scores : list (option Q))
  (option_map : list text) : list nat :=
  let filtered := order_filter indices option_map [] in
  sorted_by (fun idx => _score_sort_key idx scores) filtered.

(** ** Correctness inference *)

(** The letter-code table of [_infer_correct_indices]. *)
Definition mapping : list (text * nat) :=
  [ (txt "A", 0); (txt "B", 1); (txt "C", 2); (txt "D", 3); (txt "E", 4);
    (txt "PILIHAN A", 0); (txt "PILIHAN B", 1); (txt "PILIHAN C", 2);
    (txt "PILIHAN D", 3); (txt "PILIHAN E", 4) ].

Fixpoint mapping_get_in (tbl : list (text * nat)) (key : text) : option nat :=
  match tbl with
  | [] => None
  | (k, v) :: tbl' => if teqb k key then Some v else mapping_get_in tbl' key
  end.

Definition mapping_get (key : text) : option nat := mapping_get_in mapping key.

(** [str(row.get("option_number", "")).strip().upper()]. *)
Definition option_number_code (row : Row) : text :=
  upper (strip (cell_str (get_or row "option_number" (CText [])))).

(** [scored_options]: the slots of [OPTION_COLUMNS] (the five letters and
    the "Pilihan" slot) whose score cell is numeric, with their position. *)
Definition scored_options (row : Row) : result (list (nat * Q)) :=
  flat_map_result
    (fun entry : nat * (string * (string * string)) =>
       let? score := numeric_score row (snd (snd (snd entry))) in
       Ok (match score with
           | Some numeric => [(fst entry, numeric)]
           | None => []
           end))
    (enumerate OPTION_COLUMNS).

(** [max(value for _, value in scored)] for a non-empty [scored]. *)
Definition max_score (scored : list (nat * Q)) : Q :=
  match scored with
  | [] => 0%Q
  | (_, v) :: rest =>
      fold_left (fun m e => if Qle_bool (snd e) m then m else snd e) rest v
  end.

(** [list(dict.fromkeys(indices))]. *)
Fixpoint dedupe_from (seen : list nat) (indices : list nat) : list nat :=
  match indices with
  | [] => []
  | i :: rest =>
      if mem_nat i seen then dedupe_from seen rest
      else i :: dedupe_from (i :: seen) rest
  end.

Definition dedupe (indices : list nat) : list nat := dedupe_from [] indices.

(** Strategy 1: the slots that hold the maximal score. *)
Definition indices_by_score (row : Row) (scored : list (nat * Q)) : list nat :=
  match scored with
  | [] => []
  | _ :: _ =>
      let m := max_score scored in
      flat_map
        (fun e : nat * Q =>
           if negb (Qeq_bool (snd e) m) then []
           else
             let label := nth (fst e) (map fst OPTION_COLUMNS) ""%string in
             if String.eqb label "Pilihan" then
               match mapping_get (option_number_code row) with
               | Some mapped => [mapped]
               | None => []
               end
             else [fst e])
        scored
  end.

(** Strategy 3: option texts found in the "true answer" field. *)
Definition indices_by_answer (cleaned_answer : text) (option_texts : list text)
  : list nat :=
  flat_map
    (fun e : nat * text =>
       let candidate := strip (lower (snd e)) in
       if teqb candidate [] then []
       else if teqb cleaned_answer candidate
               || endswith candidate cleaned_answer
               || contains candidate cleaned_answer
       then [fst e] else [])
    (enumerate option_texts).

Definition is_colon_or_dash (c : ascii) : bool :=
  Ascii.eqb c ":" || Ascii.eqb c "-".

Definition not_newline (c : ascii) : bool := negb (Ascii.eqb c LF).

(** The last character of [w] that is not a newline. *)
Definition last_non_newline (w : text) : option ascii :=
  match dropwhile (fun c => Ascii.eqb c LF) (rev w) with
  | [] => None
  | c :: _ => Some c
  end.

(** The tail [\s*[:\-]\s*(.+)] of the legacy-explanation pattern, matched at
    the start of [s]; the result is group 1.  The second [\s*] gives white
    space back only when nothing else is left for [(.+)]. *)
Definition match_answer_tail (s : text) : option text :=
  match dropwhile is_space s with
  | [] => None
  | c :: rest =>
      if is_colon_or_dash c then
        match dropwhile is_space rest with
        | (_ :: _) as r => Some (takewhile not_newline r)
        | [] => option_map (fun c => [c])
                           (last_non_newline (takewhile is_space rest))
        end
      else None
  end.

Definition match_answer_here (s : text) : option text :=
  if startswith (txt "jawaban yang benar") s
     || startswith (txt "jawaban yang tepat") s
  then match_answer_tail (skipn 18 s)
  else None.

(** [re.search(r"jawaban yang (?:benar|tepat)\s*[:\-]\s*(.+)", s)], group 1. *)
Fixpoint search_answer_segment (s : text) : option text :=
  match match_answer_here s with
  | Some g => Some g
  | None =>
      match s with
      | [] => None
      | _ :: s' => search_answer_segment s'
      end
  end.

(** Strategy 4: the first option text found in the answer segment. *)
Fixpoint first_in_segment (answer_segment : text) (opts : list (nat * text))
  : list nat :=
  match opts with
  | [] => []
  | (idx, t) :: rest =>
      let candidate := strip (lower t) in
      if teqb candidate [] then first_in_segment answer_segment rest
      else if startswith candidate answer_segment
              || contains candidate answer_segment
      then [idx]
      else first_in_segment answer_segment rest
  end.

(** Truth value of a cell ([a or b]). *)
Definition cell_truthy (c : cell) : bool :=
  match c with
  | CNone => false
  | CNaN => true
  | CInt z => negb (Z.eqb z 0)
  | CFloat q => negb (Qeq_bool q 0)
  | CText s => negb (teqb s [])
  end.

(** Strategy 2: the chosen-letter field. *)
Definition indices_by_option_number (row : Row) (option_texts : list text)
  : list nat :=
  match mapping_get (option_number_code row) with
  | Some mapped =>
      if mapped <? List.length option_texts then [mapped] else []
  | None => []
  end.

Definition indices_by_true_answer (row : Row) (option_texts : list text)
  : list nat :=
  let answer_true := get row "answer_header_true" in
  if notna answer_true then
    let cleaned_answer := lower (_sanitize_text (cell_str answer_true)) in
    indices_by_answer cleaned_answer option_texts
  else [].

Definition indices_by_explanation (row : Row) (option_texts : list text)
  : list nat :=
  let explanation_text :=
    if cell_truthy (get row "explanation") then get row "explanation"
    else get row "explanation_ai" in
  if notna explanation_text then
    let cleaned_explanation :=
      lower (_sanitize_text (cell_str explanation_text)) in
    match search_answer_segment cleaned_explanation with
    | Some answer_segment =>
        first_in_segment answer_segment (enumerate option_texts)
    | None => []
    end
  else [].

(** The strategies in their order; the first non-empty answer wins.  The
    scores are converted first: an exception of the conversion leaves the
    function. *)
Definition _infer_correct_indices (row : Row) (option_texts : list text)
  : result (list nat) :=
  let? scored := scored_options row in
  Ok (match indices_by_score row scored with
      | (_ :: _) as indices => dedupe indices
      | [] =>
      match indices_by_option_number row option_texts with
      | (_ :: _) as indices => indices
      | [] =>
      match indices_by_true_answer row option_texts with
      | (_ :: _) as indices => indices
      | [] => indices_by_explanation row option_texts
      end end end).

(** ** The prompt and its context *)

Record PromptData := {
  prompt : text;
  option_map : list text;
  correct_indices : list nat;
  incorrect_indices : list nat;
  question_summary : text
}.

(** [option_map] of [build_prompt]: the sanitized text of each lettered
    option, empty for an unused slot. *)
Definition option_text_of (row : Row) (label : string) : text :=
  let option_text := get row (fst (columns_of label OPTION_COLUMNS)) in
  if notna option_text && negb (teqb (strip (cell_str option_text)) [])
  then _sanitize_text (cell_str option_text)
  else [].

Definition build_option_map (row : Row) : list text :=
  map (option_text_of row) OPTION_TEXT_LABELS.

(** The "Opsi n: text" lines, one per slot whose raw text is not blank. *)
Definition option_instruction_rows (row : Row) : list text :=
  flat_map
    (fun e : nat * string =>
       let option_text := get row (fst (columns_of (snd e) OPTION_COLUMNS)) in
       if notna option_text && negb (teqb (strip (cell_str option_text)) [])
       then [txt "Opsi " ++ nat_text (fst e + 1) ++ txt ": "
             ++ _sanitize_text (cell_str option_text)]
       else [])
    (enumerate OPTION_TEXT_LABELS).

Definition has_text (option_map : list text) (idx : nat) : bool :=
  (idx <? List.length option_map) && negb (teqb (nth idx option_map []) []).

(** Correct indices with text first, the others after them. *)
Definition textful_first (correct_indices : list nat) (option_map : list text)
  : list nat :=
  match correct_indices with
  | [] => correct_indices
  | _ :: _ =>
      let textful := filter (has_text option_map) correct_indices in
      match textful with
      | [] => correct_indices
      | _ :: _ =>
          let leftovers :=
            filter (fun idx => negb (mem_nat idx textful)) correct_indices in
          textful ++ leftovers
      end
  end.

Definition incorrect_of (correct_indices : list nat) (option_map : list text)
  : list nat :=
  filter
    (fun idx => negb (mem_nat idx correct_indices) && has_text option_map idx)
    (seq 0 (List.length option_map)).

Definition quoted (s : text) : text := DQUOTE :: s ++ [DQUOTE].

Definition schema (is_verbal_analitis : bool) : text :=
  join [LF]
    ([ txt "{";
       txt "  " ++ quoted (txt "correct_summary") ++ txt ": string,";
       txt "  " ++ quoted (txt "detail_paragraphs") ++ txt ": [string, ...]," ]
     ++ (if is_verbal_analitis
         then [txt "  " ++ quoted (txt "table_html") ++ txt ": string,"]
         else [])
     ++ [ txt "  " ++ quoted (txt "incorrect_reasons") ++ txt ": {";
          txt "       " ++ quoted (txt "1")
            ++ txt ": string alasan (untuk opsi indeks 1 jika salah),";
          txt "       ...";
          txt "   }";
          txt "}" ]).

Definition metadata_line (label : string) (c : cell) : list text :=
  if notna c then [txt label ++ cell_str c] else [].

Definition build_prompt (row : Row) : result PromptData :=
  let question_text := strip (cell_str (get_or row "question" (CText []))) in
  let question_summary := _sanitize_text question_text in
  let option_map := build_option_map row in
  let metadata :=
    join [LF]
      (filter (fun part => negb (teqb part []))
         (metadata_line "Kategori: " (get row "category")
          ++ metadata_line "Subkategori: " (get row "sub_category")
          ++ metadata_line "Program: " (get row "program")
          ++ metadata_line "Tag: " (get row "tags")
          ++ metadata_line "Keyword: " (get row "question_keyword"))) in
  let omit_incorrect :=
    _is_tiu_numerik (get row "category") (get row "sub_category") in
  let is_verbal_silogisme :=
    _is_verbal_silogisme (get row "category") (get row "sub_category") in
  let is_verbal_analogi :=
    _is_verbal_analogi (get row "category") (get row "sub_category") in
  let is_verbal_analitis :=
    _is_verbal_analitis (get row "category") (get row "sub_category") in
  let instructions :=
    instruction_text omit_incorrect is_verbal_silogisme is_verbal_analogi
                     is_verbal_analitis in
  let option_instructions :=
    match join [LF] (option_instruction_rows row) with
    | [] => txt "(Tidak ada pilihan)"
    | t => t
    end in
  let? inferred := _infer_correct_indices row option_map in
  let correct_indices := textful_first inferred option_map in
  let incorrect_indices := incorrect_of correct_indices option_map in
  let correct_option_display :=
    match
      join [LF]
        (map (fun idx => txt "Opsi " ++ nat_text (idx + 1) ++ txt ": "
                         ++ nth idx option_map [])
             (filter (has_text option_map) correct_indices))
    with
    | [] => txt "(Tidak diketahui)"
    | t => t
    end in
  let context :=
    instructions ++ [LF; LF] ++ metadata
    ++ [LF; LF] ++ txt "Soal:" ++ [LF] ++ question_text ++ [LF; LF]
    ++ txt "Daftar opsi (gunakan apa adanya untuk bagian opsi salah):" ++ [LF]
    ++ option_instructions ++ [LF]
    ++ txt "Opsi benar (copy teksnya secara utuh ketika menyusun ringkasan):"
    ++ [LF] ++ correct_option_display ++ [LF]
    ++ txt "Opsi salah yang wajib dijelaskan: "
    ++ join (txt ", ") (map (fun idx => nat_text (idx + 1)) incorrect_indices)
    ++ [LF]
    ++ txt "Kembalikan respons dalam format JSON PERSIS seperti berikut tanpa teks tambahan atau blok kode:"
    ++ [LF] ++ schema is_verbal_analitis ++ [LF]
    ++ txt "Output TIDAK boleh diawali atau diakhiri dengan karakter selain tanda kurung kurawal JSON." in
  Ok {| prompt := context;
        option_map := option_map;
        correct_indices := correct_indices;
        incorrect_indices := incorrect_indices;
        question_summary := question_summary |}.

(** The two index lists as [generate_ai_explanations] uses them: those of
    [build_prompt], put in score order by [_order_indices]. *)
Definition ordered_correct (row : Row) : result (list nat) :=
  let? p := build_prompt row in
  let? scores := _extract_option_scores row in
  Ok (_order_indices (correct_indices p) scores (option_map p)).

Definition ordered_incorrect (row : Row) : result (list nat) :=
  let? p := build_prompt row in
  let? scores := _extract_option_scores row in
  Ok (_order_indices (incorrect_indices p) scores (option_map p)).

(** ** Reply parsing and repair *)

(** [_is_escaped(text, idx)]: the number of backslashes that stand right
    before position [idx] is odd. *)
Definition _is_escaped (text : text) (idx : nat) : bool :=
  Nat.odd
    (List.length (takewhile (Ascii.eqb BACKSLASH) (rev (firstn idx text)))).

(** The characters that may follow a backslash in a JSON string. *)
Definition valid_escapes : text :=
  [DQUOTE; BACKSLASH] ++ txt "/bfnrtu".

(** The loop of [_repair_json_text].  The cursor [idx] is the split of
    [raw_text] into the characters already read, [done] (reversed), and the
    characters still to read, [rest]; the value is what the loop appends to
    [result] from here on. *)
Fixpoint repair_from (done rest : text) (in_string : bool) : text :=
  match rest with
  | [] => []
  | char :: rest' =>
      if Ascii.eqb char DQUOTE
         && negb (_is_escaped (rev done ++ rest) (List.length done))
      then char :: repair_from (char :: done) rest' (negb in_string)
      else if in_string then
        if Ascii.eqb char LF then
          BACKSLASH :: "n"%char :: repair_from (char :: done) rest' in_string
        else if Ascii.eqb char CR then
          BACKSLASH :: "r"%char :: repair_from (char :: done) rest' in_string
        else if Ascii.eqb char BACKSLASH then
          match rest' with
          | nxt :: rest'' =>
              if mem_char nxt valid_escapes then
                char :: nxt :: repair_from (nxt :: char :: done) rest'' in_string
              else
                BACKSLASH :: BACKSLASH
                  :: repair_from (char :: done) rest' in_string
          | [] =>
              BACKSLASH :: BACKSLASH
                :: repair_from (char :: done) rest' in_string
          end
        else char :: repair_from (char :: done) rest' in_string
      else char :: repair_from (char :: done) rest' in_string
  end.

Definition _repair_json_text (raw_text : text) : text :=
  repair_from [] raw_text false.

(** [try: json.loads(t) except json.JSONDecodeError: handler]; another
    exception of [json.loads] is not caught. *)
Definition loads_or_else (t : text) (handler : result json) : result json :=
  match json_loads t with
  | Raise JSONDecodeError => handler
  | r => r
  end.

(** [_parse_response]; the answer [JNull] is Python's [None]. *)
Definition _parse_response (raw_text : text) : result json :=
  loads_or_else raw_text
    (let repaired := _repair_json_text raw_text in
     loads_or_else repaired
       (match find_char "{" raw_text, rfind_char "}" raw_text with
        | Some start, Some end_ =>
            if start <? end_ then
              let candidate := slice start (end_ + 1) raw_text in
              loads_or_else candidate
                (let repaired_candidate := _repair_json_text candidate in
                 loads_or_else repaired_candidate (Ok JNull))
            else Ok JNull
        | _, _ => Ok JNull
        end)).

(** A reply that is lexically sound except that, inside quoted strings, some
    line breaks are written as a bare newline instead of the two characters
    backslash-n.  [unescaped_newlines in_string raw fixed]: reading from a
    point inside ([true]) or outside ([false]) a string, [raw] is the reply
    as received and [fixed] the same text with every bare newline of a
    string written as backslash-n.  Outside strings there is no backslash;
    inside, a backslash is followed by one of [valid_escapes]. *)
Inductive unescaped_newlines : bool -> text -> text -> Prop :=
| un_end : unescaped_newlines false [] []
| un_outside c raw fixed :
    c <> DQUOTE -> c <> BACKSLASH ->
    unescaped_newlines false raw fixed ->
    unescaped_newlines false (c :: raw) (c :: fixed)
| un_open raw fixed :
    unescaped_newlines true raw fixed ->
    unescaped_newlines false (DQUOTE :: raw) (DQUOTE :: fixed)
| un_close raw fixed :
    unescaped_newlines false raw fixed ->
    unescaped_newlines true (DQUOTE :: raw) (DQUOTE :: fixed)
| un_plain c raw fixed :
    c <> DQUOTE -> c <> BACKSLASH -> c <> LF -> c <> CR ->
    unescaped_newlines true raw fixed ->
    unescaped_newlines true (c :: raw) (c :: fixed)
| un_escape c raw fixed :
    mem_char c valid_escapes = true ->
    unescaped_newlines true raw fixed ->
    unescaped_newlines true (BACKSLASH :: c :: raw) (BACKSLASH :: c :: fixed)
| un_newline raw fixed :
    unescaped_newlines true raw fixed ->
    unescaped_newlines true (LF :: raw) (BACKSLASH :: "n"%char :: fixed).

(** ** Reason normalisers *)

(** Pieces of the [_REASON_PREFIXES] patterns, each matched at the start of
    [s] under [re.IGNORECASE]; the answer is the text after the match. *)

(** [\s*] *)
Definition re_ws0 (s : text) : option text := Some (dropwhile is_space s).

(** [\s+] *)
Definition re_ws1 (s : text) : option text :=
  match s with
  | c :: _ => if is_space c then Some (dropwhile is_space s) else None
  | [] => None
  end.

(** A literal word, given in lower case. *)
Definition re_lit (w : string) (s : text) : option text :=
  if ci_startswith (txt w) s then Some (skipn (String.length w) s) else None.

(** [[:\-]*] *)
Definition re_marks (s : text) : option text :=
  Some (dropwhile is_colon_or_dash s).

(** A character of [[A-E0-9]] under [re.IGNORECASE]. *)
Definition is_label_char (c : ascii) : bool :=
  in_range 65 69 c || in_range 97 101 c || in_range 48 57 c.

(** [[A-E0-9]+] *)
Definition re_label (s : text) : option text :=
  match s with
  | c :: _ => if is_label_char c then Some (dropwhile is_label_char s) else None
  | [] => None
  end.

(** [(opsi|pilihan)] *)
Definition re_opsi_pilihan (s : text) : option text :=
  match re_lit "opsi" s with
  | Some r => Some r
  | None => re_lit "pilihan" s
  end.

(** Concatenation of pattern pieces. *)
Fixpoint re_seq (pieces : list (text -> option text)) (s : text) : option text :=
  match pieces with
  | [] => Some s
  | p :: pieces' =>
      match p s with
      | Some r => re_seq pieces' r
      | None => None
      end
  end.

Definition re_tail : list (text -> option text) := [re_ws0; re_marks; re_ws0].

Definition _REASON_PREFIXES : list (text -> option text) :=
  [ re_seq ([re_ws0; re_lit "jawaban"; re_ws1; re_lit "yang"; re_ws1;
             re_lit "kurang"; re_ws1; re_lit "tepat"] ++ re_tail);
    re_seq ([re_ws0; re_lit "jawaban"; re_ws1; re_lit "kurang"; re_ws1;
             re_lit "tepat"] ++ re_tail);
    re_seq ([re_ws0; re_lit "jawaban"; re_ws1; re_lit "salah"] ++ re_tail);
    re_seq ([re_ws0; re_lit "opsi"; re_ws1; re_lit "salah"; re_ws1; re_label]
            ++ re_tail);
    re_seq ([re_ws0; re_lit "-"; re_ws0; re_opsi_pilihan; re_ws1; re_label]
            ++ re_tail);
    re_seq ([re_ws0; re_opsi_pilihan; re_ws1; re_label] ++ re_tail) ].

(** One round of the loop of [_strip_reason_prefix]. *)
Definition strip_prefix_round (cleaned : text) : text :=
  let updated :=
    fold_left
      (fun updated pattern =>
         match pattern updated with
         | Some after => strip after
         | None => updated
         end)
      _REASON_PREFIXES cleaned in
  strip (lstrip_chars (txt "-: ") updated).

(** [while True: ... if updated == cleaned: break]; every round that goes
    on shortens the text, so [fuel] above its length is never used up. *)
Fixpoint strip_prefix_loop (fuel : nat) (cleaned : text) : text :=
  match fuel with
  | 0 => cleaned
  | S fuel' =>
      let updated := strip_prefix_round cleaned in
      if teqb updated cleaned then cleaned
      else strip_prefix_loop fuel' updated
  end.

Definition _strip_reason_prefix (reason : text) : text :=
  let cleaned := strip reason in
  strip_prefix_loop (S (List.length cleaned)) cleaned.

(** The loop of [_strip_option_echo]. *)
Fixpoint strip_echo_loop (fuel : nat) (cleaned_reason option_clean : text)
  : text :=
  match fuel with
  | 0 => cleaned_reason
  | S fuel' =>
      let lowered_option := lower option_clean in
      let lowered_reason := lower cleaned_reason in
      if negb (startswith lowered_option lowered_reason) then cleaned_reason
      else
        let trimmed :=
          strip (lstrip_chars (txt " ,:.-")
                   (skipn (List.length option_clean) cleaned_reason)) in
        match trimmed with
        | [] => []
        | _ :: _ => strip_echo_loop fuel' trimmed option_clean
        end
  end.

Definition _strip_option_echo (reason option_text : text) : text :=
  let cleaned_reason := strip reason in
  let option_clean := strip option_text in
  match option_clean with
  | [] => cleaned_reason
  | _ :: _ =>
      strip_echo_loop (S (List.length cleaned_reason)) cleaned_reason option_clean
  end.

(** [s.endswith((".", "!", "?"))]. *)
Definition ends_sentence (s : text) : bool :=
  match rev s with
  | c :: _ => mem_char c (txt ".!?")
  | [] => false
  end.

(** A character of the class of [_extract_proper_tokens] and
    [_normalize_reason_capital]: A-Z, a-z, U+00C0..U+00FF and the
    apostrophe. *)
Definition is_word_char (c : ascii) : bool :=
  in_range 65 90 c || in_range 97 122 c || in_range 192 255 c
  || Ascii.eqb c "'".

(** [re.match] of one or more characters of that class at the start of
    [s], group 0. *)
Definition match_word (s : text) : option text :=
  match takewhile is_word_char s with
  | [] => None
  | (_ :: _) as word => Some word
  end.

(** [re.findall] of the maximal runs of characters of that class; [acc]
    is the word being read, reversed. *)
Fixpoint findall_words_from (acc : text) (s : text) : list text :=
  match s with
  | [] => match acc with [] => [] | _ :: _ => [rev acc] end
  | c :: s' =>
      if is_word_char c then findall_words_from (c :: acc) s'
      else
        match acc with
        | [] => findall_words_from [] s'
        | _ :: _ => rev acc :: findall_words_from [] s'
        end
  end.

Definition findall_words (s : text) : list text := findall_words_from [] s.

Definition mem_text (t : text) (l : list text) : bool := existsb (teqb t) l.

(** [_extract_proper_tokens] on its argument tuple; the set is kept as a list. *)
Definition _extract_proper_tokens (texts : list text) : list text :=
  flat_map
    (fun text =>
       filter (fun token => match token with
                            | c :: _ => is_upper c
                            | [] => false
                            end)
              (findall_words text))
    texts.

Definition _normalize_reason_capital
  (text : Text.text) (preserve_tokens : list Text.text) : Text.text :=
  let original := text in
  match text with
  | [] => original
  | _ :: _ =>
    let leading_spaces := List.length text - List.length (lstrip text) in
    let working := skipn leading_spaces text in
    let '(prefix, sep, suffix) := partition_at ":" working in
    if sep && nonempty suffix then
      let rest := lstrip suffix in
      let rest :=
        if ci_startswith (txt "adalah ") rest then skipn 7 rest else rest in
      let rest :=
        match match_word rest with
        | Some word =>
            if negb (mem_text word preserve_tokens)
               && negb (teqb (lower word) (txt "anda"))
            then lower word ++ skipn (List.length word) rest
            else rest
        | None => rest
        end in
      let space_after :=
        match firstn (List.length suffix - List.length (lstrip suffix)) suffix with
        | [] => txt " "
        | (_ :: _) as w => w
        end in
      match rest with
      | [] => original
      | _ :: _ =>
          firstn leading_spaces text ++ prefix ++ txt ":" ++ space_after ++ rest
      end
    else
      let cleaned := working in
      let idx := List.length (takewhile (fun c => negb (is_alpha c)) cleaned) in
      if List.length cleaned <=? idx then original
      else
        match match_word (skipn idx cleaned) with
        | None => original
        | Some word =>
            if mem_text word preserve_tokens || teqb (lower word) (txt "anda")
            then original
            else
              let lowered := lower (firstn 1 word) ++ skipn 1 word in
              firstn (leading_spaces + idx) text ++ lowered
              ++ skipn (idx + List.length word) cleaned
        end
  end.

Definition _enrich_reason
  (option_text reason correct_text question_summary : text) : text :=
  let cleaned_reason := strip reason in
  let cleaned_reason :=
    if nonempty cleaned_reason && negb (ends_sentence cleaned_reason)
    then cleaned_reason ++ txt "."
    else cleaned_reason in
  let sentence_count :=
    count_char "." cleaned_reason + count_char "!" cleaned_reason
    + count_char "?" cleaned_reason in
  let word_count := count_words cleaned_reason in
  let supplements :=
    if (sentence_count <? 2) || (word_count <? 25) then
      if nonempty option_text && nonempty correct_text then
        [txt "penjelasan ini masih menyoroti " ++ option_text
         ++ txt " tanpa mengaitkannya dengan inti soal mengenai "
         ++ correct_text ++ txt "."]
      else if nonempty correct_text then
        [txt "penjelasan ini belum menunjukkan keterkaitan dengan tuntutan soal tentang "
         ++ correct_text ++ txt "."]
      else
        [txt "penjelasan perlu menyebutkan secara spesifik mengapa pilihan ini tidak memenuhi kebutuhan soal."]
    else [] in
  let enriched := cleaned_reason in
  let enriched :=
    match supplements with
    | [] => enriched
    | _ :: _ =>
        let enriched :=
          if nonempty enriched && negb (endswith (txt " ") enriched)
          then enriched ++ txt " " else enriched in
        enriched ++ join (txt " ") supplements
    end in
  strip enriched.

(** The normalization sequence of an incorrect-option reason (lines
    1055-1057): prefix stripping, option-echo stripping, enrichment. *)
Definition normalize_reason
  (option_text correct_text question_summary reason : text) : text :=
  let reason := _strip_reason_prefix reason in
  let reason := _strip_option_echo reason option_text in
  _enrich_reason option_text reason correct_text question_summary.

(** ** Formatting helpers *)

(** [_format_score]: the text of the float without trailing zeros. *)
Definition _format_score (score : option Q) : option text :=
  match score with
  | None => None
  | Some q =>
      let text := rstrip_chars (txt ".") (rstrip_chars (txt "0") (float_repr q)) in
      Some (match text with [] => txt "0" | _ :: _ => text end)
  end.

Definition _label_with_score
  (option_text : text) (score : option Q) (include_score : bool) : text :=
  let label := strip option_text in
  if include_score then
    match _format_score score with
    | Some ((_ :: _) as score_text) => label ++ txt " (" ++ score_text ++ txt ")"
    | _ => label
    end
  else label.

Definition _ensure_trailing_period (text : text) : Text.text :=
  match text with
  | [] => text
  | _ :: _ => if ends_sentence text then text else text ++ txt "."
  end.

(** The match of a backslash and [open], then lazily at least one character
    other than a newline, then a backslash and [close]; [seen] is the
    content read so far, reversed. *)
Fixpoint math_close (close : ascii) (seen : text) (s : text) : option nat :=
  match s with
  | [] => None
  | c :: s' =>
      if Ascii.eqb c LF then None
      else if Ascii.eqb c close then
        match seen with
        | b :: (_ :: _) =>
            if Ascii.eqb b BACKSLASH then Some (List.length seen + 3)
            else math_close close (c :: seen) s'
        | _ => math_close close (c :: seen) s'
        end
      else math_close close (c :: seen) s'
  end.

Definition match_math (open close : ascii) (s : text) : option nat :=
  match s with
  | b :: o :: s' =>
      if Ascii.eqb b BACKSLASH && Ascii.eqb o open then math_close close [] s'
      else None
  | _ => None
  end.

Definition math_span (matched : text) : text :=
  txt "<span class=" ++ quoted (txt "math-tex") ++ txt ">" ++ matched
  ++ txt "</span>".

Definition _wrap_math_tex (text : text) : Text.text :=
  match text with
  | [] => text
  | _ :: _ =>
      let wrapped := re_sub (match_math "(" ")") math_span text in
      re_sub (match_math "[" "]") math_span wrapped
  end.

(** [^\s*<p[^>]*>] under [re.IGNORECASE], removed when it matches. *)
Definition drop_leading_p (s : text) : text :=
  let r := dropwhile is_space s in
  if ci_startswith (txt "<p") r then
    match find_char ">" (skipn 2 r) with
    | Some k => skipn (k + 3) r
    | None => s
    end
  else s.

(** [</p>\s*$] under [re.IGNORECASE]. *)
Definition match_closing_p (s : text) : option nat :=
  if ci_startswith (txt "</p>") s && forallb is_space (skipn 4 s)
  then Some (List.length s) else None.

(** [</?span[^>]*>] under [re.IGNORECASE]. *)
Definition match_span (s : text) : option nat :=
  let after :=
    if ci_startswith (txt "</span") s then Some 6
    else if ci_startswith (txt "<span") s then Some 5
    else None in
  match after with
  | Some n =>
      match find_char ">" (skipn n s) with
      | Some k => Some (n + k + 1)
      | None => None
      end
  | None => None
  end.

(** [<br\s*/?>] under [re.IGNORECASE]. *)
Definition match_br (s : text) : option nat :=
  if ci_startswith (txt "<br") s then
    let ws := List.length (takewhile is_space (skipn 3 s)) in
    match skipn (3 + ws) s with
    | c :: r =>
        if Ascii.eqb c ">" then Some (3 + ws + 1)
        else if Ascii.eqb c "/" then
          match r with
          | d :: _ => if Ascii.eqb d ">" then Some (3 + ws + 2) else None
          | [] => None
          end
        else None
    | [] => None
    end
  else None.

(** The line boundaries of [str.splitlines] on Latin-1. *)
Definition is_linebreak (c : ascii) : bool :=
  in_range 10 13 c || in_range 28 30 c || (code c =? 133).

Definition _split_numeric_paragraphs (text : text) : list Text.text :=
  let cleaned := strip text in
  let cleaned := drop_leading_p cleaned in
  let cleaned := re_sub match_closing_p (fun _ => []) cleaned in
  let cleaned := re_sub match_span (fun _ => []) cleaned in
  let cleaned := re_sub match_br (fun _ => [LF]) cleaned in
  let parts := map strip (split_on is_linebreak cleaned) in
  filter nonempty parts.

Definition _truncate_text (text : text) (limit : nat) : Text.text :=
  if List.length text <=? limit then text
  else firstn limit text ++ [LF] ++ txt "... (dipotong)".

Definition _format_paragraph (text : text) (styled : bool) : Text.text :=
  if styled then
    txt "<p style=" ++ quoted (txt "text-align:justify") ++ txt ">" ++ text
    ++ txt "</p>"
  else txt "<p>" ++ text ++ txt "</p>".

(** The loop of [_dedupe_paragraphs]; [seen] holds the normalized texts. *)
Fixpoint dedupe_paragraphs_from (seen : list text) (paragraphs : list text)
  : list text :=
  match paragraphs with
  | [] => []
  | paragraph :: rest =>
      let text := strip paragraph in
      match text with
      | [] => dedupe_paragraphs_from seen rest
      | _ :: _ =>
          let normalized := strip (collapse_ws text) in
          if mem_text normalized seen then dedupe_paragraphs_from seen rest
          else text :: dedupe_paragraphs_from (normalized :: seen) rest
      end
  end.

Definition _dedupe_paragraphs (paragraphs : list text) : list text :=
  dedupe_paragraphs_from [] paragraphs.

(** [str(v)] of a decoded value. *)
Definition py_str (v : json) : text :=
  match v with
  | JNull => txt "None"
  | JBool true => txt "True"
  | JBool false => txt "False"
  | JNumber _ shown => shown
  | JString s => s
  | JArray _ => container_repr v
  | JObject _ => container_repr v
  end.

Definition _normalize_detail_paragraphs (value : json) : result (list text) :=
  let paragraphs :=
    match value with
    | JString _ => Ok [value]
    | JNull => Ok []
    | JArray items => Ok items
    | JObject fields => Ok (map (fun kv => JString (fst kv)) fields)
    | JBool _ => Raise TypeError
    | JNumber _ _ => Raise TypeError
    end in
  match paragraphs with
  | Ok items =>
      Ok (map (fun item => strip (py_str item))
              (filter (fun item => nonempty (strip (py_str item))) items))
  | Raise e => Raise e
  end.

(** ** The result document *)

(** [^jawaban yang tepat[\s:,-]*] under [re.IGNORECASE], removed when it
    matches. *)
Definition drop_answer_heading (s : text) : text :=
  if ci_startswith (txt "jawaban yang tepat") s then
    dropwhile (fun c => is_space c || mem_char c (txt ":,-")) (skipn 18 s)
  else s.

(** The first option text equal to [lowered] without regard to case. *)
Fixpoint find_option_ci (lowered : text) (option_map : list text) : option text :=
  match option_map with
  | [] => None
  | text :: rest =>
      if nonempty text && teqb (lower text) lowered then Some text
      else find_option_ci lowered rest
  end.

(** [s[0].upper() + s[1:]]. *)
Definition capitalize_first (s : text) : text :=
  match s with
  | [] => []
  | c :: s' => upper_char c ++ s'
  end.

Definition restates_heading (lowered : text) : bool :=
  startswith (txt "jawaban yang tepat") lowered
  || startswith (txt "jawaban yang kurang tepat") lowered
  || startswith (txt "- opsi") lowered
  || startswith (txt "opsi") lowered
  || startswith (txt "- pilihan") lowered
  || startswith (txt "- ") lowered.

(** The fragments that one detail paragraph adds to [html_parts]. *)
Definition detail_fragments
  (is_tiu_numerik is_verbal_analitis : bool) (paragraph : text) : list text :=
  let raw_paragraph := strip paragraph in
  match raw_paragraph with
  | [] => []
  | _ :: _ =>
      if is_verbal_analitis && contains (txt "<table") (lower raw_paragraph)
      then [raw_paragraph]
      else
        let plain_check := _sanitize_text raw_paragraph in
        match plain_check with
        | [] => []
        | _ :: _ =>
            if restates_heading (lower plain_check) then []
            else if is_tiu_numerik then
              map (fun part => _format_paragraph (_wrap_math_tex part) true)
                  (_split_numeric_paragraphs raw_paragraph)
            else [_format_paragraph plain_check true]
        end
  end.

(** One emitted incorrect-option fragment: the option label and the reason
    that follows it. *)
Record IncorrectEntry := {
  entry_label : text;
  entry_reason : text
}.

(** The body of the loop over [incorrect_indices] for one index; [None] is
    an index passed over by [continue]. *)
Definition incorrect_entry
  (option_map : list text) (option_scores : list (option Q))
  (include_scores : bool) (main_option question_summary : text)
  (incorrect_reasons : json) (idx : nat) : result (option IncorrectEntry) :=
  if List.length option_map <=? idx then Ok None
  else
    let option_text := nth idx option_map [] in
    match option_text with
    | [] => Ok None
    | _ :: _ =>
        if nonempty main_option
           && teqb (lower (strip option_text)) (lower (strip main_option))
        then Ok None
        else
          match dict_get incorrect_reasons (nat_text (idx + 1)) (JString []) with
          | Raise e => Raise e
          | Ok found =>
              let reason := strip (py_str found) in
              let reason := _sanitize_text reason in
              let reason :=
                normalize_reason option_text main_option question_summary
                                 reason in
              let reason :=
                match reason with
                | [] => reason
                | _ :: _ =>
                    let preserve_tokens :=
                      _extract_proper_tokens [option_text; main_option] in
                    _normalize_reason_capital reason preserve_tokens
                end in
              let option_score :=
                if idx <? List.length option_scores
                then nth idx option_scores None else None in
              let option_label :=
                _label_with_score option_text option_score include_scores in
              Ok (Some {| entry_label := option_label; entry_reason := reason |})
          end
    end.

Fixpoint incorrect_entries
  (option_map : list text) (option_scores : list (option Q))
  (include_scores : bool) (main_option question_summary : text)
  (incorrect_reasons : json) (incorrect_indices : list nat)
  : result (list IncorrectEntry) :=
  match incorrect_indices with
  | [] => Ok []
  | idx :: rest =>
      match incorrect_entry option_map option_scores include_scores
              main_option question_summary incorrect_reasons idx with
      | Raise e => Raise e
      | Ok entry =>
          match incorrect_entries option_map option_scores include_scores
                  main_option question_summary incorrect_reasons rest with
          | Raise e => Raise e
          | Ok entries =>
              Ok (match entry with
                  | Some e => e :: entries
                  | None => entries
                  end)
          end
      end
  end.

Definition incorrect_fragment (e : IncorrectEntry) : text :=
  _format_paragraph
    (txt "- <strong>" ++ entry_label e ++ txt ":</strong> " ++ entry_reason e)
    true.

Definition incorrect_header : text :=
  _format_paragraph (txt "<strong>Jawaban yang kurang tepat:</strong>") true.

(** What the row body computes before the incorrect-option section: the
    fragments so far and the primary option text. *)
Record CorrectPart := {
  part_fragments : list text;
  part_main_option : text
}.

Definition nonempty_list {A} (l : list A) : bool :=
  match l with [] => false | _ :: _ => true end.

(** The detail paragraphs, the filler explanation and the table, added
    after the correct-answer line [heading]. *)
Definition finish_correct_part
  (heading : list text) (detail_paragraphs : list text) (table_html : text)
  (main_option : text) (is_tiu_numerik is_verbal_analitis : bool)
  : CorrectPart :=
  let details :=
    flat_map (detail_fragments is_tiu_numerik is_verbal_analitis)
             detail_paragraphs in
  let filler :=
    if nonempty main_option && negb (nonempty_list details)
       && negb is_tiu_numerik && negb is_verbal_analitis
    then
      [_format_paragraph
         (main_option
          ++ txt " mencerminkan penghormatan terhadap seni dan budaya lokal. "
          ++ txt "Jelaskan bagaimana unsur-unsur budaya dalam opsi tersebut muncul pada konteks soal.")
         true]
    else [] in
  let table :=
    if is_verbal_analitis then
      if nonempty table_html && contains (txt "<table") (lower table_html)
      then [table_html] else []
    else [] in
  {| part_fragments := heading ++ details ++ filler ++ table;
     part_main_option := main_option |}.

Definition correct_part
  (data_summary : text) (detail_paragraphs : list text) (table_html : text)
  (option_map : list text) (correct_indices : list nat)
  (option_scores : list (option Q))
  (include_scores is_tiu_numerik is_verbal_analitis : bool) : CorrectPart :=
  let correct_summary := data_summary in
  let correct_summary :=
    match correct_summary, correct_indices with
    | [], first_idx :: _ =>
        if first_idx <? List.length option_map
        then nth first_idx option_map [] else correct_summary
    | _, _ => correct_summary
    end in
  let main_option :=
    match correct_indices with
    | idx0 :: _ =>
        if idx0 <? List.length option_map
        then strip (nth idx0 option_map []) else []
    | [] => []
    end in
  let main_score :=
    match correct_indices with
    | idx0 :: _ =>
        if (idx0 <? List.length option_map)
           && (idx0 <? List.length option_scores)
        then nth idx0 option_scores None else None
    | [] => None
    end in
  if nonempty correct_summary || nonempty main_option then
    let correct_text := _sanitize_text correct_summary in
    let correct_text := strip (drop_answer_heading correct_text) in
    let main_option :=
      if negb (nonempty main_option) && nonempty correct_text then
        match find_option_ci (lower correct_text) option_map with
        | Some text => text
        | None => main_option
        end
      else main_option in
    let primary_text :=
      if nonempty main_option then main_option else correct_text in
    let explanation_core :=
      if nonempty main_option then _strip_option_echo correct_text main_option
      else [] in
    let primary_text := strip primary_text in
    let explanation_core := strip explanation_core in
    let explanation_core :=
      if nonempty explanation_core
         && teqb (lower explanation_core) (lower primary_text)
      then [] else explanation_core in
    let heading :=
      match primary_text with
      | [] => []
      | _ :: _ =>
          let primary_label :=
            _label_with_score primary_text main_score include_scores in
          let correct_line := txt "Jawaban yang tepat: " ++ primary_label in
          let correct_line :=
            if negb is_tiu_numerik then _ensure_trailing_period correct_line
            else correct_line in
          let correct_line :=
            if is_tiu_numerik then _wrap_math_tex correct_line
            else correct_line in
          [_format_paragraph
             (txt "<strong>" ++ correct_line ++ txt "</strong>") true]
      end in
    let detail_paragraphs :=
      if nonempty explanation_core && negb (nonempty_list detail_paragraphs)
      then
        let explanation_sentence := strip explanation_core in
        match explanation_sentence with
        | [] => detail_paragraphs
        | _ :: _ =>
            let explanation_sentence := capitalize_first explanation_sentence in
            let explanation_sentence :=
              if ends_sentence explanation_sentence then explanation_sentence
              else explanation_sentence ++ txt "." in
            [explanation_sentence]
        end
      else detail_paragraphs in
    finish_correct_part heading detail_paragraphs table_html main_option
      is_tiu_numerik is_verbal_analitis
  else
    finish_correct_part [] detail_paragraphs table_html main_option
      is_tiu_numerik is_verbal_analitis.

(** Lines 917-1067 of [generate_ai_explanations]: the document written
    for a row, from the decoded reply [data]. *)
Definition assemble
  (data : json) (option_map : list text)
  (correct_indices incorrect_indices : list nat)
  (option_scores : list (option Q))
  (include_scores is_tiu_numerik is_verbal_analitis : bool)
  (question_summary : text) : result text :=
  let include_incorrect := negb is_tiu_numerik in
  let? summary := dict_get data (txt "correct_summary") (JString []) in
  let correct_summary := strip (py_str summary) in
  let? detail_value := dict_get data (txt "detail_paragraphs") JNull in
  let? detail_paragraphs := _normalize_detail_paragraphs detail_value in
  let? reasons_value := dict_get data (txt "incorrect_reasons") JNull in
  let incorrect_reasons :=
    if truthy reasons_value then reasons_value else JObject [] in
  let detail_paragraphs :=
    if is_tiu_numerik then _dedupe_paragraphs detail_paragraphs
    else detail_paragraphs in
  let? table_value := dict_get data (txt "table_html") (JString []) in
  let table_html := strip (py_str table_value) in
  let part :=
    correct_part correct_summary detail_paragraphs table_html option_map
      correct_indices option_scores include_scores is_tiu_numerik
      is_verbal_analitis in
  if nonempty_list incorrect_indices && include_incorrect then
    let? entries :=
      incorrect_entries option_map option_scores include_scores
        (part_main_option part) question_summary incorrect_reasons
        incorrect_indices in
    Ok (join [LF]
          (part_fragments part ++ incorrect_header
           :: map incorrect_fragment entries))
  else Ok (join [LF] (part_fragments part)).

(** ** Processing one row *)

Definition JSON_CONFIG : bool := true.
Definition NO_CONFIG : bool := false.

Definition call_model (c : Call) : M response :=
  fun log =>
    (match generate_content log c with
     | Some r => Ok r
     | None => Raise ModelError
     end,
     log ++ [c]).

(** One attempt at the model: the call with the JSON generation config
    and, when it raises, the call without it; then
    [(response.text or "").strip()]. *)
Definition ask (prompt : text) : M text :=
  response <-
    try_except
      (call_model {| call_prompt := prompt; call_json_mode := JSON_CONFIG |})
      (fun _ =>
         call_model {| call_prompt := prompt; call_json_mode := NO_CONFIG |}) ;;
  match response with
  | ResponseText t => ret (strip t)
  | ResponseNoText => ret []
  | ResponseTextRaises => raise ValueError
  end.

Definition FENCE : text := txt "```".

(** The removal of a code fence around the reply. *)
Definition unfence (raw_text : text) : text :=
  let raw_text := replace (FENCE ++ txt ",") FENCE raw_text in
  if startswith FENCE raw_text then
    let raw_text := strip raw_text in
    let raw_text :=
      if startswith (FENCE ++ txt "json") raw_text then skipn 7 raw_text
      else raw_text in
    strip (strip_chars (txt "`") raw_text)
  else raw_text.

Definition retry_suffix : text :=
  [LF; LF] ++ txt "PERBAIKI: Outputkan JSON valid dan minimal "
  ++ nat_text MIN_NUMERIC_PARAGRAPHS ++ txt " detail_paragraphs yang berbeda.".

(** What happens to a row. *)
Inductive outcome :=
| Skipped (reason : text)              (* excluded category *)
| NoCorrectAnswer                      (* no correct option in the source data *)
| InvalidResponse (shown : option text)(* reply not parseable; raw reply shown *)
| Updated (explanation_text : text)    (* document written to the row *)
| Failed (e : exn).                    (* exception caught at the row boundary *)

(** The numeric-tiu check of the reply: with fewer than
    [MIN_NUMERIC_PARAGRAPHS] distinct paragraphs the model is asked once
    more; the new reply replaces the first one only when it parses. *)
Definition retry_if_thin (prompt : text) (data : json) : M json :=
  detail_value <- lift (dict_get data (txt "detail_paragraphs") JNull) ;;
  candidate_paragraphs <- lift (_normalize_detail_paragraphs detail_value) ;;
  let candidate_paragraphs := _dedupe_paragraphs candidate_paragraphs in
  if List.length candidate_paragraphs <? MIN_NUMERIC_PARAGRAPHS then
    let retry_prompt := prompt ++ retry_suffix in
    retry_text <- ask retry_prompt ;;
    retry_data <- lift (_parse_response (unfence retry_text)) ;;
    ret (if is_none retry_data then data else retry_data)
  else ret data.

(** The body of the [try] of the loop over rows, from the flags on: what
    is done with the prompt data and the scores of a row. *)
Definition explain_row (row : Row) (prompt_data : PromptData)
  (option_scores : list (option Q)) : M outcome :=
  let include_scores :=
    teqb (_normalize_label (get row "category")) (txt "tkp") in
  let is_tiu_numerik :=
    _is_tiu_numerik (get row "category") (get row "sub_category") in
  let is_verbal_analitis :=
    _is_verbal_analitis (get row "category") (get row "sub_category") in
  let correct_indices :=
    _order_indices (correct_indices prompt_data) option_scores
                   (option_map prompt_data) in
  let incorrect_indices :=
    _order_indices (incorrect_indices prompt_data) option_scores
                   (option_map prompt_data) in
  match correct_indices with
  | [] => ret NoCorrectAnswer
  | _ :: _ =>
      raw_text <- ask (prompt prompt_data) ;;
      let raw_text := unfence raw_text in
      data <- lift (_parse_response raw_text) ;;
      if is_none data then
        ret (InvalidResponse
               (if nonempty raw_text
                then Some (_truncate_text raw_text 4000) else None))
      else
        data <- (if is_tiu_numerik
                 then retry_if_thin (prompt prompt_data) data
                 else ret data) ;;
        explanation_text <-
          lift (assemble data (option_map prompt_data) correct_indices
                  incorrect_indices option_scores include_scores
                  is_tiu_numerik is_verbal_analitis
                  (question_summary prompt_data)) ;;
        ret (Updated explanation_text)
  end.

(** The body of the [try] of the loop over rows. *)
Definition row_body (row : Row) : M outcome :=
  match _should_skip_row (get row "category") (get row "sub_category") with
  | Some skip_reason => ret (Skipped skip_reason)
  | None =>
      prompt_data <- lift (build_prompt row) ;;
      option_scores <- lift (_extract_option_scores row) ;;
      explain_row row prompt_data option_scores
  end.

(** One iteration of the loop: the body under [except Exception]. *)
Definition process_row (row : Row) : M outcome :=
  try_except (row_body row) (fun e => ret (Failed e)).

(** ** The loop over the rows *)

(** [df.at[row_idx, col] = value]. *)
Definition set_cell (row : Row) (col : string) (value : cell) : Row :=
  (col, value) :: row.

Fixpoint set_row (df : list Row) (row_idx : nat) (row : Row) : list Row :=
  match df, row_idx with
  | [], _ => []
  | _ :: df', 0 => row :: df'
  | r :: df', S n => r :: set_row df' n row
  end.

(** The loop of [generate_ai_explanations], after the client has been set
    up: the data frame as it is left, and [updated_rows]. *)
Fixpoint generate_ai_explanations (df : list Row) (target_indices : list nat)
  : M (list Row * list nat) :=
  match target_indices with
  | [] => ret (df, [])
  | row_idx :: rest =>
      match nth_error df row_idx with
      | None => raise KeyError
      | Some row =>
          o <- process_row row ;;
          match o with
          | Updated explanation_text =>
              let df' :=
                set_row df row_idx
                  (set_cell row "explanation_ai" (CText explanation_text)) in
              r <- generate_ai_explanations df' rest ;;
              ret (fst r, row_idx :: snd r)
          | _ => generate_ai_explanations df rest
          end
      end
  end.

(** ** The order the specification states for an index list *)

Definition score_at (scores : list (option Q)) (idx : nat) : option Q :=
  nth idx scores None.

(** [ranks_before scores i j]: index [i] has the higher score, a missing
    score lying below every score, or the scores are equal and [i] is the
    earlier option. *)
Definition ranks_before (scores : list (option Q)) (i j : nat) : Prop :=
  match score_at scores i, score_at scores j with
  | Some a, Some b => (b < a)%Q \/ ((a == b)%Q /\ i < j)
  | Some _, None => True
  | None, Some _ => False
  | None, None => i < j
  end.

(** The numeric score of slot [j] of [OPTION_COLUMNS]: 0..4 are the options
    A..E, 5 is the "Pilihan" slot ([option_number_score]). *)
Definition slot_score (row : Row) (j : nat) : result (option Q) :=
  numeric_score row
    (snd (snd (nth j OPTION_COLUMNS (""%string, (""%string, ""%string))))).

(** ** The parse attempts as the specification lists them *)

(** The texts given to [json.loads], in order: the reply, the repaired
    reply and, when a '{' stands before the last '}', the text from the
    first '{' to the last '}' and its repair. *)
Definition parse_attempts (raw_text : text) : list text :=
  [raw_text; _repair_json_text raw_text]
  ++ match find_char "{" raw_text, rfind_char "}" raw_text with
     | Some start, Some end_ =>
         if start <? end_ then
           let candidate := slice start (end_ + 1) raw_text in
           [candidate; _repair_json_text candidate]
         else []
     | _, _ => []
     end.

(** [json.loads] refuses the attempt as malformed. *)
Definition malformed (attempt : text) : Prop :=
  json_loads attempt = Raise JSONDecodeError.

(** [first_outcome attempts r]: [r] is what [json.loads] gives on the first
    attempt that it does not refuse as malformed, a decoded value or an
    exception other than [JSONDecodeError]; [r] is [None] when it refuses
    every attempt. *)
Definition first_outcome (attempts : list text) (r : result json) : Prop :=
  (exists before a after,
     attempts = before ++ a :: after
     /\ Forall malformed before /\ ~ malformed a /\ r = json_loads a)
  \/ (Forall malformed attempts /\ r = Ok JNull).

(** No score cell of the row is an integer too large for a float: the
    conversion of each of the six slots returns. *)
Definition scores_convert (row : Row) : Prop :=
  forall j, j < 6 -> exists score, slot_score row j = Ok score.

(** ** Notions used in the proofs *)

(** [x] may stand before [y] in the sorted list: the key of [y] is not
    below the key of [x]. *)
Definition key_le (key : nat -> neg_score * nat) (x y : nat) : Prop :=
  key_ltb (key y) (key x) = false.

(** The length of the run of backslashes at the end of the text read. *)
Definition backslash_run (done : text) : nat :=
  List.length (takewhile (Ascii.eqb BACKSLASH) done).

(** [t] is empty or does not start with a character that [p] accepts. *)
Definition head_kept (p : ascii -> bool) (t : text) : Prop :=
  match t with
  | [] => True
  | c :: _ => p c = false
  end.

(** [part t s]: [t] is a contiguous part of [s]. *)
Definition part (t s : text) : Prop := exists a b, s = a ++ t ++ b.

(** A pattern piece answers with a part of its input. *)
Definition piece_ok (piece : text -> option text) : Prop :=
  forall s r, piece s = Some r -> part r s.

(** The first alphabetic character of [s] is an upper-case letter. *)
Definition first_letter_upper (s : text) : bool :=
  match dropwhile (fun c => negb (is_alpha c)) s with
  | c :: _ => is_upper c
  | [] => false
  end.

(** Every white-space character of [s] is a space that stands alone;
    [after_space] tells whether a space stands right before [s]. *)
Fixpoint single_spaced_from (after_space : bool) (s : text) : Prop :=
  match s with
  | [] => True
  | c :: s' =>
      if is_space c then
        c = " "%char /\ after_space = false /\ single_spaced_from true s'
      else single_spaced_from false s'
  end.

(** The pattern behind [m] matches at no position of [s]. *)
Fixpoint unmatched (m : text -> option nat) (s : text) : Prop :=
  match s with
  | [] => True
  | _ :: r => m s = None /\ unmatched m r
  end.

(** What [_dedupe_paragraphs] compares: the text with its white space
    collapsed. *)
Definition normalized_paragraph (t : text) : text := strip (collapse_ws t).

(** A pattern piece that consumes at least one character. *)
Definition piece_shrinks (piece : text -> option text) : Prop :=
  forall s r, piece s = Some r -> List.length r < List.length s.

(** The value of a computation that returned, [default] otherwise. *)
Definition value_or {A} (default : A) (r : result A) : A :=
  match r with
  | Ok a => a
  | Raise _ => default
  end.

(* ================================================================== *)
(** * Properties *)
(* ================================================================== *)

(** [tauto] and [intuition] treat a function among the section variables
    as an implication; these variants put such variables aside first. *)
Ltac hide_functions :=
  repeat match goal with
  | f : ?A -> ?B |- _ =>
      lazymatch type of (A -> B) with
      | Prop => fail
      | _ => clear f
      end
  end.

Ltac ptauto := hide_functions; tauto.

Tactic Notation "pintuition" := hide_functions; intuition.
Tactic Notation "pintuition" tactic(t) := hide_functions; intuition t.

(** ** Basic facts about text and index lists *)

Lemma teqb_eq (a b : text) : teqb a b = true <-> a = b.
Proof.
  revert b; induction a as [|x a IH]; intros [|y b]; simpl; split; intro H;
    try reflexivity; try discriminate.
  - apply andb_prop in H as [Hx Hr]. apply Ascii.eqb_eq in Hx.
    apply IH in Hr. congruence.
  - injection H as -> ->. rewrite Ascii.eqb_refl. simpl. now apply IH.
Qed.

Lemma teqb_refl (a : text) : teqb a a = true.
Proof. now apply teqb_eq. Qed.

Lemma teqb_neq (a b : text) : teqb a b = false <-> a <> b.
Proof.
  split.
  - intros H E. apply teqb_eq in E. congruence.
  - intro H. destruct (teqb a b) eqn:E; [|reflexivity].
    apply teqb_eq in E. contradiction.
Qed.

Lemma mem_nat_In (n : nat) (l : list nat) : mem_nat n l = true <-> In n l.
Proof.
  unfold mem_nat. rewrite existsb_exists. split.
  - intros [x [Hin Hx]]. apply Nat.eqb_eq in Hx. now subst.
  - intro H. exists n. split; [assumption | apply Nat.eqb_refl].
Qed.

Lemma mem_nat_notIn (n : nat) (l : list nat) : mem_nat n l = false <-> ~ In n l.
Proof.
  rewrite <- mem_nat_In. destruct (mem_nat n l); split; congruence.
Qed.

Lemma has_text_spec (om : list text) (idx : nat) :
  has_text om idx = true <-> idx < List.length om /\ nth idx om [] <> [].
Proof.
  unfold has_text. rewrite andb_true_iff, Nat.ltb_lt, negb_true_iff, teqb_neq.
  ptauto.
Qed.

(** ** [_order_indices]: membership *)

Lemma insert_by_In key x l y :
  In y (insert_by key x l) <-> y = x \/ In y l.
Proof.
  induction l as [|z l IH]; simpl.
  - pintuition.
  - destruct (key_ltb (key z) (key x)); simpl; rewrite ?IH; pintuition.
Qed.

Lemma sorted_by_In key l y : In y (sorted_by key l) <-> In y l.
Proof.
  induction l as [|x l IH]; simpl.
  - ptauto.
  - rewrite insert_by_In, IH. pintuition.
Qed.

Lemma order_filter_In indices om seen j :
  In j (order_filter indices om seen) ->
  In j indices /\ has_text om j = true /\ ~ In j seen.
Proof.
  revert seen; induction indices as [|i rest IH]; intros seen; simpl.
  - ptauto.
  - destruct (mem_nat i seen) eqn:Hseen; simpl.
    + intro H. apply IH in H. ptauto.
    + destruct (List.length om <=? i) eqn:Hlen; simpl.
      * intro H. apply IH in H. ptauto.
      * destruct (teqb (nth i om []) []) eqn:Hemp.
        -- intro H. apply IH in H. ptauto.
        -- simpl. intros [<- | H].
           ++ split; [now left|]. split.
              ** apply has_text_spec. apply Nat.leb_gt in Hlen.
                 apply teqb_neq in Hemp. ptauto.
              ** now apply mem_nat_notIn.
           ++ apply IH in H. simpl in H. ptauto.
Qed.

Lemma order_filter_NoDup indices om seen :
  NoDup (order_filter indices om seen).
Proof.
  revert seen; induction indices as [|i rest IH]; intros seen; simpl.
  - constructor.
  - destruct (mem_nat i seen || (List.length om <=? i)); [apply IH|].
    destruct (teqb (nth i om []) []); [apply IH|].
    constructor; [|apply IH].
    intro H. apply order_filter_In in H. simpl in H. ptauto.
Qed.

Lemma order_indices_In indices scores om j :
  In j (_order_indices indices scores om) ->
  In j indices /\ j < List.length om /\ nth j om [] <> [].
Proof.
  unfold _order_indices. rewrite sorted_by_In. intro H.
  apply order_filter_In in H. rewrite has_text_spec in H. ptauto.
Qed.

Lemma incorrect_of_In correct om j :
  In j (incorrect_of correct om) <->
  j < List.length om /\ ~ In j correct /\ nth j om [] <> [].
Proof.
  unfold incorrect_of. rewrite filter_In, in_seq, andb_true_iff,
    negb_true_iff, mem_nat_notIn, has_text_spec. simpl.
  split; [ptauto | pintuition lia].
Qed.

(** ** Loops that an exception may leave *)

Lemma map_result_all {A B} (f : A -> result B) (g : A -> B) (l : list A) :
  (forall a, In a l -> f a = Ok (g a)) -> map_result f l = Ok (map g l).
Proof.
  induction l as [|a l IH]; intro H; cbn [map_result map]; [reflexivity|].
  rewrite (H a) by now left. cbn [bind_result].
  rewrite IH by (intros b Hb; apply H; now right). reflexivity.
Qed.

Lemma map_result_ok {A B} (f : A -> result B) (l : list A) (r : list B) :
  map_result f l = Ok r -> forall a, In a l -> exists b, f a = Ok b.
Proof.
  revert r. induction l as [|x l IH]; intros r H a Ha; [contradiction|].
  cbn [map_result] in H. destruct (f x) as [b|e] eqn:Ex; [|discriminate].
  cbn [bind_result] in H.
  destruct (map_result f l) as [bs|e] eqn:El; [|discriminate].
  destruct Ha as [<- | Ha]; [now exists b | now apply (IH bs)].
Qed.

Lemma map_result_raise {A B} (f : A -> result B) (l : list A) (e : exn) :
  map_result f l = Raise e -> exists a, In a l /\ f a = Raise e.
Proof.
  induction l as [|x l IH]; intro H; [discriminate|].
  cbn [map_result] in H. destruct (f x) as [b|e'] eqn:Ex.
  - cbn [bind_result] in H.
    destruct (map_result f l) as [bs|e''] eqn:El; [discriminate|].
    cbn [bind_result] in H. injection H as ->.
    destruct (IH eq_refl) as [a [Ha Hf]]. exists a. split; [now right | exact Hf].
  - cbn [bind_result] in H. injection H as ->. exists x. split; [now left | exact Ex].
Qed.

Lemma flat_map_result_all {A B} (f : A -> result (list B)) (g : A -> list B)
  (l : list A) :
  (forall a, In a l -> f a = Ok (g a)) ->
  flat_map_result f l = Ok (flat_map g l).
Proof.
  induction l as [|a l IH]; intro H; cbn [flat_map_result flat_map];
    [reflexivity|].
  rewrite (H a) by now left. cbn [bind_result].
  rewrite IH by (intros b Hb; apply H; now right). reflexivity.
Qed.

Lemma flat_map_result_ok {A B} (f : A -> result (list B)) (l : list A)
  (r : list B) :
  flat_map_result f l = Ok r -> forall a, In a l -> exists bs, f a = Ok bs.
Proof.
  revert r. induction l as [|x l IH]; intros r H a Ha; [contradiction|].
  cbn [flat_map_result] in H. destruct (f x) as [b|e] eqn:Ex; [|discriminate].
  cbn [bind_result] in H.
  destruct (flat_map_result f l) as [bs|e] eqn:El; [|discriminate].
  destruct Ha as [<- | Ha]; [now exists b | now apply (IH bs)].
Qed.

Lemma flat_map_result_raise {A B} (f : A -> result (list B)) (l : list A)
  (e : exn) :
  flat_map_result f l = Raise e -> exists a, In a l /\ f a = Raise e.
Proof.
  induction l as [|x l IH]; intro H; [discriminate|].
  cbn [flat_map_result] in H. destruct (f x) as [b|e'] eqn:Ex.
  - cbn [bind_result] in H.
    destruct (flat_map_result f l) as [bs|e''] eqn:El; [discriminate|].
    cbn [bind_result] in H. injection H as ->.
    destruct (IH eq_refl) as [a [Ha Hf]]. exists a. split; [now right | exact Hf].
  - cbn [bind_result] in H. injection H as ->. exists x. split; [now left | exact Ex].
Qed.

(** ** The conversion of a score cell *)

Lemma float_of_int_raise z e : float_of_int z = Raise e -> e = OverflowError.
Proof.
  unfold float_of_int. cbv zeta.
  destruct (Z.abs (nearest_double z) <? 2 ^ 1024)%Z; [discriminate|].
  intro H. now injection H as <-.
Qed.

Lemma cell_float_raise c e : cell_float c = Raise e -> e = OverflowError.
Proof.
  destruct c as [| |z|q|s]; cbn [cell_float]; try discriminate.
  destruct (float_of_int z) as [v|e'] eqn:E; cbn [bind_result]; [discriminate|].
  intro H. injection H as <-. now apply float_of_int_raise in E.
Qed.

Lemma numeric_score_raise row col e :
  numeric_score row col = Raise e -> e = OverflowError.
Proof.
  unfold numeric_score. cbv zeta. destruct (isna _); [discriminate|].
  apply cell_float_raise.
Qed.

Lemma slot_score_raise row j e : slot_score row j = Raise e -> e = OverflowError.
Proof. apply numeric_score_raise. Qed.

Lemma option_text_labels : OPTION_TEXT_LABELS = ["A"; "B"; "C"; "D"; "E"]%string.
Proof. reflexivity. Qed.

Lemma extract_option_scores_ok row scores :
  _extract_option_scores row = Ok scores ->
  List.length scores = 5
  /\ forall j, j < 5 -> slot_score row j = Ok (nth j scores None).
Proof.
  unfold _extract_option_scores. rewrite option_text_labels.
  cbn [map_result columns_of OPTION_COLUMNS String.eqb Ascii.eqb Bool.eqb snd].
  destruct (numeric_score row "option_a_score") as [a|?] eqn:Ea;
    cbn [bind_result]; [|discriminate].
  destruct (numeric_score row "option_b_score") as [b|?] eqn:Eb;
    cbn [bind_result]; [|discriminate].
  destruct (numeric_score row "option_c_score") as [c|?] eqn:Ec;
    cbn [bind_result]; [|discriminate].
  destruct (numeric_score row "option_d_score") as [d|?] eqn:Ed;
    cbn [bind_result]; [|discriminate].
  destruct (numeric_score row "option_e_score") as [e|?] eqn:Ee;
    cbn [bind_result]; [|discriminate].
  intro H. injection H as <-. split; [reflexivity|].
  intros j Hj. unfold slot_score.
  do 5 (destruct j as [|j]; [assumption|]). lia.
Qed.

Lemma extract_option_scores_returns row :
  scores_convert row -> exists scores, _extract_option_scores row = Ok scores.
Proof.
  intro H. unfold _extract_option_scores. rewrite option_text_labels.
  cbn [map_result columns_of OPTION_COLUMNS String.eqb Ascii.eqb Bool.eqb snd].
  destruct (H 0 ltac:(lia)) as [a Ha]. destruct (H 1 ltac:(lia)) as [b Hb].
  destruct (H 2 ltac:(lia)) as [c Hc]. destruct (H 3 ltac:(lia)) as [d Hd].
  destruct (H 4 ltac:(lia)) as [e He].
  unfold slot_score in *. cbn [nth OPTION_COLUMNS snd] in *.
  rewrite Ha, Hb, Hc, Hd, He. cbn [bind_result]. eexists. reflexivity.
Qed.

(** ** [build_prompt] and the ordered lists, when they return *)

Lemma build_prompt_with row inferred :
  _infer_correct_indices row (build_option_map row) = Ok inferred ->
  exists p,
    build_prompt row = Ok p
    /\ option_map p = build_option_map row
    /\ correct_indices p = textful_first inferred (build_option_map row)
    /\ incorrect_indices p
       = incorrect_of (textful_first inferred (build_option_map row))
                      (build_option_map row).
Proof.
  intro H. unfold build_prompt. cbv zeta. rewrite H. cbn [bind_result].
  eexists. split; [reflexivity|].
  cbn [option_map correct_indices incorrect_indices]. repeat split.
Qed.

Lemma build_prompt_raise row e :
  _infer_correct_indices row (build_option_map row) = Raise e ->
  build_prompt row = Raise e.
Proof. intro H. unfold build_prompt. cbv zeta. now rewrite H. Qed.

Lemma build_prompt_ok row p :
  build_prompt row = Ok p ->
  exists inferred,
    _infer_correct_indices row (option_map p) = Ok inferred
    /\ option_map p = build_option_map row
    /\ List.length (option_map p) = 5
    /\ correct_indices p = textful_first inferred (option_map p)
    /\ incorrect_indices p = incorrect_of (correct_indices p) (option_map p).
Proof.
  intro Hp.
  destruct (_infer_correct_indices row (build_option_map row))
    as [inferred|e] eqn:E.
  - destruct (@build_prompt_with row _ E) as [p' [Hp' [Hom [Hc Hi]]]].
    assert (p' = p) by congruence. subst p'.
    exists inferred. rewrite Hom, Hc, Hi. repeat split. exact E.
  - rewrite (@build_prompt_raise row _ E) in Hp. discriminate.
Qed.

Lemma ordered_correct_ok row correct :
  ordered_correct row = Ok correct ->
  exists p scores,
    build_prompt row = Ok p
    /\ _extract_option_scores row = Ok scores
    /\ correct = _order_indices (correct_indices p) scores (option_map p).
Proof.
  unfold ordered_correct.
  destruct (build_prompt row) as [p|e]; cbn [bind_result]; [|discriminate].
  destruct (_extract_option_scores row) as [scores|e]; cbn [bind_result];
    [|discriminate].
  intro H. injection H as <-. now exists p, scores.
Qed.

Lemma ordered_incorrect_ok row incorrect :
  ordered_incorrect row = Ok incorrect ->
  exists p scores,
    build_prompt row = Ok p
    /\ _extract_option_scores row = Ok scores
    /\ incorrect = _order_indices (incorrect_indices p) scores (option_map p).
Proof.
  unfold ordered_incorrect.
  destruct (build_prompt row) as [p|e]; cbn [bind_result]; [|discriminate].
  destruct (_extract_option_scores row) as [scores|e]; cbn [bind_result];
    [|discriminate].
  intro H. injection H as <-. now exists p, scores.
Qed.

(** C2.  For every row for which the lists are inferred, the correct and
    the incorrect index list that the pipeline works with (those of
    [build_prompt], filtered and ordered by [_order_indices]) have no index
    in common, and every index in either list is one of the five option
    slots and has a non-empty option text. *)
Theorem index_lists_disjoint_and_populated
  (row : Row) (p : PromptData) (correct incorrect : list nat) :
  build_prompt row = Ok p ->
  ordered_correct row = Ok correct ->
  ordered_incorrect row = Ok incorrect ->
  let om := option_map p in
  (forall j, In j correct -> ~ In j incorrect)
  /\ (forall j, In j correct -> j < 5 /\ nth j om [] <> [])
  /\ (forall j, In j incorrect -> j < 5 /\ nth j om [] <> []).
Proof.
  intros Hp Hc Hi om. subst om.
  apply ordered_correct_ok in Hc as [p1 [scores1 [Hp1 [_ ->]]]].
  apply ordered_incorrect_ok in Hi as [p2 [scores2 [Hp2 [_ ->]]]].
  assert (p1 = p) by congruence. assert (p2 = p) by congruence. subst p1 p2.
  destruct (@build_prompt_ok row p Hp) as [inferred [_ [_ [Hlen [_ Hinc]]]]].
  split; [|split].
  - intros j Hc Hi.
    apply order_indices_In in Hc as [Hc _].
    apply order_indices_In in Hi as [Hi _].
    rewrite Hinc in Hi. apply incorrect_of_In in Hi. ptauto.
  - intros j Hc. apply order_indices_In in Hc as [_ [Hlt Htext]].
    split; [lia | exact Htext].
  - intros j Hi. apply order_indices_In in Hi as [_ [Hlt Htext]].
    split; [lia | exact Htext].
Qed.

(** ** [_order_indices]: order *)

Lemma score_sort_key_eq idx scores :
  _score_sort_key idx scores =
  (match score_at scores idx with
   | Some s => Finite (- s)
   | None => PlusInf
   end, idx).
Proof.
  unfold _score_sort_key, score_at.
  destruct (idx <? List.length scores) eqn:H; [reflexivity|].
  apply Nat.ltb_ge in H. now rewrite nth_overflow.
Qed.

Ltac q_bools :=
  repeat match goal with
  | H : Qeq_bool _ _ = true |- _ => apply Qeq_bool_iff in H
  | H : Qeq_bool _ _ = false |- _ => apply Qeq_bool_neq in H
  | H : Qle_bool _ _ = true |- _ => apply Qle_bool_iff in H
  | H : Qle_bool ?a ?b = false |- _ =>
      assert (~ (a <= b)%Q)
        by (rewrite <- Qle_bool_iff; rewrite H; discriminate);
      clear H
  | H : negb _ = true |- _ => apply negb_true_iff in H
  | H : negb _ = false |- _ => apply negb_false_iff in H
  | H : (_ <? _) = true |- _ => apply Nat.ltb_lt in H
  | H : (_ <? _) = false |- _ => apply Nat.ltb_ge in H
  end.

Ltac q_cases :=
  repeat match goal with
  | |- context [Qeq_bool ?a ?b] => destruct (Qeq_bool a b) eqn:?
  | |- context [Qle_bool ?a ?b] => destruct (Qle_bool a b) eqn:?
  | H : context [Qeq_bool ?a ?b] |- _ =>
      lazymatch type of H with
      | Qeq_bool a b = _ => fail
      | _ => destruct (Qeq_bool a b) eqn:?
      end
  | H : context [Qle_bool ?a ?b] |- _ =>
      lazymatch type of H with
      | Qle_bool a b = _ => fail
      | _ => destruct (Qle_bool a b) eqn:?
      end
  end.

Lemma key_ltb_asym k1 k2 : key_ltb k1 k2 = true -> key_ltb k2 k1 = false.
Proof.
  destruct k1 as [[a|] i], k2 as [[b|] j]; unfold key_ltb; simpl;
    intros H; try discriminate; try reflexivity.
  - q_cases; simpl in *; q_bools; try reflexivity; try discriminate;
      try (apply Nat.ltb_ge; lia); try (exfalso; lra).
  - q_bools. apply Nat.ltb_ge. lia.
Qed.

Lemma key_ltb_false_trans k1 k2 k3 :
  key_ltb k2 k1 = false -> key_ltb k3 k2 = false -> key_ltb k3 k1 = false.
Proof.
  destruct k1 as [[a|] i], k2 as [[b|] j], k3 as [[c|] k];
    unfold key_ltb; simpl; intros H1 H2; try discriminate; try reflexivity;
    q_cases; simpl in *; q_bools; try discriminate; try reflexivity;
    try (apply Nat.ltb_ge; lia); try (exfalso; lra).
Qed.

Lemma insert_by_sorted key x l :
  StronglySorted (key_le key) l ->
  StronglySorted (key_le key) (insert_by key x l).
Proof.
  induction 1 as [|y l Hs IH Hall]; simpl.
  - constructor; constructor.
  - destruct (key_ltb (key y) (key x)) eqn:Hyx.
    + constructor; [assumption|].
      apply Forall_forall. intros z Hz. apply insert_by_In in Hz as [-> | Hz].
      * unfold key_le. now apply key_ltb_asym.
      * rewrite Forall_forall in Hall. now apply Hall.
    + constructor; [now constructor|].
      constructor; [exact Hyx|].
      rewrite Forall_forall in *. intros z Hz. unfold key_le in *.
      eapply key_ltb_false_trans; [exact Hyx | now apply Hall].
Qed.

Lemma sorted_by_sorted key l : StronglySorted (key_le key) (sorted_by key l).
Proof.
  induction l as [|x l IH]; simpl; [constructor | now apply insert_by_sorted].
Qed.

Lemma insert_by_NoDup key x l :
  ~ In x l -> NoDup l -> NoDup (insert_by key x l).
Proof.
  induction l as [|y l IH]; simpl; intros Hx Hl.
  - constructor; [ptauto | constructor].
  - inversion Hl as [|? ? Hy Hl']; subst.
    destruct (key_ltb (key y) (key x)).
    + constructor; [|apply IH; ptauto].
      rewrite insert_by_In. pintuition congruence.
    + constructor; [simpl; ptauto | assumption].
Qed.

Lemma sorted_by_NoDup key l : NoDup l -> NoDup (sorted_by key l).
Proof.
  induction 1 as [|x l Hx Hl IH]; simpl; [constructor|].
  apply insert_by_NoDup; [now rewrite sorted_by_In | assumption].
Qed.

Lemma key_le_ranks_before scores x y :
  x <> y ->
  key_le (fun idx => _score_sort_key idx scores) x y ->
  ranks_before scores x y.
Proof.
  unfold key_le, ranks_before. rewrite !score_sort_key_eq.
  destruct (score_at scores x) as [a|], (score_at scores y) as [b|];
    unfold key_ltb; simpl; intros Hne H; try discriminate; try exact I.
  - q_cases; simpl in *; q_bools; try discriminate;
      first [ left; lra | right; split; [lra | lia] ].
  - q_bools. lia.
Qed.

Lemma order_indices_sorted indices scores om :
  StronglySorted (ranks_before scores) (_order_indices indices scores om).
Proof.
  unfold _order_indices.
  set (key := fun idx => _score_sort_key idx scores).
  assert (Hs : StronglySorted (key_le key) (sorted_by key (order_filter indices om [])))
    by apply sorted_by_sorted.
  assert (Hn : NoDup (sorted_by key (order_filter indices om [])))
    by (apply sorted_by_NoDup, order_filter_NoDup).
  induction Hs as [|x l Hs IH Hall]; [constructor|].
  inversion Hn as [|? ? Hx Hl]; subst.
  constructor; [now apply IH|].
  rewrite Forall_forall in *. intros z Hz.
  apply key_le_ranks_before; [|now apply Hall].
  intros ->. contradiction.
Qed.

(** C3.  For every row for which the lists are inferred, each of the two
    index lists of the pipeline is in the stated order with respect to the
    scores that [_extract_option_scores] reads (the float of each score
    cell): an index stands before another one exactly when its score is
    higher (a missing score counting as minus infinity) or, the scores being
    equal, when it is the earlier option. *)
Theorem index_lists_in_score_order
  (row : Row) (scores : list (option Q)) (correct incorrect : list nat) :
  _extract_option_scores row = Ok scores ->
  ordered_correct row = Ok correct ->
  ordered_incorrect row = Ok incorrect ->
  StronglySorted (ranks_before scores) correct
  /\ StronglySorted (ranks_before scores) incorrect.
Proof.
  intros Hs Hc Hi.
  apply ordered_correct_ok in Hc as [p1 [scores1 [_ [Hs1 ->]]]].
  apply ordered_incorrect_ok in Hi as [p2 [scores2 [_ [Hs2 ->]]]].
  assert (scores1 = scores) by congruence.
  assert (scores2 = scores) by congruence. subst scores1 scores2.
  split; apply order_indices_sorted.
Qed.

(** ** Strategy 1 of [_infer_correct_indices] *)

Lemma scored_options_value row scored :
  scored_options row = Ok scored ->
  scores_convert row
  /\ scored
     = flat_map (fun j => match value_or None (slot_score row j) with
                          | Some v => [(j, v)]
                          | None => []
                          end)
                (seq 0 6).
Proof.
  unfold scored_options, enumerate.
  cbn [OPTION_COLUMNS List.length seq combine flat_map_result fst snd].
  destruct (numeric_score row "option_a_score") as [a|?] eqn:Ea;
    cbn [bind_result]; [|discriminate].
  destruct (numeric_score row "option_b_score") as [b|?] eqn:Eb;
    cbn [bind_result]; [|discriminate].
  destruct (numeric_score row "option_c_score") as [c|?] eqn:Ec;
    cbn [bind_result]; [|discriminate].
  destruct (numeric_score row "option_d_score") as [d|?] eqn:Ed;
    cbn [bind_result]; [|discriminate].
  destruct (numeric_score row "option_e_score") as [e|?] eqn:Ee;
    cbn [bind_result]; [|discriminate].
  destruct (numeric_score row "option_number_score") as [n|?] eqn:En;
    cbn [bind_result]; [|discriminate].
  intro H. injection H as <-. split.
  - intros j Hj. unfold slot_score.
    do 6 (destruct j as [|j];
          [cbn [nth OPTION_COLUMNS snd]; eexists; eassumption|]).
    lia.
  - cbn [seq flat_map]. unfold slot_score. cbn [nth OPTION_COLUMNS snd].
    rewrite Ea, Eb, Ec, Ed, Ee, En. reflexivity.
Qed.

Lemma flat_map_seq_fst (g : nat -> option Q) n len :
  let l := flat_map (fun j => match g j with
                              | Some v => [(j, v)]
                              | None => []
                              end) (seq n len) in
  NoDup (map fst l) /\ forall j, In j (map fst l) -> n <= j.
Proof.
  revert n. induction len as [|len IH]; intro n; cbn [seq flat_map].
  - split; [constructor | intros j []].
  - destruct (IH (S n)) as [Hnd Hge]. cbv zeta in *.
    destruct (g n); cbn [app map fst].
    + split.
      * constructor; [|exact Hnd]. intro H. apply Hge in H. lia.
      * intros j [<- | H]; [lia | apply Hge in H; lia].
    + split; [exact Hnd|]. intros j H. apply Hge in H. lia.
Qed.

Lemma scored_options_spec row scored j v :
  scored_options row = Ok scored ->
  (In (j, v) scored <-> j < 6 /\ slot_score row j = Ok (Some v)).
Proof.
  intro H. apply scored_options_value in H as [Hconv ->].
  rewrite in_flat_map. split.
  - intros [k [Hk Hin]]. apply in_seq in Hk.
    destruct (Hconv k ltac:(lia)) as [score Hs]. rewrite Hs in Hin.
    cbn [value_or] in Hin. destruct score as [w|]; [|contradiction].
    destruct Hin as [Hin | []]. injection Hin as <- <-.
    split; [lia | exact Hs].
  - intros [Hj Hs]. exists j. split; [apply in_seq; lia|].
    rewrite Hs. now left.
Qed.

Lemma scored_options_NoDup row scored :
  scored_options row = Ok scored -> NoDup (map fst scored).
Proof.
  intro H. apply scored_options_value in H as [_ ->].
  apply (flat_map_seq_fst (fun j => value_or None (slot_score row j)) 0 6).
Qed.

Lemma scored_options_returns row :
  scores_convert row -> exists scored, scored_options row = Ok scored.
Proof.
  intro H. unfold scored_options, enumerate.
  cbn [OPTION_COLUMNS List.length seq combine flat_map_result fst snd].
  destruct (H 0 ltac:(lia)) as [a Ha]. destruct (H 1 ltac:(lia)) as [b Hb].
  destruct (H 2 ltac:(lia)) as [c Hc]. destruct (H 3 ltac:(lia)) as [d Hd].
  destruct (H 4 ltac:(lia)) as [e He]. destruct (H 5 ltac:(lia)) as [n Hn].
  unfold slot_score in *. cbn [nth OPTION_COLUMNS snd] in *.
  rewrite Ha, Hb, Hc, Hd, He, Hn. cbn [bind_result]. eexists. reflexivity.
Qed.

Lemma scored_options_raise row e :
  scored_options row = Raise e ->
  e = OverflowError /\ exists j, j < 6 /\ slot_score row j = Raise OverflowError.
Proof.
  intro H. unfold scored_options in H.
  apply flat_map_result_raise in H as [[j cols] [Hin Hf]].
  cbn [fst snd] in Hf.
  destruct (numeric_score row (snd (snd cols))) as [score|e'] eqn:E;
    cbn [bind_result] in Hf; [discriminate|].
  injection Hf as ->.
  pose proof (numeric_score_raise _ _ E) as ->.
  split; [reflexivity|]. exists j.
  unfold enumerate in Hin. cbn [OPTION_COLUMNS List.length seq combine] in Hin.
  unfold slot_score.
  repeat (destruct Hin as [Hin | Hin];
          [injection Hin as <- <-; split; [lia | exact E]|]).
  contradiction.
Qed.

Lemma fold_max_spec (l : list (nat * Q)) (v : Q) :
  let f := fun (m : Q) (e : nat * Q) =>
             if Qle_bool (snd e) m then m else snd e in
  (v <= fold_left f l v)%Q
  /\ (forall e, In e l -> (snd e <= fold_left f l v)%Q)
  /\ (fold_left f l v = v \/ exists e, In e l /\ fold_left f l v = snd e).
Proof.
  intro f. revert v. induction l as [|x l IH]; intro v; simpl.
  - split; [lra|]. split; [ptauto | now left].
  - destruct (IH (f v x)) as [H1 [H2 H3]].
    assert (Hf : (v <= f v x)%Q /\ (snd x <= f v x)%Q
                 /\ (f v x = v \/ f v x = snd x)).
    { unfold f. destruct (Qle_bool (snd x) v) eqn:E; q_bools.
      - repeat split; try lra. now left.
      - repeat split; try lra. now right. }
    destruct Hf as [Hv [Hx Hor]].
    split; [lra|]. split.
    + intros e [<- | He]; [lra | now apply H2].
    + destruct H3 as [-> | [e [He ->]]].
      * destruct Hor as [-> | ->]; [now left | right; exists x; ptauto].
      * right. exists e. ptauto.
Qed.

Lemma max_score_ge scored e :
  In e scored -> (snd e <= max_score scored)%Q.
Proof.
  destruct scored as [|[k v] rest]; [contradiction|]. simpl.
  destruct (fold_max_spec rest v) as [H1 [H2 _]].
  intros [<- | He]; [exact H1 | now apply H2].
Qed.

Lemma max_score_attained scored :
  scored <> [] -> exists e, In e scored /\ max_score scored = snd e.
Proof.
  destruct scored as [|[k v] rest]; [congruence|]. intros _. simpl.
  destruct (fold_max_spec rest v) as [_ [_ [H | [e [He H]]]]].
  - exists (k, v). split; [now left | exact H].
  - exists e. split; [now right | exact H].
Qed.

Lemma flat_map_all_nil {A B} (f : A -> list B) (l : list A) :
  (forall e, In e l -> f e = []) -> flat_map f l = [].
Proof.
  induction l as [|e l IH]; intro H; simpl; [reflexivity|].
  rewrite H by now left. simpl. apply IH. intros e' He'. apply H. now right.
Qed.

Lemma flat_map_pick (f : nat * Q -> list nat) (l : list (nat * Q)) i s x :
  NoDup (map fst l) ->
  In (i, s) l ->
  (forall e, In e l -> fst e <> i -> f e = []) ->
  f (i, s) = [x] ->
  flat_map f l = [x].
Proof.
  intros Hnd Hin Hother Hpick.
  induction l as [|e l IH]; [contradiction|]. simpl.
  inversion Hnd as [|? ? Hfresh Hnd']; subst.
  destruct Hin as [-> | Hin].
  - rewrite Hpick. simpl. f_equal.
    apply flat_map_all_nil. intros e He. apply Hother; [now right|].
    intro E. apply Hfresh. simpl. rewrite <- E. now apply in_map.
  - rewrite Hother.
    + simpl. apply IH; try assumption.
      intros e' He' Hne. apply Hother; [now right | assumption].
    + now left.
    + intro E. apply Hfresh. rewrite E.
      change i with (fst (i, s)). now apply in_map.
Qed.

Lemma lettered_label_not_pilihan i :
  i < 5 ->
  String.eqb (nth i (map fst OPTION_COLUMNS) ""%string) "Pilihan" = false.
Proof.
  intro H. do 5 (destruct i as [|i]; [reflexivity|]). lia.
Qed.

Lemma indices_by_score_unique_max row scored i s :
  scored_options row = Ok scored ->
  i < 5 ->
  slot_score row i = Ok (Some s) ->
  (forall j s', j < 6 -> j <> i -> slot_score row j = Ok (Some s') ->
                (s' < s)%Q) ->
  indices_by_score row scored = [i].
Proof.
  intros Hscored Hi Hs Hmax. unfold indices_by_score.
  assert (Hin : In (i, s) scored)
    by (apply (@scored_options_spec row scored i s Hscored); split; [lia | assumption]).
  destruct scored as [|e0 rest] eqn:Hlist; [contradiction|].
  rewrite <- Hlist in *.
  assert (Hm : (max_score scored == s)%Q).
  { destruct (max_score_attained (scored := scored)) as [[j v] [Hj Hv]];
      [rewrite Hlist; discriminate|].
    pose proof (max_score_ge _ _ Hin) as Hge. simpl in *.
    apply (@scored_options_spec row scored j v Hscored) in Hj as [Hj6 Hjs].
    destruct (Nat.eq_dec j i) as [-> | Hne].
    - rewrite Hv. assert (v = s) by congruence. subst. reflexivity.
    - pose proof (Hmax j v Hj6 Hne Hjs). rewrite Hv in Hge. lra. }
  eapply flat_map_pick.
  - now apply (@scored_options_NoDup row scored).
  - exact Hin.
  - intros [j v] Hj Hne. cbn [fst snd] in *.
    apply (@scored_options_spec row scored j v Hscored) in Hj as [Hj6 Hjs].
    pose proof (Hmax j v Hj6 Hne Hjs) as Hlt.
    destruct (Qeq_bool v (max_score scored)) eqn:E;
      [q_bools; lra | reflexivity].
  - cbn [fst snd]. rewrite lettered_label_not_pilihan by assumption.
    destruct (Qeq_bool s (max_score scored)) eqn:E;
      [reflexivity | q_bools; exfalso; apply E; symmetry; exact Hm].
Qed.

Lemma infer_correct_indices_with row option_texts scored :
  scored_options row = Ok scored ->
  _infer_correct_indices row option_texts
  = Ok (match indices_by_score row scored with
        | (_ :: _) as indices => dedupe indices
        | [] =>
        match indices_by_option_number row option_texts with
        | (_ :: _) as indices => indices
        | [] =>
        match indices_by_true_answer row option_texts with
        | (_ :: _) as indices => indices
        | [] => indices_by_explanation row option_texts
        end end end).
Proof. intro H. unfold _infer_correct_indices. now rewrite H. Qed.

Lemma infer_correct_indices_raise row option_texts e :
  _infer_correct_indices row option_texts = Raise e ->
  e = OverflowError /\ exists j, j < 6 /\ slot_score row j = Raise OverflowError.
Proof.
  unfold _infer_correct_indices.
  destruct (scored_options row) as [scored|e'] eqn:E; cbn [bind_result];
    [discriminate|].
  intro H. injection H as ->. now apply scored_options_raise.
Qed.

Lemma build_prompt_returns row :
  scores_convert row -> exists p, build_prompt row = Ok p.
Proof.
  intro H. destruct (@scored_options_returns row H) as [scored Hscored].
  pose proof (@infer_correct_indices_with row (build_option_map row) scored Hscored)
    as Hinfer.
  destruct (@build_prompt_with row _ Hinfer) as [p [Hp _]]. now exists p.
Qed.

Lemma build_prompt_converts row p :
  build_prompt row = Ok p -> scores_convert row.
Proof.
  intro Hp. destruct (@build_prompt_ok row p Hp) as [inferred [Hinfer _]].
  unfold _infer_correct_indices in Hinfer.
  destruct (scored_options row) as [scored|e] eqn:E; [|discriminate].
  now apply scored_options_value in E as [Hconv _].
Qed.

Lemma textful_first_singleton i om : textful_first [i] om = [i].
Proof.
  unfold textful_first. simpl.
  destruct (has_text om i); simpl; [|reflexivity].
  unfold mem_nat. simpl. rewrite Nat.eqb_refl. reflexivity.
Qed.

(** C1 (amended).  When one lettered option [i] has a score that, as a
    float, is strictly above every other numeric score of the row (those of
    the other letters and that of the chosen-option slot), and no score cell
    is an integer too large for a float, the inference returns [[i]], the
    correct indices of [build_prompt] are [[i]], and its incorrect indices
    are exactly the other slots whose option text is not empty. *)
Theorem unique_max_score_is_sole_correct (row : Row) (i : nat) (s : Q) :
  i < 5 ->
  scores_convert row ->
  slot_score row i = Ok (Some s) ->
  (forall j s', j < 6 -> j <> i -> slot_score row j = Ok (Some s') ->
                (s' < s)%Q) ->
  exists p,
    build_prompt row = Ok p
    /\ _infer_correct_indices row (option_map p) = Ok [i]
    /\ correct_indices p = [i]
    /\ (forall j, In j (incorrect_indices p) <->
                  j < 5 /\ j <> i /\ nth j (option_map p) [] <> []).
Proof.
  intros Hi Hconv Hs Hmax.
  destruct (@scored_options_returns row Hconv) as [scored Hscored].
  assert (Hinfer : forall option_texts,
            _infer_correct_indices row option_texts = Ok [i]).
  { intro option_texts.
    rewrite (@infer_correct_indices_with row option_texts scored Hscored).
    rewrite (@indices_by_score_unique_max row scored i s Hscored Hi Hs Hmax).
    unfold dedupe. simpl. reflexivity. }
  destruct (@build_prompt_with row _ (Hinfer (build_option_map row)))
    as [p [Hp [Hom [Hc Hinc]]]].
  exists p. split; [exact Hp|]. split; [apply Hinfer|].
  rewrite textful_first_singleton in Hc, Hinc.
  split; [exact Hc|].
  intro j. rewrite Hinc, incorrect_of_In, <- Hom.
  assert (Hlen : List.length (option_map p) = 5) by (now rewrite Hom).
  rewrite Hlen. simpl. pintuition.
Qed.

(** ** Rows of an excluded category *)

Lemma should_skip_row_excluded category_value sub_category_value :
  _normalize_label category_value = txt "tiu" ->
  startswith (txt "figural") (_normalize_label sub_category_value) = true
  \/ startswith (txt "numerik deret") (_normalize_label sub_category_value) = true ->
  _should_skip_row category_value sub_category_value
    = Some (txt "subkategori TIU figural di-skip.")
  \/ _should_skip_row category_value sub_category_value
    = Some (txt "subkategori TIU numerik deret di-skip.").
Proof.
  intros Hcat Hsub. unfold _should_skip_row. rewrite Hcat.
  change (teqb (txt "tiu") (txt "tiu")) with true. cbv iota beta. simpl negb.
  cbv iota.
  destruct (startswith (txt "figural") (_normalize_label sub_category_value)).
  - now left.
  - destruct Hsub as [Hsub | Hsub]; [discriminate|].
    rewrite Hsub. now right.
Qed.

(** C4.  A row whose normalized category is "tiu" and whose normalized
    sub-category starts with "figural" or with "numerik deret" is skipped
    with an excluded-category reason: processing it makes no call to the
    model (no prompt is sent), its outcome is [Skipped], and the loop leaves
    the data frame as it was and reports no updated row. *)
Theorem excluded_category_row_is_skipped (row : Row) (log : list Call) :
  _normalize_label (get row "category") = txt "tiu" ->
  startswith (txt "figural") (_normalize_label (get row "sub_category")) = true
  \/ startswith (txt "numerik deret")
       (_normalize_label (get row "sub_category")) = true ->
  exists reason,
    (reason = txt "subkategori TIU figural di-skip."
     \/ reason = txt "subkategori TIU numerik deret di-skip.")
    /\ _should_skip_row (get row "category") (get row "sub_category") = Some reason
    /\ process_row row log = (Ok (Skipped reason), log)
    /\ generate_ai_explanations [row] [0] log = (Ok ([row], []), log).
Proof.
  intros Hcat Hsub.
  assert (Hrow : forall reason,
    _should_skip_row (get row "category") (get row "sub_category") = Some reason ->
    process_row row log = (Ok (Skipped reason), log)).
  { intros reason H. unfold process_row, try_except, row_body.
    rewrite H. reflexivity. }
  destruct (should_skip_row_excluded _ _ Hcat Hsub) as [H | H];
    eexists; (split; [|split; [exact H|split]]);
    [ now left | now apply Hrow
    | cbn [generate_ai_explanations nth_error]; unfold bind;
      rewrite (Hrow _ H); reflexivity
    | now right | now apply Hrow
    | cbn [generate_ai_explanations nth_error]; unfold bind;
      rewrite (Hrow _ H); reflexivity ].
Qed.

(** ** From the row to what is done with its prompt data *)

Lemma extract_after_build row p :
  build_prompt row = Ok p -> exists scores, _extract_option_scores row = Ok scores.
Proof.
  intro Hp. apply extract_option_scores_returns.
  now apply (@build_prompt_converts row p).
Qed.

Lemma row_body_with row p scores log :
  _should_skip_row (get row "category") (get row "sub_category") = None ->
  build_prompt row = Ok p ->
  _extract_option_scores row = Ok scores ->
  row_body row log = explain_row row p scores log.
Proof.
  intros Hskip Hp Hs. unfold row_body. rewrite Hskip.
  unfold bind, lift. now rewrite Hp, Hs.
Qed.

Lemma row_body_raise row e log :
  _should_skip_row (get row "category") (get row "sub_category") = None ->
  build_prompt row = Raise e ->
  row_body row log = (Raise e, log).
Proof.
  intros Hskip Hp. unfold row_body. rewrite Hskip.
  unfold bind, lift. now rewrite Hp.
Qed.

Lemma ordered_lists_ok row p correct :
  build_prompt row = Ok p ->
  ordered_correct row = Ok correct ->
  exists scores,
    _extract_option_scores row = Ok scores
    /\ correct = _order_indices (correct_indices p) scores (option_map p)
    /\ ordered_incorrect row
       = Ok (_order_indices (incorrect_indices p) scores (option_map p)).
Proof.
  intros Hp Hc.
  apply ordered_correct_ok in Hc as [p' [scores [Hp' [Hs ->]]]].
  assert (p' = p) by congruence. subst p'.
  exists scores. split; [exact Hs|]. split; [reflexivity|].
  unfold ordered_incorrect. now rewrite Hp, Hs.
Qed.

(** ** The reply parser *)

Lemma loads_or_else_cases t handler :
  (malformed t /\ loads_or_else t handler = handler)
  \/ (~ malformed t /\ loads_or_else t handler = json_loads t).
Proof.
  unfold loads_or_else, malformed.
  destruct (json_loads t) as [v|[]];
    first [ left; split; reflexivity
          | right; split; [discriminate | reflexivity] ].
Qed.

Lemma first_outcome_nil : first_outcome [] (Ok JNull).
Proof. right. split; [constructor | reflexivity]. Qed.

Lemma first_outcome_here a rest :
  ~ malformed a -> first_outcome (a :: rest) (json_loads a).
Proof.
  intro H. left. exists [], a, rest.
  split; [reflexivity|]. split; [constructor|]. now split.
Qed.

Lemma first_outcome_later a rest r :
  malformed a -> first_outcome rest r -> first_outcome (a :: rest) r.
Proof.
  intros Ha [[before [b [after [-> [Hall [Hb ->]]]]]] | [Hall ->]].
  - left. exists (a :: before), b, after.
    split; [reflexivity|]. split; [now constructor|]. now split.
  - right. split; [now constructor | reflexivity].
Qed.

Lemma parse_response_first_outcome raw_text :
  first_outcome (parse_attempts raw_text) (_parse_response raw_text).
Proof.
  unfold _parse_response, parse_attempts. cbv zeta. cbn [app].
  destruct (loads_or_else_cases raw_text
              (loads_or_else (_repair_json_text raw_text)
                 match find_char "{" raw_text, rfind_char "}" raw_text with
                 | Some start, Some end_ =>
                     if start <? end_ then
                       loads_or_else (slice start (end_ + 1) raw_text)
                         (loads_or_else
                            (_repair_json_text
                               (slice start (end_ + 1) raw_text))
                            (Ok JNull))
                     else Ok JNull
                 | _, _ => Ok JNull
                 end))
    as [[H1 ->] | [H1 ->]]; [|now apply first_outcome_here].
  apply first_outcome_later; [exact H1|].
  match goal with
  | |- first_outcome _ (loads_or_else ?t ?h) =>
      destruct (loads_or_else_cases t h) as [[H2 ->] | [H2 ->]];
        [|now apply first_outcome_here]
  end.
  apply first_outcome_later; [exact H2|].
  destruct (find_char "{" raw_text) as [start|]; [|apply first_outcome_nil].
  destruct (rfind_char "}" raw_text) as [end_|]; [|apply first_outcome_nil].
  destruct (start <? end_); [|apply first_outcome_nil].
  match goal with
  | |- first_outcome _ (loads_or_else ?t ?h) =>
      destruct (loads_or_else_cases t h) as [[H3 ->] | [H3 ->]];
        [|now apply first_outcome_here]
  end.
  apply first_outcome_later; [exact H3|].
  match goal with
  | |- first_outcome _ (loads_or_else ?t ?h) =>
      destruct (loads_or_else_cases t h) as [[H4 ->] | [H4 ->]];
        [|now apply first_outcome_here]
  end.
  apply first_outcome_later; [exact H4 | apply first_outcome_nil].
Qed.

Lemma first_outcome_all_malformed attempts r :
  Forall malformed attempts -> first_outcome attempts r -> r = Ok JNull.
Proof.
  intros Hall [[before [a [after [-> [_ [Ha _]]]]]] | [_ ->]]; [|reflexivity].
  exfalso. apply Ha. rewrite Forall_forall in Hall. apply Hall.
  apply in_or_app. right. now left.
Qed.

Lemma first_outcome_raise attempts e :
  first_outcome attempts (Raise e) -> e <> JSONDecodeError.
Proof.
  intros [[before [a [after [_ [_ [Ha Hr]]]]]] | [_ H]]; [|discriminate].
  intros ->. apply Ha. unfold malformed. now rewrite <- Hr.
Qed.

Lemma unparsed_reply_not_written row p correct log reply log' :
  _should_skip_row (get row "category") (get row "sub_category") = None ->
  build_prompt row = Ok p ->
  ordered_correct row = Ok correct ->
  correct <> [] ->
  ask (prompt p) log = (Ok reply, log') ->
  _parse_response (unfence reply) = Ok JNull ->
  process_row row log =
    (Ok (InvalidResponse
           (if nonempty (unfence reply)
            then Some (_truncate_text (unfence reply) 4000) else None)), log').
Proof.
  intros Hskip Hp Hc Hne Hask Hparse.
  destruct (@ordered_lists_ok row p correct Hp Hc) as [scores [Hs [-> _]]].
  unfold process_row, try_except.
  rewrite (@row_body_with row p scores log Hskip Hp Hs).
  unfold explain_row. cbv zeta.
  destruct (_order_indices (correct_indices p) scores (option_map p))
    as [|i rest]; [congruence|].
  unfold bind, lift. rewrite Hask, Hparse. reflexivity.
Qed.

Lemma raising_reply_fails_the_row row p correct log reply log' e :
  _should_skip_row (get row "category") (get row "sub_category") = None ->
  build_prompt row = Ok p ->
  ordered_correct row = Ok correct ->
  correct <> [] ->
  ask (prompt p) log = (Ok reply, log') ->
  _parse_response (unfence reply) = Raise e ->
  process_row row log = (Ok (Failed e), log').
Proof.
  intros Hskip Hp Hc Hne Hask Hparse.
  destruct (@ordered_lists_ok row p correct Hp Hc) as [scores [Hs [-> _]]].
  unfold process_row, try_except.
  rewrite (@row_body_with row p scores log Hskip Hp Hs).
  unfold explain_row. cbv zeta.
  destruct (_order_indices (correct_indices p) scores (option_map p))
    as [|i rest]; [congruence|].
  unfold bind, lift. rewrite Hask, Hparse. reflexivity.
Qed.

(** C5 (amended).  The value of [_parse_response] is decided by the first
    of the attempts (the reply, the repaired reply, the text between the
    first '{' and the last '}', the repair of that text) that [json.loads]
    does not refuse as malformed: it is the value decoded there, or the
    exception raised there, which is never [JSONDecodeError]; and it is
    [JNull] (Python's [None]) when every attempt is refused as malformed.
    A row whose reply is answered with [None] gets the outcome
    [InvalidResponse], and a row whose reply makes the parser raise fails
    with that exception: in both cases no document is written, the row is
    not among the updated rows, and the run goes on. *)
Theorem parse_response_first_success_or_none (raw_text : text) :
  first_outcome (parse_attempts raw_text) (_parse_response raw_text)
  /\ (Forall malformed (parse_attempts raw_text) ->
      _parse_response raw_text = Ok JNull)
  /\ (forall e, _parse_response raw_text = Raise e -> e <> JSONDecodeError)
  /\ (forall row p correct log reply log',
        _should_skip_row (get row "category") (get row "sub_category") = None ->
        build_prompt row = Ok p ->
        ordered_correct row = Ok correct ->
        correct <> [] ->
        ask (prompt p) log = (Ok reply, log') ->
        unfence reply = raw_text ->
        (_parse_response raw_text = Ok JNull ->
         exists shown,
           process_row row log = (Ok (InvalidResponse shown), log')
           /\ generate_ai_explanations [row] [0] log = (Ok ([row], []), log'))
        /\ (forall e,
              _parse_response raw_text = Raise e ->
              process_row row log = (Ok (Failed e), log')
              /\ generate_ai_explanations [row] [0] log
                 = (Ok ([row], []), log'))).
Proof.
  pose proof (parse_response_first_outcome raw_text) as Hfirst.
  split; [exact Hfirst|]. split; [|split].
  - intro Hall. now apply (@first_outcome_all_malformed (parse_attempts raw_text)).
  - intros e He. rewrite He in Hfirst.
    now apply (@first_outcome_raise (parse_attempts raw_text)).
  - intros row p correct log reply log' Hskip Hp Hc Hne Hask <-. split.
    + intro Hparse.
      exists (if nonempty (unfence reply)
              then Some (_truncate_text (unfence reply) 4000) else None).
      pose proof (@unparsed_reply_not_written row p correct log reply log'
                    Hskip Hp Hc Hne Hask Hparse) as Hrow.
      split; [exact Hrow|].
      cbn [generate_ai_explanations nth_error]. unfold bind.
      rewrite Hrow. reflexivity.
    + intros e Hparse.
      pose proof (@raising_reply_fails_the_row row p correct log reply log' e
                    Hskip Hp Hc Hne Hask Hparse) as Hrow.
      split; [exact Hrow|].
      cbn [generate_ai_explanations nth_error]. unfold bind.
      rewrite Hrow. reflexivity.
Qed.

(** ** The repair pass *)

Lemma is_escaped_at_cursor done rest :
  _is_escaped (rev done ++ rest) (List.length done)
  = Nat.odd (backslash_run done).
Proof.
  unfold _is_escaped, backslash_run.
  rewrite <- (length_rev done) at 1.
  rewrite firstn_app, Nat.sub_diag, firstn_all. simpl firstn.
  now rewrite app_nil_r, rev_involutive.
Qed.

Lemma backslash_run_other c done :
  c <> BACKSLASH -> backslash_run (c :: done) = 0.
Proof.
  intro H. unfold backslash_run. cbn [takewhile].
  destruct (Ascii.eqb BACKSLASH c) eqn:E; [|reflexivity].
  apply Ascii.eqb_eq in E. congruence.
Qed.

Lemma backslash_run_pair_even c done :
  Nat.even (backslash_run done) = true ->
  Nat.even (backslash_run (c :: BACKSLASH :: done)) = true.
Proof.
  intro H. destruct (Ascii.ascii_dec c BACKSLASH) as [-> | Hc].
  - unfold backslash_run in *. cbn [takewhile].
    rewrite Ascii.eqb_refl. cbn [List.length]. exact H.
  - now rewrite backslash_run_other.
Qed.

Lemma eqb_neq_false (a b : ascii) : a <> b -> Ascii.eqb a b = false.
Proof. intro H. now apply Ascii.eqb_neq. Qed.

Lemma repair_from_unescaped in_string raw fixed :
  unescaped_newlines in_string raw fixed ->
  forall done,
    Nat.even (backslash_run done) = true ->
    repair_from done raw in_string = fixed.
Proof.
  induction 1 as
    [ | c raw fixed Hq Hb _ IH | raw fixed _ IH | raw fixed _ IH
      | c raw fixed Hq Hb Hl Hr _ IH | c raw fixed Hv _ IH | raw fixed _ IH ];
    intros done Heven; cbn [repair_from].
  - reflexivity.
  - rewrite (eqb_neq_false Hq). cbn [andb].
    f_equal. apply IH. now rewrite backslash_run_other.
  - rewrite Ascii.eqb_refl, is_escaped_at_cursor, <- Nat.negb_even, Heven.
    cbn [negb andb]. f_equal. apply IH. now rewrite backslash_run_other.
  - rewrite Ascii.eqb_refl, is_escaped_at_cursor, <- Nat.negb_even, Heven.
    cbn [negb andb]. f_equal. apply IH. now rewrite backslash_run_other.
  - rewrite (eqb_neq_false Hq), (eqb_neq_false Hl), (eqb_neq_false Hr),
      (eqb_neq_false Hb). cbn [andb].
    f_equal. apply IH. now rewrite backslash_run_other.
  - change (Ascii.eqb BACKSLASH DQUOTE) with false.
    change (Ascii.eqb BACKSLASH LF) with false.
    change (Ascii.eqb BACKSLASH CR) with false.
    rewrite Ascii.eqb_refl, Hv. cbn [andb].
    do 2 f_equal. apply IH. now apply backslash_run_pair_even.
  - change (Ascii.eqb LF DQUOTE) with false.
    rewrite Ascii.eqb_refl. cbn [andb].
    do 2 f_equal. apply IH. now rewrite backslash_run_other.
Qed.

Lemma repair_json_text_unescaped raw fixed :
  unescaped_newlines false raw fixed -> _repair_json_text raw = fixed.
Proof.
  intro H. unfold _repair_json_text.
  now apply (repair_from_unescaped H).
Qed.

(** C6.  Let [raw] be a reply that is lexically sound except that some
    line breaks inside quoted strings are bare newline characters, and let
    [fixed] be the same text with those newlines written as backslash-n.
    Then the repair pass turns [raw] into [fixed], so if [fixed] decodes,
    the reply parses: [_parse_response] answers with the object decoded
    from [fixed] when the direct decoding of [raw] fails, and with the
    directly decoded object otherwise. *)
Theorem repair_pass_escapes_bare_newlines (raw fixed : text) (parsed : json) :
  unescaped_newlines false raw fixed ->
  json_loads fixed = Ok parsed ->
  _repair_json_text raw = fixed
  /\ (json_loads raw = Raise JSONDecodeError -> _parse_response raw = Ok parsed)
  /\ (forall direct, json_loads raw = Ok direct ->
                     _parse_response raw = Ok direct).
Proof.
  intros Hraw Hfixed.
  pose proof (repair_json_text_unescaped Hraw) as Hrepair.
  split; [exact Hrepair|]. split.
  - intro Hnone. unfold _parse_response, loads_or_else. cbv zeta.
    now rewrite Hnone, Hrepair, Hfixed.
  - intros direct Hdirect. unfold _parse_response, loads_or_else.
    now rewrite Hdirect.
Qed.

(** ** The retry for thin numeric replies *)

Lemma startswith_numerik_not_figural s :
  startswith (txt "numerik") s = true -> startswith (txt "figural") s = false.
Proof.
  destruct s as [|c s]; [discriminate|]. cbn [txt list_ascii_of_string startswith].
  destruct (Ascii.eqb "n" c) eqn:E; [|discriminate].
  apply Ascii.eqb_eq in E. subst c. reflexivity.
Qed.


Lemma ask_log prompt log :
  snd (ask prompt log)
    = log ++ [{| call_prompt := prompt; call_json_mode := JSON_CONFIG |}]
  \/ snd (ask prompt log)
    = log ++ [{| call_prompt := prompt; call_json_mode := JSON_CONFIG |};
              {| call_prompt := prompt; call_json_mode := NO_CONFIG |}].
Proof.
  unfold ask, bind, try_except, call_model.
  destruct (generate_content log _) as [r|].
  - left. destruct r; reflexivity.
  - right. rewrite <- app_assoc. cbn [app].
    destruct (generate_content _ _) as [r|]; [destruct r|]; reflexivity.
Qed.




(** ** Facts about stripping *)

Lemma dropwhile_snoc p (a : text) c :
  p c = false -> dropwhile p (a ++ [c]) = dropwhile p a ++ [c].
Proof.
  intro H. induction a as [|x a IH]; cbn [dropwhile app].
  - now rewrite H.
  - destruct (p x); [exact IH | reflexivity].
Qed.

Lemma rstrip_by_snoc p (a : text) c :
  p c = false -> rstrip_by p (a ++ [c]) = a ++ [c].
Proof.
  intro H. unfold rstrip_by. rewrite rev_app_distr. cbn [rev app dropwhile].
  rewrite H. cbn [rev]. now rewrite rev_involutive.
Qed.

Lemma strip_snoc (a : text) c :
  is_space c = false -> strip (a ++ [c]) = lstrip a ++ [c].
Proof.
  intro H. unfold strip, rstrip, lstrip, lstrip_by.
  rewrite dropwhile_snoc by exact H. now apply rstrip_by_snoc.
Qed.

Lemma ends_sentence_snoc (a : text) c :
  ends_sentence (a ++ [c]) = mem_char c (txt ".!?").
Proof. unfold ends_sentence. now rewrite rev_app_distr. Qed.

Lemma ends_sentence_inv s :
  ends_sentence s = true ->
  exists a c, s = a ++ [c] /\ mem_char c (txt ".!?") = true.
Proof.
  unfold ends_sentence. destruct (rev s) as [|c r] eqn:E; [discriminate|].
  intro H. exists (rev r), c. split; [|exact H].
  rewrite <- (rev_involutive s), E. reflexivity.
Qed.

Lemma sentence_mark_not_space c :
  mem_char c (txt ".!?") = true -> is_space c = false.
Proof.
  unfold mem_char. cbn [txt list_ascii_of_string existsb].
  intro H. repeat (apply orb_prop in H as [H | H]);
    try discriminate; apply Ascii.eqb_eq in H; subst c; reflexivity.
Qed.

Lemma strip_keeps_sentence_end s :
  ends_sentence s = true -> strip s <> [] /\ ends_sentence (strip s) = true.
Proof.
  intro H. destruct (ends_sentence_inv _ H) as [a [c [-> Hc]]].
  rewrite strip_snoc by now apply sentence_mark_not_space.
  split; [now destruct (lstrip a) | now rewrite ends_sentence_snoc].
Qed.

(** ** [_enrich_reason] *)

Lemma count_char_nil c : count_char c [] = 0.
Proof. reflexivity. Qed.

Lemma ends_sentence_app_dot (a : text) : ends_sentence (a ++ txt ".") = true.
Proof. apply (ends_sentence_snoc a "."). Qed.

Lemma enrich_reason_nonempty_punctuated
  option_text reason correct_text question_summary :
  _enrich_reason option_text reason correct_text question_summary <> []
  /\ ends_sentence
       (_enrich_reason option_text reason correct_text question_summary) = true.
Proof.
  unfold _enrich_reason.
  set (cr0 := strip reason).
  set (cr := if nonempty cr0 && negb (ends_sentence cr0)
             then cr0 ++ txt "." else cr0).
  assert (Hcr : cr = [] \/ ends_sentence cr = true).
  { unfold cr. destruct cr0 as [|x cr0'] eqn:E; [now left|]. right.
    cbn [nonempty andb].
    destruct (ends_sentence (x :: cr0')) eqn:Hend; cbn [negb].
    - exact Hend.
    - apply ends_sentence_app_dot. }
  cbv zeta.
  destruct ((count_char "." cr + count_char "!" cr + count_char "?" cr <? 2)
            || (count_words cr <? 25)) eqn:Hthin.
  - (* a supplement is appended: the text ends with its full stop *)
    set (head := if nonempty cr && negb (endswith (txt " ") cr)
                 then cr ++ txt " " else cr).
    assert (Hdot : forall sup : text,
               strip (head ++ join (txt " ") [sup ++ txt "."]) <> []
               /\ ends_sentence
                    (strip (head ++ join (txt " ") [sup ++ txt "."])) = true).
    { intro sup. apply strip_keeps_sentence_end. cbn [join].
      rewrite app_assoc. apply ends_sentence_app_dot. }
    destruct (nonempty option_text && nonempty correct_text).
    + rewrite !app_assoc. apply Hdot.
    + destruct (nonempty correct_text).
      * rewrite !app_assoc. apply Hdot.
      * apply (Hdot (txt "penjelasan perlu menyebutkan secara spesifik mengapa pilihan ini tidak memenuhi kebutuhan soal")).
  - (* no supplement: at least two sentence marks, so the text is not empty *)
    apply strip_keeps_sentence_end.
    destruct Hcr as [Hnil | Hend]; [|exact Hend].
    rewrite Hnil in Hthin. discriminate Hthin.
Qed.

Lemma app_cons_not_nil (a b : text) c : a ++ c :: b <> [].
Proof. destruct a; discriminate. Qed.

Lemma match_word_nonempty s word : match_word s = Some word -> word <> [].
Proof.
  unfold match_word. destruct (takewhile is_word_char s); [discriminate|].
  intro H. injection H as <-. discriminate.
Qed.

Lemma normalize_reason_capital_nonempty text preserve_tokens :
  text <> [] -> _normalize_reason_capital text preserve_tokens <> [].
Proof.
  intro Hne. unfold _normalize_reason_capital.
  destruct text as [|c0 text0]; [congruence|].
  set (text := c0 :: text0) in *.
  cbv zeta.
  destruct (partition_at ":" _) as [[prefix sep] suffix].
  destruct (sep && nonempty suffix).
  - match goal with
    | |- match ?r with [] => _ | _ :: _ => _ end <> [] => destruct r
    end; [exact Hne|].
    rewrite !app_assoc. cbn [txt list_ascii_of_string].
    rewrite <- !app_assoc. cbn [app].
    rewrite app_assoc. apply app_cons_not_nil.
  - destruct (List.length _ <=? _); [exact Hne|].
    destruct (match_word _) as [word|] eqn:Hw; [|exact Hne].
    destruct (mem_text word preserve_tokens || _); [exact Hne|].
    apply match_word_nonempty in Hw.
    destruct word as [|w word']; [congruence|].
    cbn [firstn skipn lower map app].
    apply app_cons_not_nil.
Qed.

Lemma incorrect_entry_reason_nonempty
  om scores include_scores main_option summary reasons idx e :
  incorrect_entry om scores include_scores main_option summary reasons idx
    = Ok (Some e) ->
  entry_reason e <> [].
Proof.
  unfold incorrect_entry.
  destruct (List.length om <=? idx); [discriminate|].
  destruct (nth idx om []) as [|c option_text'] eqn:Hopt; [discriminate|].
  destruct (nonempty main_option && _); [discriminate|].
  destruct (dict_get reasons _ _) as [found|]; [|discriminate].
  cbv zeta.
  match goal with
  | |- Ok (Some {| entry_label := ?l; entry_reason := ?r |}) = _ -> _ =>
      set (label := l); set (final := r);
      assert (Hfinal : final <> [])
  end.
  { subst final.
    unfold normalize_reason. cbv zeta.
    destruct (enrich_reason_nonempty_punctuated
                (c :: option_text')
                (_strip_option_echo
                   (_strip_reason_prefix
                      (_sanitize_text (strip (py_str found))))
                   (c :: option_text'))
                main_option summary) as [Hne _].
    destruct (_enrich_reason _ _ _ _) as [|x r]; [congruence|].
    apply normalize_reason_capital_nonempty. discriminate. }
  clearbody final label. intro H. injection H as <-. exact Hfinal.
Qed.

Lemma incorrect_entries_reason_nonempty
  om scores include_scores main_option summary reasons indices entries :
  incorrect_entries om scores include_scores main_option summary reasons indices
    = Ok entries ->
  forall e, In e entries -> entry_reason e <> [].
Proof.
  revert entries. induction indices as [|idx rest IH]; intros entries;
    cbn [incorrect_entries].
  - intro H. injection H as <-. contradiction.
  - destruct (incorrect_entry _ _ _ _ _ _ idx) as [entry|] eqn:Hentry;
      [|discriminate].
    destruct (incorrect_entries _ _ _ _ _ _ rest) as [entries'|];
      [|discriminate].
    intro H. injection H as <-.
    destruct entry as [e0|]; intros e He.
    + destruct He as [<- | He].
      * eapply incorrect_entry_reason_nonempty. exact Hentry.
      * now apply (IH entries').
    + now apply (IH entries').
Qed.

(** C10.  For every option text, reason (the empty one included), correct
    text and question summary, [_enrich_reason] returns a non-empty text
    that ends with '.', '!' or '?'; and every incorrect-option fragment
    that the row body emits carries a non-empty reason. *)
Theorem enriched_reason_is_nonempty_sentence
  (option_text reason correct_text question_summary : text) :
  _enrich_reason option_text reason correct_text question_summary <> []
  /\ ends_sentence
       (_enrich_reason option_text reason correct_text question_summary) = true
  /\ (forall om scores include_scores main_option summary reasons indices
             entries,
        incorrect_entries om scores include_scores main_option summary
          reasons indices = Ok entries ->
        forall e, In e entries -> entry_reason e <> []).
Proof.
  destruct (enrich_reason_nonempty_punctuated
              option_text reason correct_text question_summary) as [H1 H2].
  split; [exact H1|]. split; [exact H2|].
  intros om scores include_scores main_option summary reasons indices entries H.
  now apply (incorrect_entries_reason_nonempty _ _ _ _ _ _ _ H).
Qed.

(** ** Stripping reaches a fixed point *)

Lemma dropwhile_head_kept p s : head_kept p (dropwhile p s).
Proof.
  induction s as [|c s IH]; cbn [dropwhile]; [exact I|].
  destruct (p c) eqn:E; [exact IH | exact E].
Qed.

Lemma dropwhile_fixed p t : head_kept p t -> dropwhile p t = t.
Proof.
  destruct t as [|c t]; [reflexivity|]. cbn [head_kept dropwhile].
  now intros ->.
Qed.

Lemma rstrip_by_last_kept p s : head_kept p (rev (rstrip_by p s)).
Proof.
  unfold rstrip_by. rewrite rev_involutive. apply dropwhile_head_kept.
Qed.

Lemma rstrip_by_fixed p t : head_kept p (rev t) -> rstrip_by p t = t.
Proof.
  intro H. unfold rstrip_by. rewrite dropwhile_fixed by exact H.
  apply rev_involutive.
Qed.

Lemma rstrip_by_head_kept p t : head_kept p t -> head_kept p (rstrip_by p t).
Proof.
  destruct t as [|c t]; [intros _; exact I|]. cbn [head_kept]. intro H.
  unfold rstrip_by. cbn [rev]. rewrite dropwhile_snoc by exact H.
  rewrite rev_app_distr. cbn [rev app head_kept]. exact H.
Qed.

Lemma strip_idempotent s : strip (strip s) = strip s.
Proof.
  unfold strip, rstrip, lstrip, lstrip_by.
  assert (H : dropwhile is_space (rstrip_by is_space (dropwhile is_space s))
              = rstrip_by is_space (dropwhile is_space s))
    by apply dropwhile_fixed, rstrip_by_head_kept, dropwhile_head_kept.
  rewrite H. apply rstrip_by_fixed, rstrip_by_last_kept.
Qed.

Lemma part_refl s : part s s.
Proof. exists [], []. now rewrite app_nil_r. Qed.

Lemma part_trans t u s : part t u -> part u s -> part t s.
Proof.
  intros [a [b ->]] [a' [b' ->]]. exists (a' ++ a), (b ++ b').
  now rewrite <- !app_assoc.
Qed.

Lemma part_length t s : part t s -> List.length t <= List.length s.
Proof. intros [a [b ->]]. rewrite !length_app. lia. Qed.

Lemma part_same_length t s :
  part t s -> List.length t = List.length s -> t = s.
Proof.
  intros [a [b ->]]. rewrite !length_app. intro H.
  destruct a; [|cbn [List.length] in H; lia].
  destruct b; [|cbn [List.length] in H; lia].
  now rewrite app_nil_r.
Qed.

Lemma part_dropwhile p s : part (dropwhile p s) s.
Proof.
  induction s as [|c s IH]; cbn [dropwhile]; [apply part_refl|].
  destruct (p c); [|apply part_refl].
  destruct IH as [a [b H]]. exists (c :: a), b. cbn [app]. now f_equal.
Qed.

Lemma part_skipn n (s : text) : part (skipn n s) s.
Proof.
  exists (firstn n s), []. now rewrite app_nil_r, firstn_skipn.
Qed.

Lemma part_rstrip_by p s : part (rstrip_by p s) s.
Proof.
  unfold rstrip_by. destruct (part_dropwhile p (rev s)) as [a [b H]].
  exists (rev b), (rev a).
  apply (f_equal (@rev ascii)) in H.
  rewrite rev_involutive, !rev_app_distr, <- app_assoc in H. exact H.
Qed.

Lemma part_strip s : part (strip s) s.
Proof.
  unfold strip, rstrip, lstrip, lstrip_by.
  eapply part_trans; [apply part_rstrip_by | apply part_dropwhile].
Qed.

Lemma part_lstrip_chars set s : part (lstrip_chars set s) s.
Proof. apply part_dropwhile. Qed.

Lemma re_ws0_ok : piece_ok re_ws0.
Proof. intros s r H. injection H as <-. apply part_dropwhile. Qed.

Lemma re_marks_ok : piece_ok re_marks.
Proof. intros s r H. injection H as <-. apply part_dropwhile. Qed.

Lemma re_ws1_ok : piece_ok re_ws1.
Proof.
  intros s r. unfold re_ws1. destruct s as [|c s]; [discriminate|].
  destruct (is_space c) eqn:E; [|discriminate].
  intro H. injection H as <-. exact (part_dropwhile is_space (c :: s)).
Qed.

Lemma re_label_ok : piece_ok re_label.
Proof.
  intros s r. unfold re_label. destruct s as [|c s]; [discriminate|].
  destruct (is_label_char c) eqn:E; [|discriminate].
  intro H. injection H as <-. exact (part_dropwhile is_label_char (c :: s)).
Qed.

Lemma re_lit_ok w : piece_ok (re_lit w).
Proof.
  intros s r. unfold re_lit. destruct (ci_startswith _ _); [|discriminate].
  intro H. injection H as <-. apply part_skipn.
Qed.

Lemma re_opsi_pilihan_ok : piece_ok re_opsi_pilihan.
Proof.
  intros s r. unfold re_opsi_pilihan.
  destruct (re_lit "opsi" s) eqn:E.
  - intro H. injection H as <-. eapply re_lit_ok. exact E.
  - apply re_lit_ok.
Qed.

Lemma re_seq_ok pieces : Forall piece_ok pieces -> piece_ok (re_seq pieces).
Proof.
  induction 1 as [|p pieces Hp _ IH]; intros s r; cbn [re_seq].
  - intro H. injection H as <-. apply part_refl.
  - destruct (p s) as [r'|] eqn:E; [|discriminate].
    intro H. eapply part_trans; [apply IH; exact H | apply Hp; exact E].
Qed.

Create HintDb pieces.

#[local] Hint Resolve re_ws0_ok re_marks_ok re_ws1_ok re_label_ok re_lit_ok
  re_opsi_pilihan_ok : pieces.

Lemma reason_prefixes_ok : Forall piece_ok _REASON_PREFIXES.
Proof.
  unfold _REASON_PREFIXES, re_tail.
  repeat (apply Forall_cons;
          [apply re_seq_ok; cbn [app];
           repeat (apply Forall_cons; [auto with pieces|]); apply Forall_nil|]).
  apply Forall_nil.
Qed.

Lemma fold_prefixes_part patterns s :
  Forall piece_ok patterns ->
  part (fold_left
          (fun updated (pattern : text -> option text) =>
             match pattern updated with
             | Some after => strip after
             | None => updated
             end)
          patterns s) s.
Proof.
  intro H. revert s. induction H as [|p patterns Hp _ IH]; intro s;
    cbn [fold_left]; [apply part_refl|].
  eapply part_trans; [apply IH|].
  destruct (p s) as [after|] eqn:E; [|apply part_refl].
  eapply part_trans; [apply part_strip | now apply Hp].
Qed.

Lemma strip_prefix_round_part s : part (strip_prefix_round s) s.
Proof.
  unfold strip_prefix_round.
  eapply part_trans; [apply part_strip|].
  eapply part_trans; [apply part_lstrip_chars|].
  apply fold_prefixes_part, reason_prefixes_ok.
Qed.

Lemma strip_prefix_round_stripped s :
  strip (strip_prefix_round s) = strip_prefix_round s.
Proof. unfold strip_prefix_round. apply strip_idempotent. Qed.

Lemma strip_prefix_loop_fixed fuel s :
  List.length s < fuel ->
  strip s = s ->
  let r := strip_prefix_loop fuel s in
  strip_prefix_round r = r /\ strip r = r.
Proof.
  revert s. induction fuel as [|fuel IH]; intros s Hfuel Hs; [lia|].
  cbn [strip_prefix_loop]. cbv zeta.
  destruct (teqb (strip_prefix_round s) s) eqn:E.
  - apply teqb_eq in E. split; assumption.
  - apply teqb_neq in E. apply IH.
    + pose proof (strip_prefix_round_part s) as Hpart.
      pose proof (part_length Hpart) as Hle.
      destruct (Nat.eq_dec (List.length (strip_prefix_round s)) (List.length s))
        as [Heq | Hneq]; [|lia].
      exfalso. apply E. now apply part_same_length.
    + apply strip_prefix_round_stripped.
Qed.

(** The loop of [_strip_reason_prefix] stops because a round changed
    nothing, and stripping its answer again changes nothing. *)
Lemma strip_reason_prefix_idempotent reason :
  strip_prefix_round (_strip_reason_prefix reason) = _strip_reason_prefix reason
  /\ _strip_reason_prefix (_strip_reason_prefix reason)
     = _strip_reason_prefix reason.
Proof.
  unfold _strip_reason_prefix at 1 3 4. cbv zeta.
  destruct (strip_prefix_loop_fixed (s := strip reason)
              (Nat.lt_succ_diag_r _) (strip_idempotent reason)) as [Hround Hstrip].
  set (r := strip_prefix_loop (S (List.length (strip reason))) (strip reason)) in *.
  split; [exact Hround|].
  unfold _strip_reason_prefix. cbv zeta. rewrite Hstrip.
  cbn [strip_prefix_loop]. cbv zeta. rewrite Hround, teqb_refl. reflexivity.
Qed.

Lemma startswith_length (p s : text) :
  startswith p s = true -> List.length p <= List.length s.
Proof.
  revert s. induction p as [|x p IH]; intros [|y s]; cbn [startswith List.length];
    intro H; try lia; try discriminate.
  apply andb_prop in H as [_ H]. apply IH in H. lia.
Qed.

Lemma lower_length s : List.length (lower s) = List.length s.
Proof. apply length_map. Qed.

Lemma strip_echo_loop_fixed fuel cleaned option_clean :
  option_clean <> [] ->
  List.length cleaned < fuel ->
  strip cleaned = cleaned ->
  let r := strip_echo_loop fuel cleaned option_clean in
  strip r = r
  /\ startswith (lower option_clean) (lower r) = false.
Proof.
  intro Hopt. revert cleaned.
  induction fuel as [|fuel IH]; intros cleaned Hfuel Hclean; [lia|].
  cbn [strip_echo_loop]. cbv zeta.
  destruct (startswith (lower option_clean) (lower cleaned)) eqn:Hstart;
    cbn [negb]; [|split; assumption].
  set (trimmed := strip (lstrip_chars (txt " ,:.-")
                           (skipn (List.length option_clean) cleaned))).
  assert (Hshort : List.length trimmed < List.length cleaned).
  { apply startswith_length in Hstart. rewrite !lower_length in Hstart.
    assert (Hpart : part trimmed (skipn (List.length option_clean) cleaned)).
    { unfold trimmed.
      eapply part_trans; [apply part_strip | apply part_lstrip_chars]. }
    apply part_length in Hpart. rewrite length_skipn in Hpart.
    destruct option_clean; [congruence|]. cbn [List.length] in *. lia. }
  assert (Hstripped : strip trimmed = trimmed)
    by (unfold trimmed; apply strip_idempotent).
  clearbody trimmed.
  destruct trimmed as [|c trimmed'].
  - split; [reflexivity|].
    destruct option_clean; [congruence | reflexivity].
  - apply IH; [lia | exact Hstripped].
Qed.

Lemma strip_option_echo_idempotent reason option_text :
  _strip_option_echo (_strip_option_echo reason option_text) option_text
  = _strip_option_echo reason option_text.
Proof.
  unfold _strip_option_echo. cbv zeta.
  destruct (strip option_text) as [|o option_clean'] eqn:Hopt.
  - apply strip_idempotent.
  - destruct (@strip_echo_loop_fixed (S (List.length (strip reason)))
                (strip reason) (o :: option_clean'))
      as [Hstrip Hnot];
      [discriminate | lia | apply strip_idempotent |].
    set (r := strip_echo_loop (S (List.length (strip reason))) (strip reason)
                (o :: option_clean')) in *.
    rewrite Hstrip. cbn [strip_echo_loop]. cbv zeta.
    rewrite Hnot. reflexivity.
Qed.

Lemma enrich_reason_stripped option_text reason correct_text summary :
  strip (_enrich_reason option_text reason correct_text summary)
  = _enrich_reason option_text reason correct_text summary.
Proof. unfold _enrich_reason. cbv zeta. apply strip_idempotent. Qed.

(** Enrichment leaves alone a text that is stripped, ends a sentence and
    is long enough. *)
Lemma enrich_reason_unchanged option_text x correct_text summary :
  strip x = x ->
  ends_sentence x = true ->
  2 <= count_char "." x + count_char "!" x + count_char "?" x ->
  25 <= count_words x ->
  _enrich_reason option_text x correct_text summary = x.
Proof.
  intros Hstrip Hend Hmarks Hwords. unfold _enrich_reason. cbv zeta.
  rewrite Hstrip, Hend. cbn [negb]. rewrite andb_false_r.
  apply Nat.ltb_ge in Hmarks, Hwords. rewrite Hmarks, Hwords.
  cbn [orb]. exact Hstrip.
Qed.

(** ** [_normalize_reason_capital] *)

Lemma alpha_not_space c : is_alpha c = true -> is_space c = false.
Proof.
  destruct c as [[] [] [] [] [] [] [] []]; vm_compute; intro H;
    first [reflexivity | discriminate H].
Qed.

Lemma word_char_not_space c : is_word_char c = true -> is_space c = false.
Proof.
  destruct c as [[] [] [] [] [] [] [] []]; vm_compute; intro H;
    first [reflexivity | discriminate H].
Qed.

Lemma takewhile_dropwhile p (s : text) : takewhile p s ++ dropwhile p s = s.
Proof.
  induction s as [|c s IH]; cbn [takewhile dropwhile]; [reflexivity|].
  destruct (p c); cbn [app]; [now f_equal | reflexivity].
Qed.

Lemma forallb_takewhile p (s : text) : forallb p (takewhile p s) = true.
Proof.
  induction s as [|c s IH]; cbn [takewhile]; [reflexivity|].
  destruct (p c) eqn:E; cbn [forallb]; [now rewrite E | reflexivity].
Qed.

Lemma takewhile_all p (a b : text) :
  forallb p a = true -> head_kept p b -> takewhile p (a ++ b) = a.
Proof.
  intros Ha Hb. induction a as [|x a IH]; cbn [app takewhile].
  - destruct b as [|y b]; [reflexivity|]. cbn [head_kept] in Hb.
    cbn [takewhile]. now rewrite Hb.
  - cbn [forallb] in Ha. apply andb_prop in Ha as [Hx Ha].
    rewrite Hx. f_equal. now apply IH.
Qed.

Lemma dropwhile_all p (a b : text) :
  forallb p a = true -> head_kept p b -> dropwhile p (a ++ b) = b.
Proof.
  intros Ha Hb. induction a as [|x a IH]; cbn [app dropwhile].
  - now apply dropwhile_fixed.
  - cbn [forallb] in Ha. apply andb_prop in Ha as [Hx Ha].
    rewrite Hx. now apply IH.
Qed.

Lemma firstn_length_app (a b : text) : firstn (List.length a) (a ++ b) = a.
Proof.
  rewrite firstn_app, Nat.sub_diag, firstn_all. cbn [firstn].
  apply app_nil_r.
Qed.

Lemma skipn_length_app (a b : text) : skipn (List.length a) (a ++ b) = b.
Proof.
  rewrite skipn_app, Nat.sub_diag, skipn_all. reflexivity.
Qed.

Lemma find_char_app_none sep (a b : text) :
  find_char sep (a ++ b) = None ->
  find_char sep a = None /\ find_char sep b = None.
Proof.
  induction a as [|x a IH]; cbn [app find_char]; [ptauto|].
  destruct (Ascii.eqb x sep); [discriminate|].
  destruct (find_char sep (a ++ b)); [discriminate|].
  intros _. destruct (IH eq_refl) as [Ha Hb]. rewrite Ha. ptauto.
Qed.

Lemma partition_at_none sep s :
  find_char sep s = None -> partition_at sep s = (s, false, []).
Proof.
  induction s as [|c s IH]; cbn [find_char partition_at]; [reflexivity|].
  destruct (Ascii.eqb c sep); [discriminate|].
  destruct (find_char sep s); [discriminate|].
  intros _. now rewrite IH.
Qed.

Lemma partition_at_found sep (a b : text) :
  find_char sep a = None ->
  partition_at sep (a ++ sep :: b) = (a, true, b).
Proof.
  induction a as [|c a IH]; cbn [app find_char partition_at].
  - now rewrite Ascii.eqb_refl.
  - destruct (Ascii.eqb c sep); [discriminate|].
    destruct (find_char sep a); [discriminate|].
    intros _. now rewrite IH.
Qed.

Lemma leading_spaces_length (s : text) :
  List.length s - List.length (lstrip s) = List.length (takewhile is_space s).
Proof.
  unfold lstrip, lstrip_by.
  rewrite <- (takewhile_dropwhile is_space s) at 1.
  rewrite length_app. lia.
Qed.

Lemma match_word_found (w post : text) :
  w <> [] ->
  forallb is_word_char w = true ->
  head_kept is_word_char post ->
  match_word (w ++ post) = Some w.
Proof.
  intros Hw Hall Hpost. unfold match_word.
  rewrite takewhile_all by assumption.
  destruct w; [congruence | reflexivity].
Qed.

(** Go past the guard [if not text: return original] for a text that is
    visibly not empty. *)
Ltac past_empty_guard text :=
  let t := fresh "text" in
  let E := fresh "Etext" in
  unfold _normalize_reason_capital;
  remember text as t eqn:E in |- *;
  destruct t;
  [ exfalso; symmetry in E;
    repeat (cbn [txt list_ascii_of_string app] in E;
            first [ discriminate E | apply app_eq_nil in E as [_ E] ])
  | rewrite E; clear E ].

Lemma capital_no_colon_split ws mid c word post preserve :
  forallb is_space ws = true ->
  head_kept is_space (mid ++ [c]) ->
  forallb (fun x => negb (is_alpha x)) mid = true ->
  is_alpha c = true ->
  forallb is_word_char (c :: word) = true ->
  head_kept is_word_char post ->
  find_char ":" (ws ++ mid ++ c :: word ++ post) = None ->
  _normalize_reason_capital (ws ++ mid ++ c :: word ++ post) preserve =
    if mem_text (c :: word) preserve || teqb (lower (c :: word)) (txt "anda")
    then ws ++ mid ++ c :: word ++ post
    else ws ++ mid ++ lower_char c :: word ++ post.
Proof.
  intros Hws Hmid Hnonalpha Hc Hword Hpost Hcolon.
  set (working := mid ++ c :: word ++ post) in *.
  assert (Hhead : head_kept is_space working).
  { unfold working. destruct mid as [|m mid']; cbn [app head_kept] in *;
      assumption. }
  assert (Hcolon' : find_char ":" working = None)
    by now apply find_char_app_none in Hcolon.
  unfold working at 1.
  past_empty_guard (ws ++ mid ++ c :: word ++ post).
  fold working. cbv zeta.
  rewrite leading_spaces_length.
  rewrite (@takewhile_all is_space ws working Hws Hhead).
  rewrite skipn_length_app.
  rewrite partition_at_none by exact Hcolon'.
  cbn [andb].
  assert (Hidx : takewhile (fun x => negb (is_alpha x)) working = mid).
  { unfold working. apply takewhile_all; [assumption|].
    cbn [head_kept]. now rewrite Hc. }
  rewrite Hidx.
  assert (Hlen : (List.length working <=? List.length mid) = false).
  { apply Nat.leb_gt. unfold working. rewrite length_app. cbn [List.length]. lia. }
  rewrite Hlen.
  assert (Hskip : skipn (List.length mid) working = (c :: word) ++ post)
    by (unfold working; apply skipn_length_app).
  rewrite Hskip.
  rewrite match_word_found by (assumption || discriminate).
  destruct (mem_text (c :: word) preserve || teqb (lower (c :: word)) (txt "anda"));
    [reflexivity|].
  cbn [firstn skipn lower map app].
  assert (Hfirst : firstn (List.length ws + List.length mid) (ws ++ working)
                   = ws ++ mid).
  { unfold working. rewrite <- length_app, app_assoc.
    apply firstn_length_app. }
  assert (Hrest : skipn (List.length mid + List.length (c :: word)) working
                  = post).
  { unfold working. rewrite <- length_app.
    replace (mid ++ c :: word ++ post) with ((mid ++ c :: word) ++ post)
      by (rewrite <- app_assoc; reflexivity).
    apply skipn_length_app. }
  rewrite Hfirst, Hrest, <- app_assoc. reflexivity.
Qed.

Lemma forallb_dropwhile (q p : ascii -> bool) (s : text) :
  forallb q s = true -> forallb q (dropwhile p s) = true.
Proof.
  induction s as [|c s IH]; cbn [dropwhile]; [trivial|].
  intro H. destruct (p c); [|exact H].
  cbn [forallb] in H. apply andb_prop in H as [_ H]. now apply IH.
Qed.

(** The reason has no colon: the first letter of its first word is put in
    lower case, unless the word is preserved or is "Anda". *)
Lemma capital_without_colon pre c word post preserve :
  forallb (fun x => negb (is_alpha x)) pre = true ->
  is_alpha c = true ->
  forallb is_word_char (c :: word) = true ->
  head_kept is_word_char post ->
  find_char ":" (pre ++ c :: word ++ post) = None ->
  _normalize_reason_capital (pre ++ c :: word ++ post) preserve =
    if mem_text (c :: word) preserve || teqb (lower (c :: word)) (txt "anda")
    then pre ++ c :: word ++ post
    else pre ++ lower_char c :: word ++ post.
Proof.
  intros Hpre Hc Hword Hpost Hcolon.
  pose proof (takewhile_dropwhile is_space pre) as Hsplit.
  pose proof (forallb_takewhile is_space pre) as Hws.
  pose proof (dropwhile_head_kept is_space pre) as Hmid.
  pose proof (@forallb_dropwhile _ is_space pre Hpre) as Hna.
  set (ws := takewhile is_space pre) in *.
  set (mid := dropwhile is_space pre) in *.
  clearbody ws mid. subst pre.
  rewrite <- !app_assoc in *.
  apply capital_no_colon_split; try assumption.
  destruct mid; cbn [app head_kept] in *;
    [now apply alpha_not_space | exact Hmid].
Qed.

Lemma lower_a_not_space h : lower_char h = "a"%char -> is_space h = false.
Proof.
  destruct h as [[] [] [] [] [] [] [] []]; vm_compute; intro H;
    first [reflexivity | discriminate H].
Qed.

Lemma startswith_app_self (p r : text) : startswith p (p ++ r) = true.
Proof.
  induction p as [|x p IH]; cbn [app startswith]; [reflexivity|].
  now rewrite Ascii.eqb_refl, IH.
Qed.

Lemma lower_char_idempotent c : lower_char (lower_char c) = lower_char c.
Proof. destruct c as [[] [] [] [] [] [] [] []]; reflexivity. Qed.

Lemma lower_idempotent s : lower (lower s) = lower s.
Proof.
  unfold lower. rewrite map_map. apply map_ext. apply lower_char_idempotent.
Qed.

Lemma lower_app (a b : text) : lower (a ++ b) = lower a ++ lower b.
Proof. apply map_app. Qed.

(** The reason has a colon followed by more text: the first word after
    the colon (after white space and a leading "adalah ") is put in lower
    case, unless it is preserved or is "Anda"; a missing space after the
    colon is supplied. *)
Lemma capital_after_colon ws prefix gap aux w post preserve :
  forallb is_space ws = true ->
  head_kept is_space (prefix ++ txt ":") ->
  find_char ":" prefix = None ->
  forallb is_space gap = true ->
  (aux = [] /\ ci_startswith (txt "adalah ") (w ++ post) = false
   \/ lower aux = txt "adalah ") ->
  w <> [] ->
  forallb is_word_char w = true ->
  head_kept is_word_char post ->
  _normalize_reason_capital
    (ws ++ prefix ++ txt ":" ++ gap ++ aux ++ w ++ post) preserve
  = ws ++ prefix ++ txt ":"
    ++ (if nonempty gap then gap else txt " ")
    ++ (if negb (mem_text w preserve) && negb (teqb (lower w) (txt "anda"))
        then lower w else w)
    ++ post.
Proof.
  intros Hws Hprefix Hcolon Hgap Haux Hw Hword Hpost.
  past_empty_guard (ws ++ prefix ++ txt ":" ++ gap ++ aux ++ w ++ post).
  set (rest := w ++ post) in *.
  set (suffix := gap ++ aux ++ rest).
  set (working := prefix ++ txt ":" ++ suffix).
  assert (Hhead : head_kept is_space working).
  { unfold working. destruct prefix; cbn [app txt list_ascii_of_string head_kept] in *;
      assumption. }
  assert (Hrest_head : head_kept is_space rest).
  { unfold rest. destruct w as [|x w']; [congruence|].
    cbn [app head_kept forallb] in *. apply andb_prop in Hword as [Hx _].
    now apply word_char_not_space. }
  assert (Haux_head : head_kept is_space (aux ++ rest)).
  { destruct Haux as [[-> _] | Haux]; [exact Hrest_head|].
    destruct aux as [|h aux']; [discriminate Haux|].
    cbn [app head_kept]. apply lower_a_not_space.
    cbn [lower map txt list_ascii_of_string] in Haux. now injection Haux. }
  assert (Hadalah :
    (if ci_startswith (txt "adalah ") (aux ++ rest)
     then skipn 7 (aux ++ rest) else aux ++ rest) = rest).
  { destruct Haux as [[-> Hno] | Haux].
    - cbn [app]. fold rest in Hno. now rewrite Hno.
    - unfold ci_startswith. rewrite lower_app, Haux, startswith_app_self.
      assert (Hlen : List.length aux = 7)
        by (rewrite <- lower_length, Haux; reflexivity).
      rewrite <- Hlen. apply skipn_length_app. }
  cbv zeta.
  rewrite leading_spaces_length.
  rewrite (@takewhile_all is_space ws working Hws Hhead).
  rewrite skipn_length_app, firstn_length_app.
  unfold working at 1. change (txt ":" ++ suffix) with (":"%char :: suffix).
  rewrite partition_at_found by exact Hcolon.
  assert (Hsuffix : nonempty suffix = true).
  { unfold suffix, rest. destruct gap; [|reflexivity]. destruct aux; [|reflexivity].
    destruct w; [congruence | reflexivity]. }
  rewrite Hsuffix. cbn [andb].
  rewrite leading_spaces_length.
  assert (Hlstrip : lstrip suffix = aux ++ rest)
    by (unfold suffix, lstrip, lstrip_by; now apply dropwhile_all).
  assert (Htake : takewhile is_space suffix = gap)
    by (unfold suffix; now apply takewhile_all).
  rewrite Hlstrip, Htake, Hadalah.
  unfold suffix at 1. rewrite firstn_length_app.
  assert (Hmw : match_word rest = Some w)
    by (unfold rest; now apply match_word_found).
  assert (Hskip : skipn (List.length w) rest = post)
    by (unfold rest; apply skipn_length_app).
  rewrite !Hmw, !Hskip.
  destruct (negb (mem_text w preserve) && negb (teqb (lower w) (txt "anda"))).
  - destruct w as [|x w']; [congruence|].
    cbn [lower map app nonempty]. destruct gap; reflexivity.
  - unfold rest. destruct w as [|x w']; [congruence|].
    cbn [app nonempty]. destruct gap; reflexivity.
Qed.

(** No upper-case letter is made: the characters of the result come from
    the text, from [lower], or are the colon and the space. *)

Lemma in_firstn (n : nat) (s : text) x : In x (firstn n s) -> In x s.
Proof.
  intro H. rewrite <- (firstn_skipn n s). apply in_or_app. now left.
Qed.

Lemma in_skipn (n : nat) (s : text) x : In x (skipn n s) -> In x s.
Proof.
  intro H. rewrite <- (firstn_skipn n s). apply in_or_app. now right.
Qed.

Lemma in_part (t s : text) x : part t s -> In x t -> In x s.
Proof.
  intros [a [b ->]] H. apply in_or_app. right. apply in_or_app. now left.
Qed.

Lemma in_takewhile p (s : text) x : In x (takewhile p s) -> In x s.
Proof.
  intro H. rewrite <- (takewhile_dropwhile p s). apply in_or_app. now left.
Qed.

Lemma match_word_in s word x :
  match_word s = Some word -> In x word -> In x s.
Proof.
  unfold match_word. destruct (takewhile is_word_char s) as [|c w] eqn:E;
    [discriminate|].
  intro H. injection H as <-. rewrite <- E. apply in_takewhile.
Qed.

Lemma partition_at_in sep s a found q :
  partition_at sep s = (a, found, q) ->
  (forall x, In x a -> In x s) /\ (forall x, In x q -> In x s).
Proof.
  revert a found q. induction s as [|c s IH]; intros a found q;
    cbn [partition_at].
  - intro H. injection H as <- _ <-. split; intros x [].
  - destruct (Ascii.eqb c sep).
    + intro H. injection H as <- _ <-. split; [intros x [] | now right].
    + destruct (partition_at sep s) as [[a' found'] q'].
      destruct (IH a' found' q' eq_refl) as [Ha Hq].
      intro H. injection H as <- _ <-. split.
      * intros x [<- | Hx]; [now left | right; now apply Ha].
      * intros x Hx. right. now apply Hq.
Qed.

Lemma lower_char_not_upper c : is_upper (lower_char c) = false.
Proof. destruct c as [[] [] [] [] [] [] [] []]; reflexivity. Qed.

Lemma in_lower_not_upper (s : text) x : In x (lower s) -> is_upper x = false.
Proof.
  unfold lower. rewrite in_map_iff. intros [c [<- _]].
  apply lower_char_not_upper.
Qed.

Lemma normalize_reason_capital_no_new_capital text preserve_tokens x :
  In x (_normalize_reason_capital text preserve_tokens) ->
  In x text \/ is_upper x = false.
Proof.
  unfold _normalize_reason_capital.
  destruct text as [|t0 text0]; [now left|].
  set (text := t0 :: text0). cbv zeta.
  set (leading := List.length text - List.length (lstrip text)).
  destruct (partition_at ":" (skipn leading text)) as [[prefix sep] suffix] eqn:Hp.
  destruct (partition_at_in _ _ Hp) as [Hprefix Hsuffix].
  assert (Hsuf : forall y, In y suffix -> In y text)
    by (intros y Hy; eapply in_skipn, Hsuffix, Hy).
  assert (Hlstrip : forall y, In y (lstrip suffix) -> In y text).
  { intros y Hy. apply Hsuf. eapply in_part; [apply part_dropwhile | exact Hy]. }
  destruct (sep && nonempty suffix).
  - set (rest0 := if ci_startswith (txt "adalah ") (lstrip suffix)
                  then skipn 7 (lstrip suffix) else lstrip suffix).
    assert (Hrest0 : forall y, In y rest0 -> In y text).
    { intros y Hy. apply Hlstrip. unfold rest0 in Hy.
      destruct (ci_startswith _ _); [now apply in_skipn in Hy | exact Hy]. }
    set (rest1 := match match_word rest0 with
                  | Some word =>
                      if negb (mem_text word preserve_tokens)
                         && negb (teqb (lower word) (txt "anda"))
                      then lower word ++ skipn (List.length word) rest0
                      else rest0
                  | None => rest0
                  end).
    assert (Hrest1 : forall y, In y rest1 -> In y text \/ is_upper y = false).
    { intros y Hy. unfold rest1 in Hy.
      destruct (match_word rest0) as [word|]; [|left; now apply Hrest0].
      destruct (negb _ && _); [|left; now apply Hrest0].
      apply in_app_or in Hy as [Hy | Hy].
      - right. now apply in_lower_not_upper in Hy.
      - left. apply Hrest0. now apply in_skipn in Hy. }
    destruct rest1 as [|r0 rest1'] eqn:Hr; [now left|]. rewrite <- Hr.
    intro H. repeat (apply in_app_or in H as [H | H]).
    + left. now apply in_firstn in H.
    + left. eapply in_skipn, Hprefix, H.
    + right. destruct H as [<- | []]. reflexivity.
    + destruct (firstn _ suffix) as [|s0 sp] eqn:Hsp.
      * right. destruct H as [<- | []]. reflexivity.
      * left. apply Hsuf. apply (in_firstn (List.length suffix
                                 - List.length (lstrip suffix))).
        rewrite Hsp. exact H.
    + apply Hrest1. rewrite <- Hr. exact H.
  - destruct (List.length _ <=? _); [now left|].
    destruct (match_word _) as [word|] eqn:Hw; [|now left].
    destruct (mem_text word preserve_tokens || _); [now left|].
    intro H. repeat (apply in_app_or in H as [H | H]).
    + left. now apply in_firstn in H.
    + right. now apply in_lower_not_upper in H.
    + left. apply in_skipn in H.
      eapply in_skipn, in_skipn, match_word_in; [exact Hw | exact H].
    + left. eapply in_skipn, in_skipn, H.
Qed.

(** ** The normalization sequence on its own output *)

Lemma normalize_reason_unchanged option_text correct_text summary x :
  strip x = x ->
  ends_sentence x = true ->
  strip_prefix_round x = x ->
  strip option_text = []
  \/ startswith (lower (strip option_text)) (lower x) = false ->
  2 <= count_char "." x + count_char "!" x + count_char "?" x ->
  25 <= count_words x ->
  normalize_reason option_text correct_text summary x = x.
Proof.
  intros Hstrip Hend Hround Hecho Hmarks Hwords.
  unfold normalize_reason. cbv zeta.
  assert (Hprefix : _strip_reason_prefix x = x).
  { unfold _strip_reason_prefix. cbv zeta. rewrite Hstrip.
    cbn [strip_prefix_loop]. cbv zeta. now rewrite Hround, teqb_refl. }
  assert (Hoption : _strip_option_echo x option_text = x).
  { unfold _strip_option_echo. cbv zeta. rewrite Hstrip.
    destruct Hecho as [-> | Hecho]; [reflexivity|].
    destruct (strip option_text); [reflexivity|].
    cbn [strip_echo_loop]. cbv zeta. now rewrite Hecho. }
  rewrite Hprefix, Hoption. now apply enrich_reason_unchanged.
Qed.

(** C8 (amended).  Prefix stripping is idempotent and option-echo
    stripping is idempotent.  The whole sequence (prefix stripping,
    option-echo stripping, enrichment) returns its own output [x] unchanged
    when a round of prefix stripping changes nothing on [x], [x] does not
    start with the option text, and [x] has at least two sentence marks and
    at least 25 words. *)
Theorem reason_normalisers_stable_on_own_output
  (option_text correct_text summary reason : text) :
  _strip_reason_prefix (_strip_reason_prefix reason)
    = _strip_reason_prefix reason
  /\ _strip_option_echo (_strip_option_echo reason option_text) option_text
    = _strip_option_echo reason option_text
  /\ (let x := normalize_reason option_text correct_text summary reason in
      strip_prefix_round x = x ->
      strip option_text = []
      \/ startswith (lower (strip option_text)) (lower x) = false ->
      2 <= count_char "." x + count_char "!" x + count_char "?" x ->
      25 <= count_words x ->
      normalize_reason option_text correct_text summary x = x).
Proof.
  split; [apply strip_reason_prefix_idempotent|].
  split; [apply strip_option_echo_idempotent|].
  intros x Hround Hecho Hmarks Hwords.
  apply normalize_reason_unchanged; try assumption.
  - apply enrich_reason_stripped.
  - apply enrich_reason_nonempty_punctuated.
Qed.

(** C9 (amended).  [_normalize_reason_capital] puts no letter in upper
    case: an upper-case letter of its result is a character of the text.
    It acts on one word: when the reason has no colon, the first word of
    the reason; when the reason has a colon followed by more text, the
    first word after that colon (after white space and a leading
    "adalah ", which is dropped; a missing space after the colon is
    supplied).  The word is left as it is when it is one of the preserved
    tokens or is "Anda" in any case; otherwise its first letter is put in
    lower case.  Nothing else changes, up to the case of the other letters
    of that word. *)
Theorem reason_capital_lowercases_first_word (preserve : list text) :
  (forall pre c word post,
      forallb (fun x => negb (is_alpha x)) pre = true ->
      is_alpha c = true ->
      forallb is_word_char (c :: word) = true ->
      head_kept is_word_char post ->
      find_char ":" (pre ++ c :: word ++ post) = None ->
      exists first others,
        _normalize_reason_capital (pre ++ c :: word ++ post) preserve
        = pre ++ first :: others ++ post
        /\ lower others = lower word
        /\ if mem_text (c :: word) preserve
              || teqb (lower (c :: word)) (txt "anda")
           then first = c /\ others = word
           else first = lower_char c)
  /\ (forall ws prefix gap aux c word post,
        forallb is_space ws = true ->
        head_kept is_space (prefix ++ txt ":") ->
        find_char ":" prefix = None ->
        forallb is_space gap = true ->
        (aux = [] /\ ci_startswith (txt "adalah ") (c :: word ++ post) = false
         \/ lower aux = txt "adalah ") ->
        forallb is_word_char (c :: word) = true ->
        head_kept is_word_char post ->
        exists first others,
          _normalize_reason_capital
            (ws ++ prefix ++ txt ":" ++ gap ++ aux ++ c :: word ++ post)
            preserve
          = ws ++ prefix ++ txt ":"
            ++ (if nonempty gap then gap else txt " ")
            ++ first :: others ++ post
          /\ lower others = lower word
          /\ if mem_text (c :: word) preserve
                || teqb (lower (c :: word)) (txt "anda")
             then first = c /\ others = word
             else first = lower_char c)
  /\ (forall text x,
        In x (_normalize_reason_capital text preserve) ->
        is_upper x = true -> In x text).
Proof.
  split; [|split].
  - intros pre c word post Hpre Hc Hword Hpost Hcolon.
    rewrite capital_without_colon by assumption.
    destruct (mem_text (c :: word) preserve
              || teqb (lower (c :: word)) (txt "anda")).
    + exists c, word. repeat split.
    + exists (lower_char c), word. repeat split.
  - intros ws prefix gap aux c word post Hws Hprefix Hcolon Hgap Haux Hword
           Hpost.
    pose proof (@capital_after_colon ws prefix gap aux (c :: word) post
                  preserve Hws Hprefix Hcolon Hgap Haux
                  ltac:(discriminate) Hword Hpost) as Hrun.
    change ((c :: word) ++ post) with (c :: word ++ post) in Hrun.
    rewrite Hrun.
    destruct (mem_text (c :: word) preserve) eqn:Hmem;
      destruct (teqb (lower (c :: word)) (txt "anda")) eqn:Handa;
      cbn [negb andb orb].
    + exists c, word. repeat split.
    + exists c, word. repeat split.
    + exists c, word. repeat split.
    + exists (lower_char c), (lower word). split; [reflexivity|].
      split; [apply lower_idempotent | reflexivity].
  - intros text x Hin Hup.
    destruct (normalize_reason_capital_no_new_capital _ _ _ Hin) as [H | H];
      [exact H | congruence].
Qed.

(* ================================================================== *)
(** * Further properties of the pipeline *)
(* ================================================================== *)

#[local] Unset Implicit Arguments.

(** ** White space after cleaning *)

Lemma single_spaced_weaken s :
  single_spaced_from true s -> single_spaced_from false s.
Proof.
  destruct s as [|c s]; cbn [single_spaced_from]; [trivial|].
  destruct (is_space c); [|trivial]. intros [_ [H _]]. discriminate H.
Qed.

Lemma single_spaced_any b s :
  single_spaced_from b s -> single_spaced_from false s.
Proof. destruct b; [apply single_spaced_weaken | trivial]. Qed.

Lemma collapse_ws_from_single_spaced b s :
  single_spaced_from b (collapse_ws_from b s).
Proof.
  revert b. induction s as [|c s IH]; intro b; cbn [collapse_ws_from];
    [exact I|].
  destruct (is_space c) eqn:Hc.
  - destruct b; [apply IH|].
    cbn [single_spaced_from].
    change (is_space " ") with true. cbv iota.
    split; [reflexivity|]. split; [reflexivity | apply IH].
  - destruct b; cbn [single_spaced_from]; rewrite Hc; apply IH.
Qed.

Lemma single_spaced_app_l b (s t : text) :
  single_spaced_from b (s ++ t) -> single_spaced_from b s.
Proof.
  revert b. induction s as [|c s IH]; intro b; cbn [app single_spaced_from];
    [trivial|].
  destruct (is_space c).
  - intros [H1 [H2 H3]]. split; [exact H1|]. split; [exact H2 | now apply IH].
  - apply IH.
Qed.

Lemma single_spaced_app_r b (s t : text) :
  single_spaced_from b (s ++ t) -> single_spaced_from false t.
Proof.
  revert b. induction s as [|c s IH]; intro b; cbn [app single_spaced_from].
  - apply single_spaced_any.
  - destruct (is_space c).
    + intros [_ [_ H]]. now apply IH in H.
    + apply IH.
Qed.

Lemma single_spaced_part b (t s : text) :
  part t s -> single_spaced_from b s -> single_spaced_from false t.
Proof.
  intros [a [c ->]] H. apply single_spaced_app_r in H.
  now apply single_spaced_app_l in H.
Qed.

Lemma single_spaced_space b s c :
  single_spaced_from b s -> In c s -> is_space c = true -> c = " "%char.
Proof.
  revert b. induction s as [|x s IH]; intros b H Hin Hc; [contradiction|].
  cbn [single_spaced_from] in H. destruct Hin as [-> | Hin].
  - rewrite Hc in H. now destruct H.
  - destruct (is_space x).
    + destruct H as [_ [_ H]]. now apply (IH true).
    + now apply (IH false).
Qed.

Lemma single_spaced_no_pair b (a t : text) :
  single_spaced_from b (a ++ " "%char :: " "%char :: t) -> False.
Proof.
  intro H. apply single_spaced_app_r in H.
  cbn [single_spaced_from] in H.
  change (is_space " ") with true in H. cbv iota in H.
  destruct H as [_ [_ [_ [H _]]]]. discriminate H.
Qed.

Lemma collapse_ws_single_spaced b s :
  single_spaced_from b s -> collapse_ws_from b s = s.
Proof.
  revert b. induction s as [|c s IH]; intros b H; cbn [collapse_ws_from];
    [reflexivity|].
  cbn [single_spaced_from] in H. destruct (is_space c).
  - destruct H as [-> [-> H]]. f_equal. now apply IH.
  - f_equal. now apply IH.
Qed.

Lemma sanitize_text_single_spaced value :
  single_spaced_from false (_sanitize_text value).
Proof.
  unfold _sanitize_text. cbv zeta.
  eapply single_spaced_part; [apply part_strip|].
  apply (collapse_ws_from_single_spaced false).
Qed.

(** X1.  Whatever [html.unescape] does, the text that [_sanitize_text]
    returns has no white space at either end, every white-space character
    in it is a plain space (so it holds no newline, carriage return or tab),
    and no two spaces stand side by side. *)
Theorem sanitized_text_is_single_spaced (value : text) :
  let cleaned := _sanitize_text value in
  strip cleaned = cleaned
  /\ Forall (fun c => is_space c = true -> c = " "%char) cleaned
  /\ ~ part (txt "  ") cleaned.
Proof.
  cbv zeta. pose proof (sanitize_text_single_spaced value) as H.
  split; [|split].
  - unfold _sanitize_text. cbv zeta. apply strip_idempotent.
  - apply Forall_forall. intros c Hin Hc.
    exact (@single_spaced_space false _ c H Hin Hc).
  - intros [a [b E]]. rewrite E in H.
    exact (@single_spaced_no_pair false a b H).
Qed.

(** ** Substitution where the pattern does not match *)

Lemma re_sub_unmatched m repl s :
  unmatched m s -> re_sub_from m repl 0 s = s.
Proof.
  induction s as [|c s IH]; cbn [re_sub_from unmatched]; [reflexivity|].
  intros [Hm Hs]. rewrite Hm. f_equal. now apply IH.
Qed.

Lemma unmatched_app_r m (a s : text) : unmatched m (a ++ s) -> unmatched m s.
Proof.
  induction a as [|c a IH]; cbn [app unmatched]; [trivial|].
  intros [_ H]. now apply IH.
Qed.

Lemma re_sub_skip m repl (a b : text) :
  re_sub_from m repl (List.length a) (a ++ b) = re_sub_from m repl 0 b.
Proof.
  induction a as [|c a IH]; cbn [List.length app re_sub_from]; [|exact IH].
  destruct b; reflexivity.
Qed.

Lemma re_sub_from_match m repl c (s : text) n :
  m (c :: s) = Some (S n) ->
  re_sub_from m repl 0 (c :: s)
  = repl (firstn (S n) (c :: s)) ++ re_sub_from m repl n s.
Proof. intro H. cbn [re_sub_from]. now rewrite H. Qed.

(** ** Markup tags after cleaning *)

Lemma match_tag_none c r :
  match_tag (c :: r) = None <->
  Ascii.eqb c "<" = false \/ find_char ">" r = None \/ find_char ">" r = Some 0.
Proof.
  unfold match_tag.
  destruct (Ascii.eqb c "<"); [|split; [now left | reflexivity]].
  destruct (find_char ">" r) as [[|j]|].
  - split; [intros _; right; now right | reflexivity].
  - split; [discriminate|].
    intros [H | [H | H]]; discriminate H.
  - split; [intros _; right; now left | reflexivity].
Qed.

Lemma find_char_cons_none sep c (s : text) :
  find_char sep (c :: s) = None <->
  Ascii.eqb c sep = false /\ find_char sep s = None.
Proof.
  cbn [find_char]. destruct (Ascii.eqb c sep).
  - split; [discriminate | intros [H _]; discriminate H].
  - destruct (find_char sep s); cbn [option_map];
      split; try discriminate; try (intros [_ H]; discriminate H).
    + now split.
    + reflexivity.
Qed.

Lemma find_char_zero sep (s : text) :
  find_char sep s = Some 0 -> exists r, s = sep :: r.
Proof.
  destruct s as [|c s]; cbn [find_char]; [discriminate|].
  destruct (Ascii.eqb c sep) eqn:E.
  - apply Ascii.eqb_eq in E. subst c. intros _. now exists s.
  - destruct (find_char sep s); discriminate.
Qed.

Lemma strip_tags_keeps_no_close k s :
  find_char ">" s = None ->
  find_char ">" (re_sub_from match_tag (fun _ => txt " ") k s) = None.
Proof.
  revert k. induction s as [|c s IH]; intros k H; cbn [re_sub_from];
    [reflexivity|].
  apply find_char_cons_none in H as [Hc Hs].
  destruct k as [|k]; [|now apply IH].
  destruct (match_tag (c :: s)) as [[|n]|].
  - apply find_char_cons_none. split; [exact Hc | now apply IH].
  - cbn [txt list_ascii_of_string app].
    apply find_char_cons_none. split; [reflexivity | now apply IH].
  - apply find_char_cons_none. split; [exact Hc | now apply IH].
Qed.

Lemma strip_tags_unmatched k s :
  unmatched match_tag (re_sub_from match_tag (fun _ => txt " ") k s).
Proof.
  revert k. induction s as [|c s IH]; intro k; cbn [re_sub_from]; [exact I|].
  destruct k as [|k]; [|apply IH].
  assert (Hkeep : match_tag (c :: s) = None \/ match_tag (c :: s) = Some 0 ->
                  unmatched match_tag
                    (c :: re_sub_from match_tag (fun _ => txt " ") 0 s)).
  { intro Hm. cbn [unmatched]. split; [|apply IH].
    apply match_tag_none.
    destruct (Ascii.eqb c "<") eqn:Hc; [right | now left].
    assert (Hfind : find_char ">" s = None \/ find_char ">" s = Some 0).
    { unfold match_tag in Hm. rewrite Hc in Hm.
      destruct (find_char ">" s) as [[|j]|]; [now right | | now left].
      destruct Hm as [Hm | Hm]; [discriminate Hm|].
      injection Hm as Hm. lia. }
    destruct Hfind as [Hnone | Hzero].
    - left. now apply strip_tags_keeps_no_close.
    - right. destruct (find_char_zero _ _ Hzero) as [r ->].
      cbn [re_sub_from].
      change (match_tag (">"%char :: r)) with (@None nat). cbv iota.
      cbn [find_char]. now rewrite Ascii.eqb_refl. }
  destruct (match_tag (c :: s)) as [[|n]|] eqn:Hm.
  - apply Hkeep. now right.
  - cbn [txt list_ascii_of_string app unmatched]. split; [reflexivity | apply IH].
  - apply Hkeep. now left.
Qed.

Lemma find_char_map (f : ascii -> ascii) sep (s : text) :
  (forall c, Ascii.eqb (f c) sep = Ascii.eqb c sep) ->
  find_char sep (map f s) = find_char sep s.
Proof.
  intro Hf. induction s as [|c s IH]; cbn [map find_char]; [reflexivity|].
  now rewrite Hf, IH.
Qed.

Lemma unmatched_tag_map (f : ascii -> ascii) (s : text) :
  (forall c, Ascii.eqb (f c) "<" = Ascii.eqb c "<") ->
  (forall c, Ascii.eqb (f c) ">" = Ascii.eqb c ">") ->
  unmatched match_tag s -> unmatched match_tag (map f s).
Proof.
  intros Hlt Hgt. induction s as [|c s IH]; cbn [map unmatched]; [trivial|].
  intros [Hm Hs]. split; [|now apply IH].
  apply match_tag_none. apply match_tag_none in Hm.
  now rewrite Hlt, find_char_map.
Qed.

Lemma replace_char_keeps (a b x c : ascii) :
  Ascii.eqb a x = false -> Ascii.eqb b x = false ->
  Ascii.eqb (if Ascii.eqb c a then b else c) x = Ascii.eqb c x.
Proof.
  intros Ha Hb. destruct (Ascii.eqb c a) eqn:E; [|reflexivity].
  apply Ascii.eqb_eq in E. subst c. now rewrite Ha, Hb.
Qed.

Lemma collapse_ws_keeps_no_close b s :
  find_char ">" s = None -> find_char ">" (collapse_ws_from b s) = None.
Proof.
  revert b. induction s as [|c s IH]; intros b H; cbn [collapse_ws_from];
    [reflexivity|].
  apply find_char_cons_none in H as [Hc Hs].
  destruct (is_space c).
  - destruct b; [now apply IH|].
    apply find_char_cons_none. split; [reflexivity | now apply IH].
  - apply find_char_cons_none. split; [exact Hc | now apply IH].
Qed.

Lemma unmatched_tag_collapse b s :
  unmatched match_tag s -> unmatched match_tag (collapse_ws_from b s).
Proof.
  revert b. induction s as [|c s IH]; intros b; cbn [collapse_ws_from unmatched];
    [trivial|].
  intros [Hm Hs]. destruct (is_space c) eqn:Hsp.
  - destruct b; [now apply IH|].
    cbn [unmatched]. split; [reflexivity | now apply IH].
  - cbn [unmatched]. split; [|now apply IH].
    apply match_tag_none. apply match_tag_none in Hm.
    destruct Hm as [Hm | [Hm | Hm]]; [now left | |].
    + right. left. now apply collapse_ws_keeps_no_close.
    + right. right. destruct (find_char_zero _ _ Hm) as [r ->].
      cbn [collapse_ws_from]. change (is_space ">") with false. cbv iota.
      cbn [find_char]. now rewrite Ascii.eqb_refl.
Qed.

Lemma unmatched_tag_app_l (s t : text) :
  unmatched match_tag (s ++ t) -> unmatched match_tag s.
Proof.
  induction s as [|c s IH]; cbn [app unmatched]; [trivial|].
  intros [Hm Hs]. split; [|now apply IH].
  apply match_tag_none. apply match_tag_none in Hm.
  destruct Hm as [Hm | [Hm | Hm]]; [now left | |].
  - right. left. now apply find_char_app_none in Hm.
  - right. destruct s as [|x s]; [now left|]. right.
    destruct (find_char_zero _ _ Hm) as [r E]. cbn [app] in E.
    injection E as -> _. cbn [find_char]. now rewrite Ascii.eqb_refl.
Qed.

Lemma unmatched_tag_part (t s : text) :
  part t s -> unmatched match_tag s -> unmatched match_tag t.
Proof.
  intros [a [b ->]] H. apply unmatched_app_r in H.
  now apply unmatched_tag_app_l in H.
Qed.

Lemma sanitize_text_unmatched value :
  unmatched match_tag (_sanitize_text value).
Proof.
  unfold _sanitize_text. cbv zeta.
  eapply unmatched_tag_part; [apply part_strip|].
  apply unmatched_tag_collapse.
  unfold replace_char.
  apply unmatched_tag_map;
    [intro c; now apply replace_char_keeps
    |intro c; now apply replace_char_keeps|].
  apply unmatched_tag_map;
    [intro c; now apply replace_char_keeps
    |intro c; now apply replace_char_keeps|].
  apply strip_tags_unmatched.
Qed.


Lemma map_fixed (f : ascii -> ascii) (s : text) :
  (forall c, In c s -> f c = c) -> map f s = s.
Proof.
  induction s as [|c s IH]; intro H; cbn [map]; [reflexivity|].
  rewrite H by now left. f_equal. apply IH. intros x Hx. apply H. now right.
Qed.

Lemma sanitize_text_fixed_point x :
  html_unescape x = x ->
  unmatched match_tag x ->
  single_spaced_from false x ->
  strip x = x ->
  _sanitize_text x = x.
Proof.
  intros Hun Htag Hsp Hstrip. unfold _sanitize_text. cbv zeta.
  rewrite Hun. unfold strip_tags, re_sub.
  rewrite re_sub_unmatched by exact Htag.
  assert (Hplain : forall a, is_space a = true -> a <> " "%char ->
                             replace_char a " " x = x).
  { intros a Ha Hne. apply map_fixed. intros c Hc.
    destruct (Ascii.eqb c a) eqn:E; [|reflexivity].
    apply Ascii.eqb_eq in E. subst c.
    exfalso. apply Hne. exact (@single_spaced_space false x a Hsp Hc Ha). }
  rewrite (Hplain LF) by (reflexivity || discriminate).
  rewrite (Hplain CR) by (reflexivity || discriminate).
  unfold collapse_ws. rewrite collapse_ws_single_spaced by exact Hsp.
  exact Hstrip.
Qed.

(** X2.  The text that [_sanitize_text] returns holds no markup tag (no '<'
    followed by one or more characters other than '>' and then '>'):
    removing tags from it once more leaves it as it is.  And sanitizing is
    idempotent on every text that it returns and that [html.unescape] does
    not change: when the sanitized text holds no character reference that
    would be decoded, sanitizing it again gives the same text. *)
Theorem sanitized_text_is_stable (value : text) :
  strip_tags (_sanitize_text value) = _sanitize_text value
  /\ (html_unescape (_sanitize_text value) = _sanitize_text value ->
      _sanitize_text (_sanitize_text value) = _sanitize_text value).
Proof.
  split.
  - apply re_sub_unmatched, sanitize_text_unmatched.
  - intro H. apply sanitize_text_fixed_point.
    + exact H.
    + apply sanitize_text_unmatched.
    + apply sanitize_text_single_spaced.
    + unfold _sanitize_text. cbv zeta. apply strip_idempotent.
Qed.

(** ** Labels *)

Lemma is_space_lower_char c : is_space (lower_char c) = is_space c.
Proof. destruct c as [[] [] [] [] [] [] [] []]; reflexivity. Qed.

Lemma collapse_ws_lower b s :
  collapse_ws_from b (lower s) = lower (collapse_ws_from b s).
Proof.
  revert b. induction s as [|c s IH]; intro b;
    cbn [lower map collapse_ws_from]; [reflexivity|].
  rewrite is_space_lower_char. fold (lower s).
  destruct (is_space c).
  - destruct b; [apply IH|]. cbn [map]. f_equal. apply IH.
  - cbn [map]. f_equal. apply IH.
Qed.

Lemma dropwhile_space_lower s :
  dropwhile is_space (lower s) = lower (dropwhile is_space s).
Proof.
  induction s as [|c s IH]; cbn [lower map dropwhile]; [reflexivity|].
  rewrite is_space_lower_char. fold (lower s).
  destruct (is_space c); [exact IH | reflexivity].
Qed.

Lemma strip_lower s : strip (lower s) = lower (strip s).
Proof.
  unfold strip, rstrip, rstrip_by, lstrip, lstrip_by.
  rewrite dropwhile_space_lower.
  unfold lower at 1. rewrite <- map_rev. fold (lower (rev (dropwhile is_space s))).
  rewrite dropwhile_space_lower. unfold lower. now rewrite map_rev.
Qed.

Lemma collapse_ws_idempotent s : collapse_ws (collapse_ws s) = collapse_ws s.
Proof.
  unfold collapse_ws. apply collapse_ws_single_spaced.
  apply collapse_ws_from_single_spaced.
Qed.

Lemma collapse_ws_stripped s :
  collapse_ws (strip (collapse_ws s)) = strip (collapse_ws s).
Proof.
  unfold collapse_ws at 1. apply collapse_ws_single_spaced.
  eapply single_spaced_part; [apply part_strip|].
  apply (collapse_ws_from_single_spaced false).
Qed.

(** White space at the start does not count for [collapse_ws] followed by
    [lstrip]. *)
Lemma lstrip_collapse_ws b b' s :
  dropwhile is_space (collapse_ws_from b s)
  = collapse_ws_from b' (dropwhile is_space s).
Proof.
  revert b b'. induction s as [|c s IH]; intros b b';
    cbn [collapse_ws_from dropwhile]; [reflexivity|].
  destruct (is_space c) eqn:Hc.
  - destruct b; [apply IH|].
    cbn [dropwhile]. change (is_space " ") with true. cbv iota. apply IH.
  - cbn [dropwhile collapse_ws_from]. now rewrite Hc.
Qed.

Lemma dropwhile_app_nil p (a b : text) :
  dropwhile p a = [] -> dropwhile p (a ++ b) = dropwhile p b.
Proof.
  induction a as [|c a IH]; cbn [dropwhile app]; [trivial|].
  destruct (p c); [exact IH | discriminate].
Qed.

Lemma dropwhile_app_cons p (a b : text) :
  dropwhile p a <> [] -> dropwhile p (a ++ b) = dropwhile p a ++ b.
Proof.
  induction a as [|c a IH]; cbn [dropwhile app]; [congruence|].
  destruct (p c); [exact IH | reflexivity].
Qed.

Lemma rstrip_by_cons p c (s : text) :
  rstrip_by p (c :: s) =
  match rstrip_by p s with
  | [] => if p c then [] else [c]
  | (_ :: _) as r => c :: r
  end.
Proof.
  unfold rstrip_by. cbn [rev].
  destruct (dropwhile p (rev s)) as [|x r] eqn:E.
  - rewrite dropwhile_app_nil by exact E. cbn [dropwhile rev].
    destruct (p c); reflexivity.
  - rewrite dropwhile_app_cons by (rewrite E; discriminate).
    rewrite E, rev_app_distr. cbn [rev app].
    destruct (rev r ++ [x]) as [|y r'] eqn:E'; [|reflexivity].
    now destruct (rev r).
Qed.

Lemma collapse_ws_keeps_text b s c :
  In c s -> is_space c = false -> In c (collapse_ws_from b s).
Proof.
  revert b. induction s as [|x s IH]; intros b Hin Hc; [contradiction|].
  cbn [collapse_ws_from]. destruct Hin as [-> | Hin].
  - rewrite Hc. now left.
  - destruct (is_space x).
    + destruct b; [now apply IH | right; now apply IH].
    + right. now apply IH.
Qed.

Lemma rstrip_by_holds_text p (s : text) :
  rstrip_by p s <> [] -> exists c, In c (rstrip_by p s) /\ p c = false.
Proof.
  intro H. pose proof (rstrip_by_last_kept p s) as Hk.
  destruct (rev (rstrip_by p s)) as [|c r] eqn:E.
  - exfalso. apply H. rewrite <- (rev_involutive (rstrip_by p s)), E.
    reflexivity.
  - exists c. split; [|exact Hk].
    apply in_rev. rewrite E. now left.
Qed.

(** White space at the end does not count for [collapse_ws] followed by
    [rstrip]. *)
Lemma rstrip_collapse_ws b s :
  rstrip_by is_space (collapse_ws_from b s)
  = collapse_ws_from b (rstrip_by is_space s).
Proof.
  revert b. induction s as [|c s IH]; intro b; [reflexivity|].
  rewrite rstrip_by_cons.
  assert (Hne : rstrip_by is_space s <> [] ->
                forall b', collapse_ws_from b' (rstrip_by is_space s) <> []).
  { intros H b'. destruct (rstrip_by_holds_text _ _ H) as [x [Hx Hsp]].
    intro E. pose proof (@collapse_ws_keeps_text b' _ _ Hx Hsp) as Hin.
    rewrite E in Hin. contradiction. }
  remember (rstrip_by is_space s) as R eqn:HR.
  assert (Hcases : R = [] \/ R <> [])
    by (destruct R; [now left | right; discriminate]).
  destruct Hcases as [-> | Hsome].
  - (* only white space follows *)
    cbn [collapse_ws_from]. destruct (is_space c) eqn:Hc.
    + cbn [collapse_ws_from]. destruct b; [now rewrite IH|].
      rewrite rstrip_by_cons, IH. reflexivity.
    + rewrite rstrip_by_cons, IH. cbn [collapse_ws_from]. now rewrite Hc.
  - destruct R as [|y r]; [congruence|]. cbv iota.
    remember (y :: r) as R eqn:ER. clear ER HR y r.
    cbn [collapse_ws_from].
    destruct (is_space c) eqn:Hc.
    + destruct b; [apply IH|].
      rewrite rstrip_by_cons, IH.
      pose proof (Hne Hsome true) as Hfull.
      destruct (collapse_ws_from true R); [congruence | reflexivity].
    + rewrite rstrip_by_cons, IH, Hc.
      destruct (collapse_ws_from false R); reflexivity.
Qed.

Lemma strip_collapse_ws s : strip (collapse_ws s) = collapse_ws (strip s).
Proof.
  unfold strip, rstrip, lstrip, lstrip_by, collapse_ws.
  rewrite (lstrip_collapse_ws false false). apply rstrip_collapse_ws.
Qed.

(** X3.  [_normalize_label] gives a canonical form of a category label:
    normalizing its own answer changes nothing, and the answer does not
    depend on the letter case of the label, on white space around it, or on
    how many white-space characters separate its words. *)
Theorem normalized_label_is_canonical (value : cell) (s : text) :
  _normalize_label (CText (_normalize_label value)) = _normalize_label value
  /\ _normalize_label (CText (lower s)) = _normalize_label (CText s)
  /\ _normalize_label (CText (strip s)) = _normalize_label (CText s)
  /\ _normalize_label (CText (collapse_ws s)) = _normalize_label (CText s).
Proof.
  assert (Hidem : forall t,
            lower (strip (collapse_ws (lower (strip (collapse_ws t)))))
            = lower (strip (collapse_ws t))).
  { intro t. unfold collapse_ws at 1.
    rewrite collapse_ws_lower. fold (collapse_ws (strip (collapse_ws t))).
    rewrite collapse_ws_stripped, strip_lower, strip_idempotent.
    apply lower_idempotent. }
  split; [|split; [|split]].
  - destruct value; cbn [_normalize_label cell_str];
      first [reflexivity | apply Hidem].
  - cbn [_normalize_label cell_str]. unfold collapse_ws.
    rewrite collapse_ws_lower, strip_lower. apply lower_idempotent.
  - cbn [_normalize_label cell_str]. f_equal.
    now rewrite <- strip_collapse_ws, strip_idempotent.
  - cbn [_normalize_label cell_str]. now rewrite collapse_ws_idempotent.
Qed.

(** ** The category flags *)

Lemma startswith_figural_not_numerik s :
  startswith (txt "figural") s = true -> startswith (txt "numerik") s = false.
Proof.
  intro H. destruct (startswith (txt "numerik") s) eqn:E; [|reflexivity].
  apply startswith_numerik_not_figural in E. congruence.
Qed.

(** X4.  The category flags that select the prompt variant and the document
    layout exclude each other: for every category and sub-category at most
    one of numeric, syllogism, analogy and analytic holds, and a row that
    [_should_skip_row] excludes has none of them. *)
Theorem category_flags_exclude_each_other
  (category_value sub_category_value : cell) :
  let flags :=
    [ _is_tiu_numerik category_value sub_category_value;
      _is_verbal_silogisme category_value sub_category_value;
      _is_verbal_analogi category_value sub_category_value;
      _is_verbal_analitis category_value sub_category_value ] in
  List.length (filter (fun flag : bool => flag) flags) <= 1
  /\ (_should_skip_row category_value sub_category_value <> None ->
      filter (fun flag : bool => flag) flags = []).
Proof.
  unfold _is_tiu_numerik, _is_verbal_silogisme, _is_verbal_analogi,
    _is_verbal_analitis, _should_skip_row. cbv zeta.
  set (c := _normalize_label category_value).
  set (t := _normalize_label sub_category_value).
  clearbody c t.
  destruct (teqb c (txt "tiu")); cbn [negb andb];
    [|split; [cbn; lia | intro H; now contradiction H]].
  destruct (teqb t (txt "verbal silogisme")) eqn:E1;
    [apply teqb_eq in E1; subst t; split;
       [vm_compute; lia | intro H; now contradiction H]|].
  destruct (teqb t (txt "verbal analogi")) eqn:E2;
    [apply teqb_eq in E2; subst t; split;
       [vm_compute; lia | intro H; now contradiction H]|].
  destruct (teqb t (txt "verbal analitis")) eqn:E3;
    [apply teqb_eq in E3; subst t; split;
       [vm_compute; lia | intro H; now contradiction H]|].
  split.
  - destruct (startswith (txt "numerik") t && _); cbn; lia.
  - destruct (startswith (txt "figural") t) eqn:Hfig.
    + intros _. now rewrite (startswith_figural_not_numerik _ Hfig).
    + destruct (startswith (txt "numerik deret") t).
      * intros _. now rewrite andb_false_r.
      * intro H. now contradiction H.
Qed.

(** ** Shown scores *)

Lemma rstrip_by_snoc_drop p (a : text) c :
  p c = true -> rstrip_by p (a ++ [c]) = rstrip_by p a.
Proof.
  intro H. unfold rstrip_by. rewrite rev_app_distr. cbn [rev app dropwhile].
  now rewrite H.
Qed.

Lemma ascii_eqb_sym (a b : ascii) : Ascii.eqb a b = Ascii.eqb b a.
Proof.
  destruct (Ascii.eqb a b) eqn:E.
  - apply Ascii.eqb_eq in E. subst. now rewrite Ascii.eqb_refl.
  - destruct (Ascii.eqb b a) eqn:E'; [|reflexivity].
    apply Ascii.eqb_eq in E'. subst. now rewrite Ascii.eqb_refl in E.
Qed.

Lemma endswith_char_head_kept c (s : text) :
  endswith [c] s = false <-> head_kept (fun x => mem_char x [c]) (rev s).
Proof.
  unfold endswith, mem_char. cbn [rev app].
  destruct (rev s) as [|x r]; cbn [startswith head_kept existsb].
  - split; [trivial | reflexivity].
  - rewrite (ascii_eqb_sym c x). destruct (Ascii.eqb x c); cbn [andb orb];
      split; congruence.
Qed.

(** X5.  [_format_score] never answers with an empty text or with a text
    that ends with a decimal point; and a score whose float text is
    "<digits>.0" is shown as "<digits>", without the fraction. *)
Theorem formatted_score_has_no_trailing_point (q : Q) :
  (exists shown,
      _format_score (Some q) = Some shown
      /\ shown <> []
      /\ endswith (txt ".") shown = false)
  /\ (forall digits,
        float_repr q = digits ++ txt ".0" ->
        digits <> [] ->
        endswith (txt ".") digits = false ->
        _format_score (Some q) = Some digits).
Proof.
  split.
  - unfold _format_score. cbv zeta. unfold rstrip_chars.
    set (inner := rstrip_by (fun c => mem_char c (txt "0")) (float_repr q)).
    pose proof (rstrip_by_last_kept (fun c => mem_char c (txt ".")) inner) as Hk.
    destruct (rstrip_by (fun c => mem_char c (txt ".")) inner) as [|x r] eqn:E.
    + eexists. split; [reflexivity|]. split; [discriminate | reflexivity].
    + eexists. split; [reflexivity|]. split; [discriminate|].
      now apply (endswith_char_head_kept "."%char).
  - intros digits Hrepr Hne Hend. unfold _format_score. cbv zeta.
    rewrite Hrepr. unfold rstrip_chars.
    change (digits ++ txt ".0") with (digits ++ ["."%char] ++ ["0"%char]).
    rewrite app_assoc.
    rewrite rstrip_by_snoc_drop by reflexivity.
    rewrite rstrip_by_snoc by reflexivity.
    rewrite rstrip_by_snoc_drop by reflexivity.
    rewrite rstrip_by_fixed
      by (now apply (endswith_char_head_kept "."%char)).
    destruct digits; [congruence | reflexivity].
Qed.

(** ** [_order_indices] as a canonical order *)

Lemma key_ltb_antisym k1 k2 :
  key_ltb k1 k2 = false -> key_ltb k2 k1 = false -> snd k1 = snd k2.
Proof.
  destruct k1 as [[a|] i], k2 as [[b|] j]; unfold key_ltb; simpl;
    intros H1 H2; try discriminate;
    q_cases; simpl in *; q_bools; try discriminate; try lia;
    try (exfalso; lra).
Qed.

Lemma sorted_same_elements key (l1 l2 : list nat) :
  (forall x, snd (key x) = x) ->
  StronglySorted (key_le key) l1 -> StronglySorted (key_le key) l2 ->
  NoDup l1 -> NoDup l2 ->
  (forall x, In x l1 <-> In x l2) ->
  l1 = l2.
Proof.
  intro Hkey. revert l2.
  induction l1 as [|x l1 IH]; intros l2 Hs1 Hs2 Hn1 Hn2 Hsame.
  - destruct l2 as [|y l2]; [reflexivity|].
    exfalso. apply (Hsame y). now left.
  - destruct l2 as [|y l2]; [exfalso; apply (Hsame x); now left|].
    inversion Hs1 as [|? ? Hs1' Hall1]; subst.
    inversion Hs2 as [|? ? Hs2' Hall2]; subst.
    inversion Hn1 as [|? ? Hx1 Hn1']; subst.
    inversion Hn2 as [|? ? Hy2 Hn2']; subst.
    rewrite Forall_forall in Hall1, Hall2.
    assert (Hxy : x = y).
    { assert (Hx : In x (y :: l2)) by (apply Hsame; now left).
      assert (Hy : In y (x :: l1)) by (apply Hsame; now left).
      destruct Hx as [Hx | Hx]; [now symmetry|].
      destruct Hy as [Hy | Hy]; [exact Hy|].
      pose proof (Hall1 y Hy) as H1. pose proof (Hall2 x Hx) as H2.
      unfold key_le in H1, H2.
      pose proof (key_ltb_antisym _ _ H1 H2) as E.
      now rewrite !Hkey in E. }
    subst y. f_equal. apply IH; try assumption.
    intro z. split; intro Hz.
    + assert (H : In z (x :: l2)) by (apply Hsame; now right).
      destruct H as [<- | H]; [contradiction | exact H].
    + assert (H : In z (x :: l1)) by (apply Hsame; now right).
      destruct H as [<- | H]; [contradiction | exact H].
Qed.

Lemma order_filter_complete indices om seen j :
  In j indices -> has_text om j = true -> ~ In j seen ->
  In j (order_filter indices om seen).
Proof.
  revert seen. induction indices as [|i rest IH]; intros seen Hin Htext Hseen;
    [contradiction|].
  cbn [order_filter].
  destruct (Nat.eq_dec i j) as [-> | Hne].
  - apply mem_nat_notIn in Hseen. rewrite Hseen. cbn [orb].
    apply has_text_spec in Htext as [Hlt Hne].
    apply Nat.leb_gt in Hlt. rewrite Hlt.
    apply teqb_neq in Hne. rewrite Hne. now left.
  - destruct Hin as [E | Hin]; [congruence|].
    destruct (mem_nat i seen || (List.length om <=? i)); [now apply IH|].
    destruct (teqb (nth i om []) []); [now apply IH|].
    right. apply IH; try assumption.
    intros [E | H]; [congruence | contradiction].
Qed.

Lemma order_indices_elements indices scores om j :
  In j (_order_indices indices scores om) <->
  In j indices /\ has_text om j = true.
Proof.
  unfold _order_indices. rewrite sorted_by_In. split.
  - intro H. apply order_filter_In in H. ptauto.
  - intros [Hin Htext]. apply order_filter_complete; try assumption.
    intros [].
Qed.

Lemma score_sort_key_snd scores x : snd (_score_sort_key x scores) = x.
Proof. reflexivity. Qed.

Lemma order_indices_NoDup indices scores om :
  NoDup (_order_indices indices scores om).
Proof. apply sorted_by_NoDup, order_filter_NoDup. Qed.

Lemma order_indices_same_elements indices1 indices2 scores om :
  (forall j, In j indices1 <-> In j indices2) ->
  _order_indices indices1 scores om = _order_indices indices2 scores om.
Proof.
  intro Hsame.
  apply (sorted_same_elements (fun idx => _score_sort_key idx scores)).
  - apply score_sort_key_snd.
  - apply sorted_by_sorted.
  - apply sorted_by_sorted.
  - apply order_indices_NoDup.
  - apply order_indices_NoDup.
  - intro j. rewrite !order_indices_elements, Hsame. reflexivity.
Qed.


(** X6.  [_order_indices] gives a canonical order: it returns no index
    twice, returns exactly the given indices whose option text is not
    empty, ordering its own answer again changes nothing, and the answer
    depends only on which indices are given, not on their order or on how
    often each is given. *)
Theorem order_indices_is_canonical
  (indices : list nat) (scores : list (option Q)) (option_map : list text) :
  let ordered := _order_indices indices scores option_map in
  NoDup ordered
  /\ (forall j, In j ordered <->
                In j indices /\ j < List.length option_map
                /\ nth j option_map [] <> [])
  /\ _order_indices ordered scores option_map = ordered
  /\ (forall indices2,
        (forall j, In j indices <-> In j indices2) ->
        _order_indices indices2 scores option_map = ordered).
Proof.
  cbv zeta. split; [apply order_indices_NoDup|]. split; [|split].
  - intro j. rewrite order_indices_elements, has_text_spec. reflexivity.
  - apply (sorted_same_elements (fun idx => _score_sort_key idx scores)).
    + apply score_sort_key_snd.
    + apply sorted_by_sorted.
    + apply sorted_by_sorted.
    + apply order_indices_NoDup.
    + apply order_indices_NoDup.
    + intro j. rewrite order_indices_elements. split; [ptauto|].
      intro H. split; [exact H|].
      now apply order_indices_elements in H.
  - intros indices2 Hsame. symmetry.
    now apply order_indices_same_elements.
Qed.

(** ** The closing full stop *)

(** [_ensure_trailing_period] keeps the text as the start of its
    answer, leaves the empty text empty, makes every other text end with
    '.', '!' or '?', and changes nothing when it is applied again. *)
Lemma trailing_period_is_added_once (text : Text.text) :
  let closed := _ensure_trailing_period text in
  startswith text closed = true
  /\ (text = [] -> closed = [])
  /\ (text <> [] -> ends_sentence closed = true)
  /\ _ensure_trailing_period closed = closed.
Proof.
  cbv zeta. destruct text as [|c text]; [repeat split; congruence|].
  assert (Hclosed : forall t : Text.text,
            _ensure_trailing_period (c :: t)
            = if ends_sentence (c :: t) then c :: t else (c :: t) ++ txt ".")
    by reflexivity.
  rewrite Hclosed.
  destruct (ends_sentence (c :: text)) eqn:E.
  - split; [rewrite <- (app_nil_r (c :: text)) at 2; apply startswith_app_self|].
    split; [discriminate|]. split; [intros _; exact E|].
    now rewrite Hclosed, E.
  - split; [apply startswith_app_self|].
    split; [discriminate|].
    split; [intros _; apply ends_sentence_app_dot|].
    change ((c :: text) ++ txt ".") with (c :: (text ++ txt ".")).
    rewrite Hclosed.
    change (c :: (text ++ txt ".")) with ((c :: text) ++ txt ".").
    now rewrite ends_sentence_app_dot.
Qed.

(** ** Inline TeX *)

Lemma wrap_math_tex_passes text :
  _wrap_math_tex text
  = re_sub (match_math "[" "]") math_span
      (re_sub (match_math "(" ")") math_span text).
Proof. destruct text; reflexivity. Qed.

Lemma match_math_needs_backslash o c x s :
  x <> BACKSLASH -> match_math o c (x :: s) = None.
Proof.
  intro H. unfold match_math. destruct s as [|y s]; [reflexivity|].
  now rewrite (eqb_neq_false H).
Qed.

Lemma unmatched_math_app o c (a b : text) :
  ~ In BACKSLASH a ->
  unmatched (match_math o c) b -> unmatched (match_math o c) (a ++ b).
Proof.
  intros Ha Hb. induction a as [|x a IH]; cbn [app unmatched]; [exact Hb|].
  apply not_in_cons in Ha as [Hx Ha]. split.
  - apply match_math_needs_backslash. congruence.
  - now apply IH.
Qed.

Lemma unmatched_math_plain o c (s : text) :
  ~ In BACKSLASH s -> unmatched (match_math o c) s.
Proof.
  intro H. rewrite <- (app_nil_r s). now apply unmatched_math_app.
Qed.

Lemma re_sub_math_prefix o c repl (a b : text) :
  ~ In BACKSLASH a ->
  re_sub_from (match_math o c) repl 0 (a ++ b)
  = a ++ re_sub_from (match_math o c) repl 0 b.
Proof.
  intro Ha. induction a as [|x a IH]; cbn [app]; [reflexivity|].
  apply not_in_cons in Ha as [Hx Ha].
  cbn [re_sub_from].
  rewrite match_math_needs_backslash by congruence.
  f_equal. now apply IH.
Qed.

Lemma math_close_found close seen body rest :
  close <> LF -> close <> BACKSLASH ->
  ~ In BACKSLASH seen -> ~ In BACKSLASH body -> ~ In LF body ->
  seen ++ body <> [] ->
  math_close close seen (body ++ BACKSLASH :: close :: rest)
  = Some (List.length seen + List.length body + 4).
Proof.
  intros Hlf Hbs. revert seen.
  induction body as [|x body IH]; intros seen Hseen Hbody Hnl Hne.
  - rewrite app_nil_r in Hne. cbn [app math_close List.length].
    change (Ascii.eqb BACKSLASH LF) with false. cbv iota.
    rewrite (eqb_neq_false (not_eq_sym Hbs)).
    rewrite (eqb_neq_false Hlf), Ascii.eqb_refl.
    destruct seen as [|y seen]; [congruence|].
    rewrite Ascii.eqb_refl. f_equal. cbn [List.length]. lia.
  - apply not_in_cons in Hbody as [Hx Hbody].
    apply not_in_cons in Hnl as [Hxl Hnl].
    cbn [app math_close].
    rewrite (eqb_neq_false (not_eq_sym Hxl)).
    assert (Hnext : math_close close (x :: seen)
                      (body ++ BACKSLASH :: close :: rest)
                    = Some (List.length seen + List.length (x :: body) + 4)).
    { rewrite IH; try assumption.
      - f_equal. cbn [List.length]. lia.
      - intros [E | H]; [congruence | contradiction].
      - discriminate. }
    destruct (Ascii.eqb x close); [|exact Hnext].
    destruct seen as [|b [|b2 seen]]; try exact Hnext.
    apply not_in_cons in Hseen as [Hb _].
    now rewrite (eqb_neq_false (not_eq_sym Hb)).
Qed.

(** One pass of the substitution wraps a formula that stands between
    texts without a backslash. *)
Lemma math_pass_wraps o c (pre body post : text) :
  c <> LF -> c <> BACKSLASH ->
  ~ In BACKSLASH pre -> ~ In BACKSLASH body -> ~ In LF body -> body <> [] ->
  ~ In BACKSLASH post ->
  re_sub (match_math o c) math_span
    (pre ++ [BACKSLASH; o] ++ body ++ [BACKSLASH; c] ++ post)
  = pre ++ math_span ([BACKSLASH; o] ++ body ++ [BACKSLASH; c]) ++ post.
Proof.
  intros Hlf Hbs Hpre Hbody Hnl Hne Hpost. unfold re_sub.
  rewrite re_sub_math_prefix by exact Hpre. f_equal.
  cbn [app].
  set (inner := o :: body ++ [BACKSLASH; c]).
  assert (Hinner : o :: body ++ BACKSLASH :: c :: post = inner ++ post).
  { unfold inner. cbn [app]. rewrite <- app_assoc. reflexivity. }
  rewrite Hinner.
  assert (Hm : match_math o c (BACKSLASH :: inner ++ post)
               = Some (S (List.length inner))).
  { rewrite <- Hinner. unfold match_math. rewrite !Ascii.eqb_refl. cbn [andb].
    rewrite math_close_found; try assumption; try (intros []).
    f_equal. unfold inner. cbn [List.length]. rewrite length_app.
    cbn [List.length]. lia. }
  rewrite (re_sub_from_match _ _ _ _ _ Hm).
  rewrite re_sub_skip.
  rewrite re_sub_unmatched by now apply unmatched_math_plain.
  f_equal.
  change (BACKSLASH :: inner ++ post) with ((BACKSLASH :: inner) ++ post).
  change (S (List.length inner)) with (List.length (BACKSLASH :: inner)).
  rewrite firstn_length_app. reflexivity.
Qed.

(** A pass for one kind of bracket passes over text whose backslashes
    stand before brackets of the other kind. *)
Lemma math_pass_passes_over o c o' c' (pre body post : text) :
  o' <> o -> c' <> o -> o' <> BACKSLASH -> c' <> BACKSLASH ->
  ~ In BACKSLASH pre -> ~ In BACKSLASH body -> ~ In BACKSLASH post ->
  re_sub (match_math o c) math_span
    (pre ++ [BACKSLASH; o'] ++ body ++ [BACKSLASH; c'] ++ post)
  = pre ++ [BACKSLASH; o'] ++ body ++ [BACKSLASH; c'] ++ post.
Proof.
  intros Ho Hc Ho' Hc' Hpre Hbody Hpost. apply re_sub_unmatched.
  apply unmatched_math_app; [exact Hpre|].
  cbn [app unmatched]. split.
  - unfold match_math. rewrite (eqb_neq_false Ho). now rewrite andb_false_r.
  - split; [now apply match_math_needs_backslash|].
    apply unmatched_math_app; [exact Hbody|].
    cbn [unmatched]. split.
    + unfold match_math. rewrite (eqb_neq_false Hc). now rewrite andb_false_r.
    + split; [now apply match_math_needs_backslash|].
      now apply unmatched_math_plain.
Qed.

Lemma span_has_no_backslash (pre : text) :
  ~ In BACKSLASH pre ->
  ~ In BACKSLASH (pre ++ txt "<span class=" ++ quoted (txt "math-tex")
                  ++ txt ">").
Proof.
  intros Hpre H. apply in_app_or in H as [H | H]; [contradiction|].
  vm_compute in H.
  repeat (destruct H as [H | H]; [discriminate H|]). exact H.
Qed.

Lemma close_span_has_no_backslash (post : text) :
  ~ In BACKSLASH post -> ~ In BACKSLASH (txt "</span>" ++ post).
Proof.
  intros Hpost H. apply in_app_or in H as [H | H]; [|contradiction].
  vm_compute in H.
  repeat (destruct H as [H | H]; [discriminate H|]). exact H.
Qed.

(** X7.  [_wrap_math_tex] returns a text without a backslash unchanged, and
    it puts an inline formula (backslash-parenthesis) or a display formula
    (backslash-bracket) that stands in such text, and that has a non-empty
    body without backslash and newline, into a math-tex span, leaving the
    text around it as it is. *)
Theorem math_formula_is_wrapped_in_span (pre body post : text) :
  ~ In BACKSLASH pre -> ~ In BACKSLASH post ->
  _wrap_math_tex (pre ++ post) = pre ++ post
  /\ (~ In BACKSLASH body -> ~ In LF body -> body <> [] ->
      let inline := [BACKSLASH; "("%char] ++ body ++ [BACKSLASH; ")"%char] in
      let display := [BACKSLASH; "["%char] ++ body ++ [BACKSLASH; "]"%char] in
      _wrap_math_tex (pre ++ inline ++ post) = pre ++ math_span inline ++ post
      /\ _wrap_math_tex (pre ++ display ++ post)
         = pre ++ math_span display ++ post).
Proof.
  intros Hpre Hpost. split.
  - rewrite wrap_math_tex_passes. unfold re_sub.
    assert (H : ~ In BACKSLASH (pre ++ post)).
    { intro H. apply in_app_or in H as [H | H]; contradiction. }
    rewrite (re_sub_unmatched (match_math "(" ")") math_span (pre ++ post))
      by now apply unmatched_math_plain.
    apply re_sub_unmatched. now apply unmatched_math_plain.
  - intros Hbody Hnl Hne. cbv zeta. split.
    + rewrite wrap_math_tex_passes.
      rewrite <- !app_assoc.
      rewrite (math_pass_wraps "(" ")" pre body post);
        try assumption; try discriminate.
      set (opening := txt "<span class=" ++ quoted (txt "math-tex") ++ txt ">").
      assert (Hspan :
        pre ++ math_span ([BACKSLASH; "("%char] ++ body ++ [BACKSLASH; ")"%char])
            ++ post
        = (pre ++ opening) ++ [BACKSLASH; "("%char] ++ body
          ++ [BACKSLASH; ")"%char] ++ txt "</span>" ++ post).
      { unfold math_span, opening. now rewrite <- !app_assoc. }
      rewrite Hspan.
      apply (math_pass_passes_over "[" "]" "(" ")" (pre ++ opening) body
               (txt "</span>" ++ post));
        try assumption; try discriminate.
      * now apply span_has_no_backslash.
      * now apply close_span_has_no_backslash.
    + rewrite wrap_math_tex_passes.
      rewrite <- !app_assoc.
      rewrite (math_pass_passes_over "(" ")" "[" "]" pre body post);
        try assumption; try discriminate.
      apply (math_pass_wraps "[" "]" pre body post);
        try assumption; try discriminate.
Qed.

(** ** Numeric paragraphs *)

Lemma split_on_from_pieces p acc (s : text) :
  Forall (fun c => p c = false) acc ->
  Forall (fun piece : text => Forall (fun c => p c = false) piece)
         (split_on_from p acc s).
Proof.
  revert acc. induction s as [|c s IH]; intros acc Hacc; cbn [split_on_from].
  - constructor; [|constructor]. now apply Forall_rev.
  - destruct (p c) eqn:Hc.
    + constructor; [now apply Forall_rev | apply IH; constructor].
    + apply IH. now constructor.
Qed.

(** X8.  Every part that [_split_numeric_paragraphs] returns is a line of
    its own: it is not empty, has no white space at either end and holds no
    line-break character. *)
Theorem numeric_paragraphs_are_clean_lines (text : Text.text) :
  Forall (fun part : Text.text =>
            part <> []
            /\ strip part = part
            /\ Forall (fun c => is_linebreak c = false) part)
         (_split_numeric_paragraphs text).
Proof.
  unfold _split_numeric_paragraphs. cbv zeta.
  apply Forall_forall. intros part Hin.
  apply filter_In in Hin as [Hin Hne].
  apply in_map_iff in Hin as [piece [<- Hpiece]].
  split; [now destruct (strip piece)|].
  split; [apply strip_idempotent|].
  apply Forall_forall. intros c Hc.
  unfold split_on in Hpiece.
  match type of Hpiece with
  | In _ (split_on_from _ _ ?s) =>
      pose proof (split_on_from_pieces is_linebreak [] s (Forall_nil _)) as Hall
  end.
  rewrite Forall_forall in Hall. specialize (Hall piece Hpiece).
  rewrite Forall_forall in Hall. apply Hall.
  eapply in_part; [apply part_strip | exact Hc].
Qed.

(** ** The shown reply *)

(** [_truncate_text] returns a text of at most [limit] characters
    unchanged; otherwise its answer keeps the first [limit] characters and
    is exactly 15 characters longer than [limit] (a newline and the
    14-character mark). *)
Lemma truncated_text_is_bounded (text : Text.text) (limit : nat) :
  List.length (_truncate_text text limit) <= limit + 15
  /\ firstn limit (_truncate_text text limit) = firstn limit text
  /\ (List.length text <= limit -> _truncate_text text limit = text)
  /\ (limit < List.length text ->
      List.length (_truncate_text text limit) = limit + 15).
Proof.
  unfold _truncate_text.
  destruct (List.length text <=? limit) eqn:E.
  - apply Nat.leb_le in E. split; [lia|]. split; [reflexivity|].
    split; [reflexivity | lia].
  - apply Nat.leb_gt in E.
    assert (Hlen : List.length (firstn limit text) = limit)
      by (rewrite length_firstn; lia).
    split; [|split; [|split]].
    + rewrite !length_app, Hlen. cbn [List.length txt list_ascii_of_string]. lia.
    + rewrite <- Hlen at 1. rewrite firstn_length_app. reflexivity.
    + lia.
    + intros _. rewrite !length_app, Hlen.
      cbn [List.length txt list_ascii_of_string]. lia.
Qed.

(** ** The repair pass on text that needs no repair *)

Lemma repair_from_outside done rest :
  ~ In DQUOTE rest -> repair_from done rest false = rest.
Proof.
  revert done. induction rest as [|char rest IH]; intros done H;
    cbn [repair_from]; [reflexivity|].
  apply not_in_cons in H as [Hc H].
  rewrite (eqb_neq_false (not_eq_sym Hc)). cbn [andb].
  f_equal. now apply IH.
Qed.

Lemma repair_from_plain done rest in_string :
  ~ In BACKSLASH rest -> ~ In LF rest -> ~ In CR rest ->
  repair_from done rest in_string = rest.
Proof.
  revert done in_string.
  induction rest as [|char rest IH]; intros done in_string Hb Hl Hr;
    cbn [repair_from]; [reflexivity|].
  apply not_in_cons in Hb as [Hcb Hb].
  apply not_in_cons in Hl as [Hcl Hl].
  apply not_in_cons in Hr as [Hcr Hr].
  rewrite (eqb_neq_false (not_eq_sym Hcb)), (eqb_neq_false (not_eq_sym Hcl)),
    (eqb_neq_false (not_eq_sym Hcr)).
  destruct (Ascii.eqb char DQUOTE && _); [f_equal; now apply IH|].
  destruct in_string; f_equal; now apply IH.
Qed.

(** X9.  The repair pass changes nothing in a reply that has no double
    quote (so nothing outside a string is ever rewritten), and nothing in a
    reply that has no backslash, newline or carriage return. *)
Theorem repair_leaves_clean_text_alone (raw : text) :
  ~ In DQUOTE raw
  \/ (~ In BACKSLASH raw /\ ~ In LF raw /\ ~ In CR raw) ->
  _repair_json_text raw = raw.
Proof.
  unfold _repair_json_text. intros [H | [Hb [Hl Hr]]].
  - now apply repair_from_outside.
  - now apply repair_from_plain.
Qed.

(** ** Paragraph lists *)

Lemma mem_text_In (t : text) (l : list text) : mem_text t l = true <-> In t l.
Proof.
  unfold mem_text. rewrite existsb_exists. split.
  - intros [x [Hin Hx]]. apply teqb_eq in Hx. now subst.
  - intro H. exists t. split; [assumption | apply teqb_refl].
Qed.

Lemma mem_text_notIn (t : text) (l : list text) :
  mem_text t l = false <-> ~ In t l.
Proof.
  rewrite <- mem_text_In. destruct (mem_text t l); split; congruence.
Qed.

Lemma dedupe_paragraphs_from_spec seen paragraphs :
  let kept := dedupe_paragraphs_from seen paragraphs in
  NoDup (map normalized_paragraph kept)
  /\ (forall t, In t kept ->
        ~ In (normalized_paragraph t) seen /\ t <> []
        /\ exists p, In p paragraphs /\ t = strip p)
  /\ (forall p, In p paragraphs -> strip p <> [] ->
        In (normalized_paragraph (strip p)) seen
        \/ In (normalized_paragraph (strip p)) (map normalized_paragraph kept)).
Proof.
  revert seen. induction paragraphs as [|paragraph rest IH]; intro seen;
    cbn [dedupe_paragraphs_from]; cbv zeta.
  - split; [constructor|]. split; intros ? [].
  - destruct (strip paragraph) as [|c text'] eqn:Htext.
    + destruct (IH seen) as [Hnd [Hin Hall]]. split; [exact Hnd|]. split.
      * intros t Ht. destruct (Hin t Ht) as [H1 [H2 [p [Hp E]]]].
        split; [exact H1|]. split; [exact H2|]. exists p. split; [now right | exact E].
      * intros p [<- | Hp] Hne; [congruence | now apply Hall].
    + rewrite <- Htext.
      fold (normalized_paragraph (strip paragraph)).
      destruct (mem_text (normalized_paragraph (strip paragraph)) seen) eqn:Hseen.
      * destruct (IH seen) as [Hnd [Hin Hall]]. split; [exact Hnd|]. split.
        -- intros t Ht. destruct (Hin t Ht) as [H1 [H2 [p [Hp E]]]].
           split; [exact H1|]. split; [exact H2|].
           exists p. split; [now right | exact E].
        -- intros p [<- | Hp] Hne; [left; now apply mem_text_In | now apply Hall].
      * destruct (IH (normalized_paragraph (strip paragraph) :: seen))
          as [Hnd [Hin Hall]].
        apply mem_text_notIn in Hseen.
        cbn [map]. split; [|split].
        -- constructor; [|exact Hnd].
           intro H. apply in_map_iff in H as [t [Et Ht]].
           destruct (Hin t Ht) as [H1 _]. apply H1. left. now symmetry.
        -- intros t [<- | Ht].
           ++ split; [exact Hseen|]. split; [rewrite Htext; discriminate|].
              exists paragraph. split; [now left | reflexivity].
           ++ destruct (Hin t Ht) as [H1 [H2 [p [Hp E]]]].
              split; [intro H; apply H1; now right|]. split; [exact H2|].
              exists p. split; [now right | exact E].
        -- intros p [<- | Hp] Hne; [right; now left|].
           destruct (Hall p Hp Hne) as [[E | H] | H].
           ++ right. left. exact E.
           ++ now left.
           ++ right. now right.
Qed.


Lemma dedupe_paragraphs_from_idempotent seen paragraphs :
  dedupe_paragraphs_from seen (dedupe_paragraphs_from seen paragraphs)
  = dedupe_paragraphs_from seen paragraphs.
Proof.
  revert seen. induction paragraphs as [|paragraph rest IH]; intro seen;
    cbn [dedupe_paragraphs_from]; cbv zeta; [reflexivity|].
  destruct (strip paragraph) as [|c text'] eqn:Htext; [apply IH|].
  rewrite <- Htext.
  destruct (mem_text (strip (collapse_ws (strip paragraph))) seen) eqn:Hseen;
    [apply IH|].
  cbn [dedupe_paragraphs_from]. cbv zeta.
  rewrite strip_idempotent, Htext. rewrite <- Htext, Hseen.
  f_equal. apply IH.
Qed.

(** X10.  [_dedupe_paragraphs] keeps, for every paragraph that is not blank,
    exactly one paragraph with the same text once white space is collapsed:
    no two kept paragraphs are equal in that sense, every kept paragraph is
    a given paragraph without its surrounding white space and is not empty,
    every given paragraph that is not blank is represented, and applied to
    its own answer the function changes nothing. *)
Theorem deduped_paragraphs_are_distinct (paragraphs : list text) :
  let kept := _dedupe_paragraphs paragraphs in
  NoDup (map normalized_paragraph kept)
  /\ Forall (fun t => t <> [] /\ exists p, In p paragraphs /\ t = strip p) kept
  /\ Forall (fun p =>
               strip p = []
               \/ In (normalized_paragraph (strip p))
                     (map normalized_paragraph kept))
            paragraphs
  /\ _dedupe_paragraphs kept = kept.
Proof.
  cbv zeta. unfold _dedupe_paragraphs.
  destruct (dedupe_paragraphs_from_spec [] paragraphs) as [Hnd [Hin Hall]].
  split; [exact Hnd|]. split; [|split].
  - apply Forall_forall. intros t Ht.
    destruct (Hin t Ht) as [_ [H2 H3]]. now split.
  - apply Forall_forall. intros p Hp.
    destruct (strip p) as [|c r] eqn:E; [now left|]. right.
    rewrite <- E. destruct (Hall p Hp) as [[] | H]; [|exact H].
    rewrite E. discriminate.
  - apply dedupe_paragraphs_from_idempotent.
Qed.

(** X11.  [_normalize_detail_paragraphs] answers a decoded value that can be
    read as a list (a string, the missing value, a list, a dict) with
    paragraphs that are not empty and have no white space at either end,
    the missing value giving none and a string at most one; it raises
    [TypeError] exactly for a number or a boolean. *)
Theorem detail_paragraphs_are_nonblank (value : json) :
  match _normalize_detail_paragraphs value with
  | Ok paragraphs =>
      Forall (fun p => p <> [] /\ strip p = p) paragraphs
      /\ match value with
         | JBool _ | JNumber _ _ => False
         | JNull => paragraphs = []
         | JString s => paragraphs = if nonempty (strip s) then [strip s] else []
         | _ => True
         end
  | Raise e =>
      e = TypeError
      /\ match value with JBool _ | JNumber _ _ => True | _ => False end
  end.
Proof.
  assert (Hclean : forall items,
            Forall (fun p => p <> [] /\ strip p = p)
              (map (fun item => strip (py_str item))
                 (filter (fun item => nonempty (strip (py_str item))) items))).
  { intro items. apply Forall_forall. intros p Hp.
    apply in_map_iff in Hp as [item [<- Hitem]].
    apply filter_In in Hitem as [_ Hne].
    split; [now destruct (strip (py_str item)) | apply strip_idempotent]. }
  unfold _normalize_detail_paragraphs.
  destruct value as [|b|nz shown|s|items|fields]; cbv zeta iota beta.
  - split; [constructor | reflexivity].
  - now split.
  - now split.
  - split; [apply Hclean|]. cbn [filter map py_str].
    destruct (nonempty (strip s)); reflexivity.
  - split; [apply Hclean | exact I].
  - split; [apply Hclean | exact I].
Qed.

(** ** A reply with text around the object *)

Lemma find_char_first sep (a b : text) :
  ~ In sep a -> find_char sep (a ++ sep :: b) = Some (List.length a).
Proof.
  induction a as [|x a IH]; intro H; cbn [app find_char List.length].
  - now rewrite Ascii.eqb_refl.
  - apply not_in_cons in H as [Hx H].
    rewrite (eqb_neq_false (not_eq_sym Hx)), IH by exact H. reflexivity.
Qed.

Lemma rfind_char_none sep (s : text) : ~ In sep s -> rfind_char sep s = None.
Proof.
  induction s as [|x s IH]; intro H; cbn [rfind_char]; [reflexivity|].
  apply not_in_cons in H as [Hx H].
  now rewrite IH, (eqb_neq_false (not_eq_sym Hx)).
Qed.

Lemma rfind_char_last sep (a b : text) :
  ~ In sep b -> rfind_char sep (a ++ sep :: b) = Some (List.length a).
Proof.
  intro H. induction a as [|x a IH]; cbn [app rfind_char List.length].
  - now rewrite rfind_char_none, Ascii.eqb_refl.
  - now rewrite IH.
Qed.

Lemma braces_candidate (pre body post : text) :
  ~ In "{"%char pre -> ~ In "}"%char post ->
  let raw := pre ++ txt "{" ++ body ++ txt "}" ++ post in
  find_char "{" raw = Some (List.length pre)
  /\ rfind_char "}" raw = Some (List.length pre + S (List.length body))
  /\ slice (List.length pre) (List.length pre + S (List.length body) + 1) raw
     = txt "{" ++ body ++ txt "}".
Proof.
  intros Hpre Hpost raw. unfold raw. cbn [txt list_ascii_of_string app].
  split; [now apply find_char_first|]. split.
  - replace (pre ++ "{"%char :: body ++ "}"%char :: post)
      with ((pre ++ "{"%char :: body) ++ "}"%char :: post)
      by (rewrite <- app_assoc; reflexivity).
    rewrite rfind_char_last by exact Hpost.
    rewrite length_app. reflexivity.
  - unfold slice. rewrite skipn_length_app.
    replace (List.length pre + S (List.length body) + 1 - List.length pre)
      with (List.length ("{"%char :: body ++ ["}"%char]))
      by (cbn [List.length]; rewrite length_app; cbn [List.length]; lia).
    replace ("{"%char :: body ++ "}"%char :: post)
      with (("{"%char :: body ++ ["}"%char]) ++ post)
      by (cbn [app]; rewrite <- app_assoc; reflexivity).
    apply firstn_length_app.
Qed.

(** X12.  Text around the object is ignored: when a reply does not decode,
    neither as it is nor repaired, but the text from its first '{' to its
    last '}' does, [_parse_response] answers with what that text decodes
    to.  (If the part decodes only after its own repair, the answer is what
    the repaired part decodes to.) *)
Theorem object_inside_prose_is_parsed
  (pre body post : text) (parsed : json) :
  ~ In "{"%char pre -> ~ In "}"%char post ->
  let raw := pre ++ txt "{" ++ body ++ txt "}" ++ post in
  let candidate := txt "{" ++ body ++ txt "}" in
  json_loads raw = Raise JSONDecodeError ->
  json_loads (_repair_json_text raw) = Raise JSONDecodeError ->
  (json_loads candidate = Ok parsed -> _parse_response raw = Ok parsed)
  /\ (json_loads candidate = Raise JSONDecodeError ->
      json_loads (_repair_json_text candidate) = Ok parsed ->
      _parse_response raw = Ok parsed).
Proof.
  intros Hpre Hpost raw candidate Hraw Hrepaired.
  destruct (braces_candidate pre body post Hpre Hpost) as [Hfind [Hrfind Hslice]].
  fold raw in Hfind, Hrfind, Hslice. fold candidate in Hslice.
  assert (Hlt : (List.length pre <? List.length pre + S (List.length body))
                = true) by (apply Nat.ltb_lt; lia).
  unfold _parse_response, loads_or_else. cbv zeta.
  rewrite Hraw, Hrepaired, Hfind, Hrfind, Hlt.
  rewrite Hslice. split.
  - intro H. now rewrite H.
  - intros H1 H2. now rewrite H1, H2.
Qed.

(** ** What the reason normalisers leave *)

Lemma re_lit_shrinks w : w <> ""%string -> piece_shrinks (re_lit w).
Proof.
  intros Hw s r. unfold re_lit, ci_startswith.
  destruct (startswith (txt w) (lower s)) eqn:E; [|discriminate].
  intro H. injection H as <-.
  apply startswith_length in E. rewrite lower_length in E.
  rewrite length_skipn.
  assert (Hlen : List.length (txt w) = String.length w).
  { clear. induction w as [|c w IH]; [reflexivity|].
    cbn [txt list_ascii_of_string List.length String.length].
    f_equal. exact IH. }
  rewrite Hlen in E. destruct w; [congruence|].
  cbn [String.length] in *. lia.
Qed.

Lemma re_opsi_pilihan_shrinks : piece_shrinks re_opsi_pilihan.
Proof.
  intros s r. unfold re_opsi_pilihan.
  destruct (re_lit "opsi" s) eqn:E.
  - intro H. injection H as <-.
    apply (re_lit_shrinks "opsi" ltac:(discriminate) _ _ E).
  - apply re_lit_shrinks. discriminate.
Qed.

Lemma re_seq_shrinks first second pieces :
  piece_ok first -> piece_shrinks second -> Forall piece_ok pieces ->
  piece_shrinks (re_seq (first :: second :: pieces)).
Proof.
  intros H1 H2 Hrest s r. cbn [re_seq].
  destruct (first s) as [s1|] eqn:E1; [|discriminate].
  destruct (second s1) as [s2|] eqn:E2; [|discriminate].
  intro H. apply (re_seq_ok Hrest) in H.
  apply part_length in H. apply H1 in E1. apply part_length in E1.
  apply H2 in E2. lia.
Qed.

Lemma reason_prefixes_shrink : Forall piece_shrinks _REASON_PREFIXES.
Proof.
  unfold _REASON_PREFIXES, re_tail.
  repeat (apply Forall_cons;
          [apply re_seq_shrinks;
           [ auto with pieces
           | first [ apply re_lit_shrinks; discriminate
                   | apply re_opsi_pilihan_shrinks ]
           | cbn [app];
             repeat (apply Forall_cons; [auto with pieces|]); apply Forall_nil ]
          |]).
  apply Forall_nil.
Qed.

Lemma fold_prefixes_unmatched patterns s :
  Forall piece_ok patterns -> Forall piece_shrinks patterns ->
  List.length
    (fold_left
       (fun updated (pattern : text -> option text) =>
          match pattern updated with
          | Some after => strip after
          | None => updated
          end)
       patterns s) = List.length s ->
  Forall (fun pattern => pattern s = None) patterns.
Proof.
  intros Hok Hshrink. revert s.
  induction patterns as [|p patterns IH]; intros s Hlen; [constructor|].
  inversion Hok as [|? ? Hp Hok']; subst.
  inversion Hshrink as [|? ? Hs Hshrink']; subst.
  cbn [fold_left] in Hlen.
  destruct (p s) as [after|] eqn:E.
  - exfalso.
    pose proof (fold_prefixes_part (strip after) Hok') as Hpart.
    apply part_length in Hpart.
    pose proof (part_length (part_strip after)) as Hstrip.
    apply Hs in E. lia.
  - constructor; [exact E | now apply IH].
Qed.

Lemma strip_prefix_round_fixed s :
  strip_prefix_round s = s ->
  Forall (fun pattern => pattern s = None) _REASON_PREFIXES
  /\ head_kept (fun c => mem_char c (txt "-: ")) s.
Proof.
  intro Hfix. unfold strip_prefix_round in Hfix.
  set (folded := fold_left _ _REASON_PREFIXES s) in Hfix.
  pose proof (fold_prefixes_part s reason_prefixes_ok) as Hfold.
  fold folded in Hfold.
  pose proof (part_lstrip_chars (txt "-: ") folded) as Hmarks.
  pose proof (part_strip (lstrip_chars (txt "-: ") folded)) as Hstrip.
  rewrite Hfix in Hstrip.
  pose proof (part_length Hfold) as L1.
  pose proof (part_length Hmarks) as L2.
  pose proof (part_length Hstrip) as L3.
  assert (Hfolded : folded = s) by (apply part_same_length; [exact Hfold | lia]).
  split.
  - apply fold_prefixes_unmatched;
      [apply reason_prefixes_ok | apply reason_prefixes_shrink|].
    fold folded. now rewrite Hfolded.
  - assert (Hkept : lstrip_chars (txt "-: ") folded = folded)
      by (apply part_same_length; [exact Hmarks | lia]).
    rewrite Hfolded in Hkept. rewrite <- Hkept.
    apply dropwhile_head_kept.
Qed.

Lemma strip_prefix_loop_part fuel s : part (strip_prefix_loop fuel s) s.
Proof.
  revert s. induction fuel as [|fuel IH]; intro s; cbn [strip_prefix_loop];
    [apply part_refl|]. cbv zeta.
  destruct (teqb (strip_prefix_round s) s); [apply part_refl|].
  eapply part_trans; [apply IH | apply strip_prefix_round_part].
Qed.

(** X13.  What [_strip_reason_prefix] returns has no label prefix left: none
    of the patterns of [_REASON_PREFIXES] matches it, it does not start
    with a dash, a colon or a space, it has no white space at either end,
    and it is a contiguous part of the reason given. *)
Theorem stripped_reason_has_no_label_prefix (reason : text) :
  let stripped := _strip_reason_prefix reason in
  Forall (fun pattern => pattern stripped = None) _REASON_PREFIXES
  /\ head_kept (fun c => mem_char c (txt "-: ")) stripped
  /\ strip stripped = stripped
  /\ part stripped reason.
Proof.
  cbv zeta.
  destruct (strip_reason_prefix_idempotent reason) as [Hround _].
  destruct (strip_prefix_round_fixed _ Hround) as [Hnone Hhead].
  split; [exact Hnone|]. split; [exact Hhead|]. split.
  - rewrite <- Hround. apply strip_prefix_round_stripped.
  - unfold _strip_reason_prefix. cbv zeta.
    eapply part_trans; [apply strip_prefix_loop_part | apply part_strip].
Qed.

Lemma strip_echo_loop_part fuel cleaned option_clean :
  part (strip_echo_loop fuel cleaned option_clean) cleaned.
Proof.
  revert cleaned. induction fuel as [|fuel IH]; intro cleaned;
    cbn [strip_echo_loop]; [apply part_refl|]. cbv zeta.
  destruct (negb _); [apply part_refl|].
  set (trimmed := strip _).
  assert (Hpart : part trimmed cleaned).
  { unfold trimmed. eapply part_trans; [apply part_strip|].
    eapply part_trans; [apply part_lstrip_chars | apply part_skipn]. }
  destruct trimmed as [|c trimmed'] eqn:E.
  - exists [], cleaned. reflexivity.
  - eapply part_trans; [apply IH | exact Hpart].
Qed.

(** X14.  What [_strip_option_echo] returns is a contiguous part of the
    reason without white space at either end, and it no longer starts with
    the option text (compared without regard to letter case); for a blank
    option text it is the reason without its surrounding white space. *)
Theorem stripped_reason_does_not_echo_option (reason option_text : text) :
  let stripped := _strip_option_echo reason option_text in
  part stripped reason
  /\ strip stripped = stripped
  /\ (strip option_text <> [] ->
      startswith (lower (strip option_text)) (lower stripped) = false)
  /\ (strip option_text = [] -> stripped = strip reason).
Proof.
  cbv zeta. unfold _strip_option_echo. cbv zeta.
  destruct (strip option_text) as [|o option_clean'] eqn:Hopt.
  - split; [apply part_strip|]. split; [apply strip_idempotent|].
    split; [congruence | reflexivity].
  - destruct (@strip_echo_loop_fixed (S (List.length (strip reason)))
                (strip reason) (o :: option_clean'))
      as [Hstrip Hnot];
      [discriminate | lia | apply strip_idempotent |].
    split; [|split; [exact Hstrip | split; [intros _; exact Hnot | discriminate]]].
    eapply part_trans; [apply strip_echo_loop_part | apply part_strip].
Qed.

(** ** Preserved tokens *)

Lemma forallb_rev (p : ascii -> bool) (s : text) :
  forallb p s = true -> forallb p (rev s) = true.
Proof.
  rewrite !forallb_forall. intros H x Hx. apply H. now apply in_rev.
Qed.

Lemma part_cons x (w s : text) : part w s -> part w (x :: s).
Proof. intros [a [b ->]]. now exists (x :: a), b. Qed.

Lemma part_app_l (pre w s : text) : part w s -> part w (pre ++ s).
Proof.
  intros [a [b ->]]. exists (pre ++ a), b. now rewrite <- app_assoc.
Qed.

Lemma findall_words_from_spec acc s :
  forallb is_word_char acc = true ->
  Forall (fun w => w <> [] /\ forallb is_word_char w = true
                   /\ part w (rev acc ++ s))
         (findall_words_from acc s).
Proof.
  revert acc. induction s as [|c s IH]; intros acc Hacc;
    cbn [findall_words_from].
  - destruct acc as [|a acc]; [constructor|].
    constructor; [|constructor].
    split; [|split].
    + cbn [rev]. apply app_cons_not_nil.
    + now apply forallb_rev.
    + rewrite app_nil_r. apply part_refl.
  - destruct (is_word_char c) eqn:Hc.
    + assert (H : forallb is_word_char (c :: acc) = true)
        by (cbn [forallb]; now rewrite Hc).
      specialize (IH (c :: acc) H). cbn [rev] in IH.
      now rewrite <- app_assoc in IH.
    + specialize (IH [] eq_refl). cbn [rev app] in IH.
      assert (Hrest : Forall (fun w => w <> [] /\ forallb is_word_char w = true
                                       /\ part w (rev acc ++ c :: s))
                        (findall_words_from [] s)).
      { eapply Forall_impl; [|exact IH].
        intros w [H1 [H2 H3]]. split; [exact H1|]. split; [exact H2|].
        now apply part_app_l, part_cons. }
      destruct acc as [|a acc]; [exact Hrest|].
      constructor; [|exact Hrest].
      split; [|split].
      * cbn [rev]. apply app_cons_not_nil.
      * now apply forallb_rev.
      * exists [], (c :: s). reflexivity.
Qed.

Lemma findall_words_from_found acc (w post : text) :
  forallb is_word_char w = true -> head_kept is_word_char post ->
  rev acc ++ w <> [] ->
  In (rev acc ++ w) (findall_words_from acc (w ++ post)).
Proof.
  revert acc. induction w as [|c w IH]; intros acc Hw Hpost Hne.
  - rewrite app_nil_r in *. cbn [app].
    destruct post as [|x post]; cbn [findall_words_from].
    + destruct acc as [|a acc]; [cbn [rev] in Hne; congruence | now left].
    + cbn [head_kept] in Hpost. rewrite Hpost.
      destruct acc as [|a acc]; [cbn [rev] in Hne; congruence | now left].
  - cbn [forallb] in Hw. apply andb_prop in Hw as [Hc Hw].
    cbn [app findall_words_from]. rewrite Hc.
    replace (rev acc ++ c :: w) with (rev (c :: acc) ++ w)
      by (cbn [rev]; now rewrite <- app_assoc).
    apply IH; try assumption.
    cbn [rev]. rewrite <- app_assoc. apply app_cons_not_nil.
Qed.

Lemma findall_words_from_after acc (pre : text) x (rest : text) w :
  is_word_char x = false ->
  In w (findall_words_from [] rest) ->
  In w (findall_words_from acc (pre ++ x :: rest)).
Proof.
  intros Hx Hin. revert acc.
  induction pre as [|c pre IH]; intro acc; cbn [app findall_words_from].
  - rewrite Hx. destruct acc; [exact Hin | now right].
  - destruct (is_word_char c); [apply IH|].
    destruct acc; [apply IH | right; apply IH].
Qed.

(** X15.  Every token that [_extract_proper_tokens] collects is a word of one
    of the given texts that starts with an upper-case letter: it is not
    empty, consists of word characters only and is a contiguous part of
    that text.  Conversely, every word of a given text that stands between
    characters that are not word characters and starts with an upper-case
    letter is collected. *)
Theorem proper_tokens_are_the_capitalized_words (texts : list text) :
  Forall (fun token =>
            (exists c rest, token = c :: rest /\ is_upper c = true)
            /\ forallb is_word_char token = true
            /\ exists text, In text texts /\ part token text)
         (_extract_proper_tokens texts)
  /\ (forall pre c word post,
        In (pre ++ (c :: word) ++ post) texts ->
        head_kept is_word_char (rev pre) ->
        head_kept is_word_char post ->
        forallb is_word_char (c :: word) = true ->
        is_upper c = true ->
        In (c :: word) (_extract_proper_tokens texts)).
Proof.
  unfold _extract_proper_tokens. split.
  - apply Forall_forall. intros token Hin.
    apply in_flat_map in Hin as [text [Htext Hin]].
    apply filter_In in Hin as [Hin Hup].
    pose proof (findall_words_from_spec [] text eq_refl) as Hall.
    rewrite Forall_forall in Hall.
    destruct (Hall token Hin) as [_ [Hword Hpart]].
    split; [|split; [exact Hword|]].
    + destruct token as [|c rest]; [discriminate|]. now exists c, rest.
    + exists text. split; [exact Htext | exact Hpart].
  - intros pre c word post Htext Hpre Hpost Hword Hup.
    apply in_flat_map. exists (pre ++ (c :: word) ++ post).
    split; [exact Htext|]. apply filter_In. split; [|exact Hup].
    unfold findall_words.
    assert (Hhere : In (c :: word)
                       (findall_words_from [] ((c :: word) ++ post))).
    { apply (findall_words_from_found [] (c :: word) post);
        try assumption. discriminate. }
    destruct (rev pre) as [|x rpre] eqn:E.
    + assert (pre = []) by
        (rewrite <- (rev_involutive pre), E; reflexivity).
      subst pre. exact Hhere.
    + assert (Epre : pre = rev rpre ++ [x]) by
        (rewrite <- (rev_involutive pre), E; reflexivity).
      rewrite Epre, <- app_assoc. cbn [head_kept] in Hpre.
      apply findall_words_from_after; assumption.
Qed.

(** ** Enrichment keeps the reason *)

Lemma rstrip_by_app p (a b : text) :
  rstrip_by p (a ++ b) =
  match rstrip_by p b with
  | [] => rstrip_by p a
  | (_ :: _) as r => a ++ r
  end.
Proof.
  unfold rstrip_by. rewrite rev_app_distr.
  destruct (dropwhile p (rev b)) as [|x r] eqn:E.
  - now rewrite dropwhile_app_nil.
  - rewrite dropwhile_app_cons by (rewrite E; discriminate).
    rewrite E, rev_app_distr, rev_involutive.
    destruct (rev (x :: r)) as [|y r'] eqn:E'; [|reflexivity].
    cbn [rev] in E'. now destruct (rev r).
Qed.

Lemma strip_keeps_stripped_prefix (a b : text) :
  strip a = a -> startswith a (strip (a ++ b)) = true.
Proof.
  intro Ha. destruct a as [|c a]; [reflexivity|].
  assert (Hhead : head_kept is_space (c :: a)).
  { rewrite <- Ha. unfold strip, rstrip, lstrip, lstrip_by.
    apply rstrip_by_head_kept, dropwhile_head_kept. }
  assert (Hlast : rstrip_by is_space (c :: a) = c :: a).
  { rewrite <- Ha at 2. unfold strip, rstrip, lstrip, lstrip_by.
    now rewrite (dropwhile_fixed is_space (c :: a)). }
  unfold strip, rstrip, lstrip, lstrip_by.
  rewrite (dropwhile_fixed is_space ((c :: a) ++ b)) by exact Hhead.
  rewrite rstrip_by_app.
  destruct (rstrip_by is_space b).
  - rewrite Hlast. rewrite <- (app_nil_r (c :: a)) at 2.
    apply startswith_app_self.
  - apply startswith_app_self.
Qed.

(** X16.  [_enrich_reason] never drops or changes the reason it is given:
    its answer starts with the reason without its surrounding white
    space, whatever is appended. *)
Theorem enriched_reason_starts_with_the_reason
  (option_text reason correct_text question_summary : text) :
  startswith (strip reason)
    (_enrich_reason option_text reason correct_text question_summary) = true.
Proof.
  unfold _enrich_reason. cbv zeta.
  set (cleaned := strip reason).
  assert (Hcleaned : strip cleaned = cleaned) by apply strip_idempotent.
  set (closed := if nonempty cleaned && negb (ends_sentence cleaned)
                 then cleaned ++ txt "." else cleaned).
  assert (Hclosed : exists tail, closed = cleaned ++ tail).
  { unfold closed. destruct (nonempty cleaned && _);
      [now exists (txt ".") | exists []; now rewrite app_nil_r]. }
  destruct Hclosed as [tail Hclosed]. clearbody closed. subst closed.
  match goal with
  | |- startswith _ (strip ?e) = true =>
      assert (Hshape : exists more, e = cleaned ++ more)
  end.
  { destruct (_ || _); [|now exists tail].
    match goal with
    | |- exists more, match ?l with [] => _ | _ :: _ => _ end = _ =>
        destruct l
    end; [now exists tail|].
    destruct (nonempty (cleaned ++ tail) && _);
      eexists; rewrite <- !app_assoc; reflexivity. }
  destruct Hshape as [more ->].
  now apply strip_keeps_stripped_prefix.
Qed.

(** ** More about the inference of the correct options *)

Lemma dedupe_from_In seen indices j :
  In j (dedupe_from seen indices) <-> In j indices /\ ~ In j seen.
Proof.
  revert seen. induction indices as [|i rest IH]; intro seen;
    cbn [dedupe_from]; [ptauto|].
  destruct (mem_nat i seen) eqn:E.
  - apply mem_nat_In in E. rewrite IH. split.
    + intros [H1 H2]. split; [now right | exact H2].
    + intros [[<- | H1] H2]; [contradiction | now split].
  - apply mem_nat_notIn in E. cbn [In]. rewrite IH. cbn [In]. split.
    + intros [<- | [H1 H2]]; [split; [now left | exact E]|].
      split; [now right | ptauto].
    + intros [[<- | H1] H2]; [now left|].
      destruct (Nat.eq_dec i j) as [-> | Hne]; [now left | right].
      split; [exact H1|]. intros [H | H]; [congruence | contradiction].
Qed.

Lemma dedupe_from_NoDup seen indices : NoDup (dedupe_from seen indices).
Proof.
  revert seen. induction indices as [|i rest IH]; intro seen;
    cbn [dedupe_from]; [constructor|].
  destruct (mem_nat i seen); [apply IH|].
  constructor; [|apply IH].
  rewrite dedupe_from_In. intros [_ H]. apply H. now left.
Qed.

Lemma dedupe_In indices j : In j (dedupe indices) <-> In j indices.
Proof. unfold dedupe. rewrite dedupe_from_In. cbn [In]. ptauto. Qed.

Lemma mapping_get_bound key m : mapping_get key = Some m -> m < 5.
Proof.
  unfold mapping_get, mapping. cbn [mapping_get_in].
  repeat (destruct (teqb _ key); [intro H; injection H as <-; lia|]).
  discriminate.
Qed.

Lemma indices_by_score_In row scored i :
  scored_options row = Ok scored ->
  (In i (indices_by_score row scored) <->
   exists j v,
     j < 6 /\ slot_score row j = Ok (Some v)
     /\ Qeq_bool v (max_score scored) = true
     /\ (if String.eqb (nth j (map fst OPTION_COLUMNS) ""%string) "Pilihan"
         then mapping_get (option_number_code row) = Some i
         else i = j)).
Proof.
  intro Hscored. unfold indices_by_score.
  destruct scored as [|e0 rest] eqn:Hlist.
  - split; [intros [] | intros [j [v [Hj [Hs _]]]]].
    assert (H : In (j, v) [])
      by (apply (@scored_options_spec row [] j v Hscored); now split).
    contradiction.
  - rewrite <- Hlist in *. rewrite in_flat_map. split.
    + intros [[j v] [He Hin]]. cbn [fst snd] in Hin.
      apply (@scored_options_spec row scored j v Hscored) in He as [Hj Hs].
      destruct (Qeq_bool v (max_score scored)) eqn:Hmax;
        cbn [negb] in Hin; [|contradiction].
      exists j, v. split; [exact Hj|]. split; [exact Hs|]. split; [exact Hmax|].
      destruct (String.eqb _ "Pilihan").
      * destruct (mapping_get (option_number_code row)) as [m|];
          [|contradiction].
        destruct Hin as [<- | []]. reflexivity.
      * destruct Hin as [<- | []]. reflexivity.
    + intros [j [v [Hj [Hs [Hmax Hi]]]]].
      exists (j, v).
      split; [apply (@scored_options_spec row scored j v Hscored); now split|].
      cbn [fst snd]. rewrite Hmax. cbn [negb].
      destruct (String.eqb _ "Pilihan").
      * rewrite Hi. now left.
      * subst i. now left.
Qed.

Lemma max_score_is_maximal row scored v :
  scored_options row = Ok scored ->
  (exists j, j < 6 /\ slot_score row j = Ok (Some v)) ->
  (Qeq_bool v (max_score scored) = true <->
   forall k t, k < 6 -> slot_score row k = Ok (Some t) -> (t <= v)%Q).
Proof.
  intros Hscored [j [Hj Hs]].
  assert (Hin : In (j, v) scored)
    by (apply (@scored_options_spec row scored j v Hscored); now split).
  split.
  - intros Hmax k t Hk Ht. apply Qeq_bool_iff in Hmax.
    assert (Hk' : In (k, t) scored)
      by (apply (@scored_options_spec row scored k t Hscored); now split).
    pose proof (max_score_ge _ _ Hk') as Hge. cbn [snd] in Hge. lra.
  - intro Hall. apply Qeq_bool_iff.
    destruct (max_score_attained (scored := scored))
      as [[k t] [Hk Hmax]].
    { intro E. rewrite E in Hin. contradiction. }
    pose proof (max_score_ge _ _ Hin) as Hge. cbn [snd] in Hge, Hmax.
    apply (@scored_options_spec row scored k t Hscored) in Hk as [Hk Ht].
    pose proof (Hall k t Hk Ht). rewrite Hmax in *. lra.
Qed.

(** X17.  When no score cell is an integer too large for a float, the
    chosen-option slot has no numeric score and a lettered option has one,
    the correct options are exactly the lettered options whose score, as a
    float, is maximal among the numeric scores of the row: with a tie every
    option that holds the maximum is correct, and the chosen letter, the
    true-answer field and the old explanation are not consulted. *)
Theorem maximal_scores_are_the_correct_options
  (row : Row) (option_texts : list text) (j0 : nat) (s0 : Q) :
  scores_convert row ->
  slot_score row 5 = Ok None ->
  j0 < 5 -> slot_score row j0 = Ok (Some s0) ->
  exists correct,
    _infer_correct_indices row option_texts = Ok correct
    /\ NoDup correct
    /\ forall i,
         In i correct <->
         i < 5
         /\ exists s,
              slot_score row i = Ok (Some s)
              /\ forall k t, k < 6 -> slot_score row k = Ok (Some t) ->
                             (t <= s)%Q.
Proof.
  intros Hconv Hchosen Hj0 Hs0.
  destruct (@scored_options_returns row Hconv) as [scored Hscored].
  assert (Hspec : forall i,
            In i (indices_by_score row scored) <->
            i < 5
            /\ exists s,
                 slot_score row i = Ok (Some s)
                 /\ forall k t, k < 6 -> slot_score row k = Ok (Some t) ->
                                (t <= s)%Q).
  { intro i. rewrite (@indices_by_score_In row scored i Hscored). split.
    - intros [j [v [Hj [Hs [Hmax Hi]]]]].
      assert (Hj5 : j < 5).
      { destruct (Nat.eq_dec j 5) as [-> | Hne]; [congruence | lia]. }
      rewrite lettered_label_not_pilihan in Hi by exact Hj5. subst i.
      split; [exact Hj5|]. exists v. split; [exact Hs|].
      apply (@max_score_is_maximal row scored v Hscored); [|exact Hmax].
      exists j. now split.
    - intros [Hi [s [Hs Hall]]].
      exists i, s. split; [lia|]. split; [exact Hs|]. split.
      + apply (@max_score_is_maximal row scored s Hscored); [|exact Hall].
        exists i. split; [lia | exact Hs].
      + now rewrite lettered_label_not_pilihan. }
  assert (Hsome : indices_by_score row scored <> []).
  { assert (Hin : In (j0, s0) scored)
      by (apply (@scored_options_spec row scored j0 s0 Hscored);
          split; [lia | exact Hs0]).
    destruct (max_score_attained (scored := scored))
      as [[k t] [Hk Hmax]].
    { intro E. rewrite E in Hin. contradiction. }
    apply (@scored_options_spec row scored k t Hscored) in Hk as [Hk Ht].
    cbn [snd] in Hmax.
    assert (Hk5 : k < 5).
    { destruct (Nat.eq_dec k 5) as [-> | Hne]; [congruence | lia]. }
    intro E.
    assert (H : In k (indices_by_score row scored)).
    { apply (@indices_by_score_In row scored k Hscored). exists k, t.
      split; [exact Hk|]. split; [exact Ht|]. split.
      - apply Qeq_bool_iff. now rewrite Hmax.
      - now rewrite lettered_label_not_pilihan. }
    rewrite E in H. contradiction. }
  rewrite (@infer_correct_indices_with row option_texts scored Hscored).
  destruct (indices_by_score row scored) as [|i0 rest] eqn:E; [congruence|].
  rewrite <- E in *. eexists. split; [reflexivity|]. split.
  - apply dedupe_from_NoDup.
  - intro i. rewrite dedupe_In. apply Hspec.
Qed.

Lemma no_scores_no_strategy_one row scored :
  scored_options row = Ok scored ->
  (forall j, j < 6 -> slot_score row j = Ok None) ->
  indices_by_score row scored = [].
Proof.
  intros Hscored H. unfold indices_by_score.
  destruct scored as [|[j v] rest] eqn:E; [reflexivity|].
  assert (Hin : In (j, v) ((j, v) :: rest)) by now left.
  apply (@scored_options_spec row _ j v Hscored) in Hin as [Hj Hs].
  rewrite (H j Hj) in Hs. discriminate.
Qed.

(** X18.  When no slot of the row has a numeric score, the chosen letter
    decides: if the text of the [option_number] field, without surrounding
    white space and in upper case, is a letter A..E or "PILIHAN " and such
    a letter, and the option list is long enough, the correct options are
    the one option of that letter, which is one of the five slots. *)
Theorem chosen_letter_decides_without_scores
  (row : Row) (option_texts : list text) (mapped : nat) :
  (forall j, j < 6 -> slot_score row j = Ok None) ->
  mapping_get (option_number_code row) = Some mapped ->
  mapped < List.length option_texts ->
  _infer_correct_indices row option_texts = Ok [mapped] /\ mapped < 5.
Proof.
  intros Hnone Hmap Hlen.
  split; [|now apply mapping_get_bound in Hmap].
  assert (Hconv : scores_convert row)
    by (intros j Hj; exists None; now apply Hnone).
  destruct (@scored_options_returns row Hconv) as [scored Hscored].
  rewrite (@infer_correct_indices_with row option_texts scored Hscored).
  rewrite (@no_scores_no_strategy_one row scored Hscored Hnone).
  unfold indices_by_option_number. rewrite Hmap.
  apply Nat.ltb_lt in Hlen. now rewrite Hlen.
Qed.

Lemma flat_map_enumerate_spec {A} (keep : nat * A -> bool) (l : list A) n :
  let picked :=
    flat_map (fun e : nat * A => if keep e then [fst e] else [])
             (combine (seq n (List.length l)) l) in
  NoDup picked /\ forall j, In j picked -> n <= j < n + List.length l.
Proof.
  revert n. induction l as [|x l IH]; intro n; cbn [List.length seq combine flat_map].
  - split; [constructor | intros j []].
  - destruct (IH (S n)) as [Hnd Hin]. cbv zeta in *.
    destruct (keep (n, x)); cbn [fst app].
    + split.
      * constructor; [|exact Hnd]. intro H. apply Hin in H. lia.
      * intros j [<- | H]; [lia | apply Hin in H; lia].
    + split; [exact Hnd|]. intros j H. apply Hin in H. lia.
Qed.

Lemma indices_by_answer_spec cleaned_answer option_texts :
  NoDup (indices_by_answer cleaned_answer option_texts)
  /\ forall j, In j (indices_by_answer cleaned_answer option_texts) ->
               j < List.length option_texts.
Proof.
  unfold indices_by_answer, enumerate.
  set (keep := fun e : nat * text =>
                 negb (teqb (strip (lower (snd e))) [])
                 && (teqb cleaned_answer (strip (lower (snd e)))
                     || endswith (strip (lower (snd e))) cleaned_answer
                     || contains (strip (lower (snd e))) cleaned_answer)).
  assert (E : forall l : list (nat * text),
            flat_map
              (fun e : nat * text =>
                 let candidate := strip (lower (snd e)) in
                 if teqb candidate [] then []
                 else if teqb cleaned_answer candidate
                         || endswith candidate cleaned_answer
                         || contains candidate cleaned_answer
                 then [fst e] else []) l
            = flat_map (fun e => if keep e then [fst e] else []) l).
  { intro l. apply flat_map_ext. intro e. unfold keep. cbv zeta.
    destruct (teqb (strip (lower (snd e))) []); reflexivity. }
  rewrite E.
  destruct (flat_map_enumerate_spec keep option_texts 0) as [Hnd Hin].
  split; [exact Hnd|]. intros j Hj. apply Hin in Hj. lia.
Qed.

Lemma first_in_segment_spec answer_segment (opts : list (nat * text)) :
  first_in_segment answer_segment opts = []
  \/ exists e, In e opts /\ first_in_segment answer_segment opts = [fst e].
Proof.
  induction opts as [|[idx t] opts IH]; cbn [first_in_segment]; [now left|].
  cbv zeta.
  destruct (teqb (strip (lower t)) []).
  - destruct IH as [IH | [e [He IH]]]; [now left|].
    right. exists e. split; [now right | exact IH].
  - destruct (startswith _ _ || contains _ _).
    + right. exists (idx, t). split; [now left | reflexivity].
    + destruct IH as [IH | [e [He IH]]]; [now left|].
      right. exists e. split; [now right | exact IH].
Qed.

Lemma enumerate_In {A} (l : list A) (e : nat * A) :
  In e (enumerate l) -> fst e < List.length l.
Proof.
  unfold enumerate. destruct e as [i x]. intro H.
  apply in_combine_l in H. apply in_seq in H. cbn [fst]. lia.
Qed.

Lemma infer_correct_indices_valid row option_texts correct :
  _infer_correct_indices row option_texts = Ok correct ->
  NoDup correct
  /\ forall j, In j correct -> j < 5 \/ j < List.length option_texts.
Proof.
  unfold _infer_correct_indices.
  destruct (scored_options row) as [scored|e] eqn:Hscored; cbn [bind_result];
    [|discriminate].
  intro H. injection H as <-.
  destruct (indices_by_score row scored) as [|i0 rest] eqn:E1.
  - destruct (indices_by_option_number row option_texts) as [|i1 rest1] eqn:E2.
    + destruct (indices_by_true_answer row option_texts) as [|i2 rest2] eqn:E3.
      * unfold indices_by_explanation.
        destruct (notna _); [|split; [constructor | intros j []]].
        destruct (search_answer_segment _) as [segment|];
          [|split; [constructor | intros j []]].
        destruct (first_in_segment_spec segment (enumerate option_texts))
          as [-> | [e [He ->]]]; [split; [constructor | intros j []]|].
        split; [constructor; [intros [] | constructor]|].
        intros j [<- | []]. right. now apply enumerate_In.
      * rewrite <- E3. unfold indices_by_true_answer.
        destruct (notna _); [|split; [constructor | intros j []]].
        destruct (indices_by_answer_spec
                    (lower (_sanitize_text
                              (cell_str (get row "answer_header_true"))))
                    option_texts) as [Hnd Hin].
        split; [exact Hnd|]. intros j Hj. right. now apply Hin.
    + rewrite <- E2. unfold indices_by_option_number.
      destruct (mapping_get (option_number_code row)) as [m|];
        [|split; [constructor | intros j []]].
      destruct (m <? List.length option_texts) eqn:Hlt;
        [|split; [constructor | intros j []]].
      apply Nat.ltb_lt in Hlt.
      split; [constructor; [intros [] | constructor]|].
      intros j [<- | []]. now right.
  - rewrite <- E1. split; [apply dedupe_from_NoDup|].
    intros j Hj. rewrite dedupe_In in Hj.
    apply (@indices_by_score_In row scored j Hscored) in Hj
      as [k [v [Hk [_ [_ Hi]]]]].
    left. destruct (String.eqb _ "Pilihan") eqn:Hp.
    + now apply mapping_get_bound in Hi.
    + subst j. destruct (Nat.eq_dec k 5) as [-> | Hne]; [discriminate Hp | lia].
Qed.

Lemma textful_first_In correct om j :
  In j (textful_first correct om) <-> In j correct.
Proof.
  unfold textful_first. destruct correct as [|i rest]; [reflexivity|].
  set (correct := i :: rest).
  destruct (filter (has_text om) correct) as [|t0 textful] eqn:E;
    [reflexivity|].
  rewrite <- E. rewrite in_app_iff, !filter_In, negb_true_iff.
  split.
  - intros [[H _] | [H _]]; exact H.
  - intro H. destruct (mem_nat j (filter (has_text om) correct)) eqn:Hm.
    + left. apply mem_nat_In in Hm. now apply filter_In in Hm.
    + right. now split.
Qed.

Lemma textful_first_NoDup correct om :
  NoDup correct -> NoDup (textful_first correct om).
Proof.
  intro Hnd. unfold textful_first. destruct correct as [|i rest]; [exact Hnd|].
  set (correct := i :: rest) in *.
  destruct (filter (has_text om) correct) as [|t0 textful] eqn:E;
    [exact Hnd|].
  rewrite <- E. clear E.
  apply NoDup_app.
  - now apply NoDup_filter.
  - now apply NoDup_filter.
  - intros x Hx Hx'. apply filter_In in Hx' as [_ Hx'].
    apply negb_true_iff, mem_nat_notIn in Hx'. contradiction.
Qed.

Lemma build_prompt_raises_overflow row e :
  build_prompt row = Raise e ->
  e = OverflowError /\ exists j, j < 6 /\ slot_score row j = Raise OverflowError.
Proof.
  intro H.
  destruct (_infer_correct_indices row (build_option_map row))
    as [inferred|e'] eqn:E.
  - destruct (@build_prompt_with row inferred E) as [p [Hp _]]. congruence.
  - rewrite (@build_prompt_raise row e' E) in H. injection H as <-.
    now apply (@infer_correct_indices_raise row (build_option_map row)).
Qed.

(** X19.  [build_prompt] raises nothing but the [OverflowError] of a score
    that is an integer too large for a float.  When it returns, its two
    index lists are lists of option slots: the option map has five entries,
    neither list holds an index twice or an index outside 0..4, the correct
    list has the members that the inference gives, and the incorrect list
    is in ascending order. *)
Theorem prompt_index_lists_are_valid (row : Row) :
  match build_prompt row with
  | Ok p =>
      List.length (option_map p) = 5
      /\ NoDup (correct_indices p)
      /\ Forall (fun j => j < 5) (correct_indices p)
      /\ (exists inferred,
            _infer_correct_indices row (option_map p) = Ok inferred
            /\ forall j, In j (correct_indices p) <-> In j inferred)
      /\ NoDup (incorrect_indices p)
      /\ Forall (fun j => j < 5) (incorrect_indices p)
      /\ StronglySorted lt (incorrect_indices p)
  | Raise e =>
      e = OverflowError
      /\ exists j, j < 6 /\ slot_score row j = Raise OverflowError
  end.
Proof.
  destruct (build_prompt row) as [p|e] eqn:Hp;
    [|now apply build_prompt_raises_overflow].
  destruct (@build_prompt_ok row p Hp)
    as [inferred [Hinfer [_ [Hlen [Hcorrect Hincorrect]]]]].
  destruct (@infer_correct_indices_valid row (option_map p) inferred Hinfer)
    as [Hnd Hin].
  split; [exact Hlen|]. split; [|split; [|split; [|split; [|split]]]].
  - rewrite Hcorrect. now apply textful_first_NoDup.
  - apply Forall_forall. intros j Hj. rewrite Hcorrect in Hj.
    apply textful_first_In in Hj. apply Hin in Hj. lia.
  - exists inferred. split; [exact Hinfer|].
    intro j. rewrite Hcorrect. apply textful_first_In.
  - rewrite Hincorrect. unfold incorrect_of. apply NoDup_filter, seq_NoDup.
  - apply Forall_forall. intros j Hj. rewrite Hincorrect in Hj.
    apply incorrect_of_In in Hj. lia.
  - rewrite Hincorrect. unfold incorrect_of.
    generalize (fun idx : nat =>
                  negb (mem_nat idx (correct_indices p))
                  && has_text (option_map p) idx).
    generalize (List.length (option_map p)). generalize 0.
    intros start len keep. revert start.
    induction len as [|len IH]; intro start; cbn [seq filter]; [constructor|].
    destruct (keep start); [|apply IH].
    constructor; [apply IH|].
    apply Forall_forall. intros j Hj. apply filter_In in Hj as [Hj _].
    apply in_seq in Hj. lia.
Qed.

(** X20.  Every option that has a text is explained: each slot with a
    non-empty option text is in the ordered correct list or in the ordered
    incorrect list of the row. *)
Theorem every_populated_option_is_classified
  (row : Row) (p : PromptData) (correct incorrect : list nat) (j : nat) :
  build_prompt row = Ok p ->
  ordered_correct row = Ok correct ->
  ordered_incorrect row = Ok incorrect ->
  has_text (option_map p) j = true ->
  In j correct \/ In j incorrect.
Proof.
  intros Hp Hc Hi Htext.
  destruct (@ordered_lists_ok row p correct Hp Hc) as [scores [_ [-> Hi']]].
  assert (incorrect
          = _order_indices (incorrect_indices p) scores (option_map p))
    by congruence. subst incorrect.
  destruct (@build_prompt_ok row p Hp) as [inferred [_ [_ [_ [_ Hinc]]]]].
  rewrite !order_indices_elements.
  destruct (mem_nat j (correct_indices p)) eqn:E.
  - left. apply mem_nat_In in E. now split.
  - right. split; [|exact Htext].
    rewrite Hinc.
    apply incorrect_of_In. apply mem_nat_notIn in E.
    apply has_text_spec in Htext. ptauto.
Qed.

(** ** Rows without a correct option *)

(** X21.  A row that is not excluded and for which no correct option with a
    text is found is passed over: no call is made to the model, the outcome
    is [NoCorrectAnswer], and the loop leaves the data frame as it was and
    reports no updated row. *)
Theorem row_without_correct_option_is_not_sent
  (row : Row) (log : list Call) :
  _should_skip_row (get row "category") (get row "sub_category") = None ->
  ordered_correct row = Ok [] ->
  process_row row log = (Ok NoCorrectAnswer, log)
  /\ generate_ai_explanations [row] [0] log = (Ok ([row], []), log).
Proof.
  intros Hskip Hnone.
  assert (Hrow : process_row row log = (Ok NoCorrectAnswer, log)).
  { apply ordered_correct_ok in Hnone as [p [scores [Hp [Hs Hnone]]]].
    unfold process_row, try_except.
    rewrite (@row_body_with row p scores log Hskip Hp Hs).
    unfold explain_row. cbv zeta. now rewrite <- Hnone. }
  split; [exact Hrow|].
  cbn [generate_ai_explanations nth_error]. unfold bind.
  now rewrite Hrow.
Qed.

(** ** The loop over the rows *)

Lemma process_row_returns row log :
  exists o log1, process_row row log = (Ok o, log1).
Proof.
  unfold process_row, try_except.
  destruct (row_body row log) as [[o|e] log1]; eexists; eexists; reflexivity.
Qed.

Lemma set_row_length df row_idx row :
  List.length (set_row df row_idx row) = List.length df.
Proof.
  revert row_idx. induction df as [|r df IH]; intros [|n]; cbn [set_row List.length];
    try reflexivity. now rewrite IH.
Qed.

Lemma set_row_same df row_idx row :
  row_idx < List.length df -> nth_error (set_row df row_idx row) row_idx = Some row.
Proof.
  revert row_idx. induction df as [|r df IH]; intros [|n] H;
    cbn [List.length] in H; cbn [set_row nth_error]; try lia; [reflexivity|].
  apply IH. lia.
Qed.

Lemma set_row_other df row_idx row i :
  i <> row_idx -> nth_error (set_row df row_idx row) i = nth_error df i.
Proof.
  revert row_idx i. induction df as [|r df IH]; intros [|n] [|i] H;
    cbn [set_row nth_error]; try reflexivity; try congruence.
  apply IH. congruence.
Qed.

Lemma get_set_cell_other row col value other :
  other <> col -> get (set_cell row col value) other = get row other.
Proof.
  intro H. unfold get, set_cell. cbn [lookup].
  destruct (String.eqb col other) eqn:E; [|reflexivity].
  apply String.eqb_eq in E. congruence.
Qed.

Lemma get_set_cell_same row col value : get (set_cell row col value) col = value.
Proof. unfold get, set_cell. cbn [lookup]. now rewrite String.eqb_refl. Qed.

Lemma nth_of_nth_error (df : list Row) i row :
  nth_error df i = Some row -> nth i df [] = row.
Proof. intro H. now apply nth_error_nth. Qed.

Lemma nth_error_same_nth (a b : list Row) i :
  nth_error a i = nth_error b i -> nth i a [] = nth i b [].
Proof.
  intro H. destruct (nth_error b i) as [row|] eqn:E.
  - rewrite (nth_of_nth_error a i row H). symmetry.
    now apply nth_of_nth_error.
  - apply nth_error_None in H, E. now rewrite !nth_overflow.
Qed.

(** One step of the loop, for a target that is a row of the frame. *)
Lemma generate_step df row_idx rest log row :
  nth_error df row_idx = Some row ->
  exists o log1,
    process_row row log = (Ok o, log1)
    /\ generate_ai_explanations df (row_idx :: rest) log =
       match o with
       | Updated explanation_text =>
           match generate_ai_explanations
                   (set_row df row_idx
                      (set_cell row "explanation_ai" (CText explanation_text)))
                   rest log1 with
           | (Ok r, log') => (Ok (fst r, row_idx :: snd r), log')
           | (Raise e, log') => (Raise e, log')
           end
       | _ => generate_ai_explanations df rest log1
       end.
Proof.
  intro Hrow. destruct (process_row_returns row log) as [o [log1 Ho]].
  exists o, log1. split; [exact Ho|].
  cbn [generate_ai_explanations]. rewrite Hrow. unfold bind at 1. rewrite Ho.
  destruct o; reflexivity.
Qed.

Lemma generate_frame targets :
  forall df log df' updated log',
    generate_ai_explanations df targets log = (Ok (df', updated), log') ->
    List.length df' = List.length df
    /\ (forall i col, col <> "explanation_ai"%string ->
          get (nth i df' []) col = get (nth i df []) col)
    /\ (forall i, ~ In i updated -> nth_error df' i = nth_error df i)
    /\ (forall i, In i updated ->
          In i targets
          /\ exists doc, get (nth i df' []) "explanation_ai" = CText doc)
    /\ List.length updated <= List.length targets.
Proof.
  induction targets as [|row_idx rest IH]; intros df log df' updated log' Hrun.
  - cbn [generate_ai_explanations] in Hrun. unfold ret in Hrun.
    injection Hrun as <- <- <-.
    split; [reflexivity|]. split; [reflexivity|]. split; [reflexivity|].
    split; [intros i [] | cbn [List.length]; lia].
  - destruct (nth_error df row_idx) as [row|] eqn:Hrow.
    2:{ cbn [generate_ai_explanations] in Hrun. rewrite Hrow in Hrun.
        discriminate Hrun. }
    destruct (generate_step df row_idx rest log row Hrow)
      as [o [log1 [_ Hstep]]].
    rewrite Hstep in Hrun. clear Hstep.
    assert (Hother : generate_ai_explanations df rest log1
                     = (Ok (df', updated), log') ->
                     List.length df' = List.length df
                     /\ (forall i col, col <> "explanation_ai"%string ->
                           get (nth i df' []) col = get (nth i df []) col)
                     /\ (forall i, ~ In i updated ->
                           nth_error df' i = nth_error df i)
                     /\ (forall i, In i updated ->
                           In i (row_idx :: rest)
                           /\ exists doc,
                                get (nth i df' []) "explanation_ai" = CText doc)
                     /\ List.length updated <= List.length (row_idx :: rest)).
    { intro H. destruct (IH _ _ _ _ _ H) as [H1 [H2 [H3 [H4 H5]]]].
      repeat split; try assumption.
      - right. now apply H4.
      - now apply H4.
      - cbn [List.length]. lia. }
    destruct o as [reason| |shown|explanation_text|e]; try (now apply Hother).
    clear Hother.
    set (df1 := set_row df row_idx
                  (set_cell row "explanation_ai" (CText explanation_text))) in *.
    destruct (generate_ai_explanations df1 rest log1) as [[[dfr upr]|e] log2]
      eqn:Hrest; [|discriminate Hrun].
    cbn [fst snd] in Hrun. injection Hrun as <- <- <-.
    destruct (IH _ _ _ _ _ Hrest) as [H1 [H2 [H3 [H4 H5]]]].
    assert (Hlt : row_idx < List.length df)
      by (apply nth_error_Some; rewrite Hrow; discriminate).
    assert (Hcol : forall i col, col <> "explanation_ai"%string ->
                     get (nth i df1 []) col = get (nth i df []) col).
    { intros i col Hne. destruct (Nat.eq_dec i row_idx) as [-> | Hi].
      - rewrite (nth_of_nth_error df1 row_idx _ (set_row_same df row_idx _ Hlt)).
        rewrite (nth_of_nth_error df row_idx _ Hrow).
        now apply get_set_cell_other.
      - pose proof (set_row_other df row_idx
                      (set_cell row "explanation_ai" (CText explanation_text))
                      i Hi) as E.
        fold df1 in E. now rewrite (nth_error_same_nth _ _ _ E). }
    split; [|split; [|split; [|split]]].
    + rewrite H1. apply set_row_length.
    + intros i col Hne. rewrite H2 by exact Hne. now apply Hcol.
    + intros i Hi. rewrite H3 by (intro H; apply Hi; now right).
      apply set_row_other. intros ->. apply Hi. now left.
    + intros i [<- | Hi].
      * split; [now left|].
        destruct (in_dec Nat.eq_dec row_idx upr) as [Hin | Hout].
        -- now apply H4.
        -- exists explanation_text.
           rewrite (nth_of_nth_error dfr row_idx
                      (set_cell row "explanation_ai" (CText explanation_text))).
           ++ apply get_set_cell_same.
           ++ rewrite H3 by exact Hout. now apply set_row_same.
      * split; [right; now apply H4 | now apply H4].
    + cbn [List.length]. lia.
Qed.


(** X22.  A run of the loop touches nothing but the [explanation_ai] cell of
    the rows it reports: the frame keeps its number of rows, every other
    column of every row is as before, and a row that is not among the
    updated rows is unchanged.  The rows reported as updated are target
    rows, there are at most as many of them as targets, and each of them
    holds a document text in its [explanation_ai] cell when the run ends. *)
Theorem run_changes_only_the_explanation_column
  (df : list Row) (targets : list nat) (log : list Call)
  (df' : list Row) (updated : list nat) (log' : list Call) :
  generate_ai_explanations df targets log = (Ok (df', updated), log') ->
  List.length df' = List.length df
  /\ (forall i col, col <> "explanation_ai"%string ->
        get (nth i df' []) col = get (nth i df []) col)
  /\ (forall i, ~ In i updated -> nth_error df' i = nth_error df i)
  /\ (forall i, In i updated ->
        In i targets
        /\ exists doc, get (nth i df' []) "explanation_ai" = CText doc)
  /\ List.length updated <= List.length targets.
Proof. apply generate_frame. Qed.

Lemma generate_ends targets :
  forall df log,
    match generate_ai_explanations df targets log with
    | (Ok _, _) => Forall (fun i => i < List.length df) targets
    | (Raise e, _) =>
        e = KeyError /\ Exists (fun i => List.length df <= i) targets
    end.
Proof.
  induction targets as [|row_idx rest IH]; intros df log.
  - cbn [generate_ai_explanations]. unfold ret. constructor.
  - destruct (nth_error df row_idx) as [row|] eqn:Hrow.
    + assert (Hlt : row_idx < List.length df)
        by (apply nth_error_Some; rewrite Hrow; discriminate).
      destruct (generate_step df row_idx rest log row Hrow)
        as [o [log1 [_ Hstep]]].
      rewrite Hstep. clear Hstep.
      assert (Hother :
        match generate_ai_explanations df rest log1 with
        | (Ok _, _) => Forall (fun i => i < List.length df) (row_idx :: rest)
        | (Raise e, _) =>
            e = KeyError
            /\ Exists (fun i => List.length df <= i) (row_idx :: rest)
        end).
      { specialize (IH df log1).
        destruct (generate_ai_explanations df rest log1) as [[r|e] l].
        - now constructor.
        - destruct IH as [-> H]. split; [reflexivity | now apply Exists_cons_tl]. }
      destruct o as [reason| |shown|explanation_text|e]; try exact Hother.
      clear Hother.
      specialize (IH (set_row df row_idx
                        (set_cell row "explanation_ai" (CText explanation_text)))
                     log1).
      rewrite set_row_length in IH.
      destruct (generate_ai_explanations _ rest log1) as [[r|e] l].
      * now constructor.
      * destruct IH as [-> H]. split; [reflexivity | now apply Exists_cons_tl].
    + cbn [generate_ai_explanations]. rewrite Hrow. unfold raise.
      split; [reflexivity|]. apply Exists_cons_hd.
      now apply nth_error_None.
Qed.

(** X23.  No failure of a row stops the run: the loop ends normally whenever
    every target is a row of the frame; the only exception that leaves the
    loop is the [KeyError] of a target that is not a row of the frame. *)
Theorem run_aborts_only_on_a_missing_row
  (df : list Row) (targets : list nat) (log : list Call) :
  match generate_ai_explanations df targets log with
  | (Ok _, _) => Forall (fun i => i < List.length df) targets
  | (Raise e, _) =>
      e = KeyError /\ Exists (fun i => List.length df <= i) targets
  end.
Proof. apply generate_ends. Qed.

(** ** Calls to the model *)

Lemma ask_calls prompt log :
  exists calls,
    snd (ask prompt log) = log ++ calls
    /\ 1 <= List.length calls <= 2
    /\ Forall (fun c => call_prompt c = prompt) calls.
Proof.
  destruct (ask_log prompt log) as [H | H]; rewrite H; eexists;
    (split; [reflexivity|]); (split; [cbn [List.length]; lia|]);
    repeat constructor.
Qed.

Lemma bind_lift_ret_log {A B C} (m : M A) (f : A -> result B) (g : B -> C) log :
  snd (bind m (fun a => bind (lift (f a)) (fun b => ret (g b))) log)
  = snd (m log).
Proof.
  unfold bind, lift, ret. destruct (m log) as [[a|e] log1]; [|reflexivity].
  destruct (f a); reflexivity.
Qed.

Lemma bind_lift {A B} (r : result A) (k : A -> M B) log :
  bind (lift r) k log
  = match r with
    | Ok a => k a log
    | Raise e => (Raise e, log)
    end.
Proof. unfold bind, lift. destruct r; reflexivity. Qed.

Lemma retry_if_thin_log prompt data log :
  snd (retry_if_thin prompt data log) = log
  \/ snd (retry_if_thin prompt data log)
     = snd (ask (prompt ++ retry_suffix) log).
Proof.
  unfold retry_if_thin. rewrite bind_lift.
  destruct (dict_get data _ _) as [detail_value|e]; [|now left].
  rewrite bind_lift.
  destruct (_normalize_detail_paragraphs detail_value) as [paragraphs|e];
    [|now left].
  cbv zeta. destruct (_ <? _); [|now left]. right.
  unfold bind at 1.
  destruct (ask (prompt ++ retry_suffix) log) as [[retry_text|e] log2];
    [|reflexivity].
  rewrite bind_lift.
  destruct (_parse_response (unfence retry_text)); reflexivity.
Qed.

Lemma explain_row_calls row p scores log :
  let sent := prompt p in
  exists calls,
    snd (explain_row row p scores log) = log ++ calls
    /\ List.length calls <= 4
    /\ (_is_tiu_numerik (get row "category") (get row "sub_category") = false ->
        List.length calls <= 2)
    /\ Forall (fun c => call_prompt c = sent
                        \/ call_prompt c = sent ++ retry_suffix) calls.
Proof.
  intro sent.
  assert (Hnone : exists calls,
            log = log ++ calls /\ List.length calls <= 4
            /\ (_is_tiu_numerik (get row "category") (get row "sub_category")
                = false -> List.length calls <= 2)
            /\ Forall (fun c => call_prompt c = sent
                                \/ call_prompt c = sent ++ retry_suffix) calls).
  { exists []. rewrite app_nil_r. repeat split; cbn [List.length]; try lia.
    constructor. }
  unfold explain_row. cbv zeta.
  destruct (_order_indices (correct_indices p) _ _)
    as [|c0 correct]; [exact Hnone|].
  clear Hnone. fold sent.
  destruct (ask_calls sent log) as [calls1 [Hlog1 [Hlen1 Hall1]]].
  assert (Hfirst : exists calls,
            snd (ask sent log) = log ++ calls /\ List.length calls <= 4
            /\ (_is_tiu_numerik (get row "category") (get row "sub_category")
                = false -> List.length calls <= 2)
            /\ Forall (fun c => call_prompt c = sent
                                \/ call_prompt c = sent ++ retry_suffix) calls).
  { exists calls1. split; [exact Hlog1|]. split; [lia|]. split; [lia|].
    eapply Forall_impl; [|exact Hall1]. intros c Hc. now left. }
  unfold bind at 1.
  destruct (ask sent log) as [[raw_text|e] log1] eqn:Hask;
    cbn [snd] in *; [|exact Hfirst].
  rewrite bind_lift.
  destruct (_parse_response (unfence raw_text)) as [data|e];
    [|exact Hfirst].
  destruct (is_none data); [exact Hfirst|].
  rewrite bind_lift_ret_log.
  destruct (_is_tiu_numerik (get row "category") (get row "sub_category"));
    [|exact Hfirst].
  destruct (retry_if_thin_log sent data log1)
    as [H | H]; rewrite H; [exact Hfirst|].
  destruct (ask_calls (sent ++ retry_suffix) log1) as [calls2 [Hlog2 [Hlen2 Hall2]]].
  exists (calls1 ++ calls2). rewrite Hlog2, Hlog1, app_assoc.
  split; [reflexivity|]. rewrite length_app.
  split; [lia|]. split; [discriminate|].
  apply Forall_app. split.
  - eapply Forall_impl; [|exact Hall1]. intros c Hc. now left.
  - eapply Forall_impl; [|exact Hall2]. intros c Hc. now right.
Qed.

Lemma row_body_calls row log :
  exists calls,
    snd (row_body row log) = log ++ calls
    /\ List.length calls <= 4
    /\ (_is_tiu_numerik (get row "category") (get row "sub_category") = false ->
        List.length calls <= 2)
    /\ match build_prompt row with
       | Ok p =>
           Forall (fun c => call_prompt c = prompt p
                            \/ call_prompt c = prompt p ++ retry_suffix) calls
       | Raise _ => calls = []
       end.
Proof.
  assert (Hnone : exists calls : list Call,
            log = log ++ calls /\ List.length calls <= 4
            /\ (_is_tiu_numerik (get row "category") (get row "sub_category")
                = false -> List.length calls <= 2)
            /\ match build_prompt row with
               | Ok p =>
                   Forall (fun c => call_prompt c = prompt p
                                    \/ call_prompt c = prompt p ++ retry_suffix)
                          calls
               | Raise _ => calls = []
               end).
  { exists []. rewrite app_nil_r. repeat split; cbn [List.length]; try lia.
    destruct (build_prompt row); [constructor | reflexivity]. }
  destruct (_should_skip_row (get row "category") (get row "sub_category"))
    as [reason|] eqn:Hskip.
  - unfold row_body. rewrite Hskip. exact Hnone.
  - destruct (build_prompt row) as [p|e] eqn:Hp.
    + destruct (@extract_after_build row p Hp) as [scores Hs].
      rewrite (@row_body_with row p scores log Hskip Hp Hs).
      apply explain_row_calls.
    + rewrite (@row_body_raise row e log Hskip Hp). exact Hnone.
Qed.

Lemma process_row_log row log :
  snd (process_row row log) = snd (row_body row log).
Proof.
  unfold process_row, try_except.
  destruct (row_body row log) as [[o|e] log1]; reflexivity.
Qed.

Lemma generate_calls targets :
  forall df log,
    exists calls,
      snd (generate_ai_explanations df targets log) = log ++ calls
      /\ List.length calls <= 4 * List.length targets.
Proof.
  induction targets as [|row_idx rest IH]; intros df log.
  - exists []. cbn [generate_ai_explanations]. unfold ret. cbn [snd].
    rewrite app_nil_r. split; [reflexivity | cbn; lia].
  - destruct (nth_error df row_idx) as [row|] eqn:Hrow.
    + destruct (generate_step df row_idx rest log row Hrow)
        as [o [log1 [Ho Hstep]]].
      rewrite Hstep. clear Hstep.
      destruct (row_body_calls row log) as [calls1 [Hlog1 [Hlen1 _]]].
      rewrite <- process_row_log, Ho in Hlog1. cbn [snd] in Hlog1.
      assert (Hother : forall df0,
                exists calls,
                  snd (generate_ai_explanations df0 rest log1) = log ++ calls
                  /\ List.length calls <= 4 * List.length (row_idx :: rest)).
      { intro df0. destruct (IH df0 log1) as [calls2 [Hlog2 Hlen2]].
        exists (calls1 ++ calls2). rewrite Hlog2, Hlog1, app_assoc.
        split; [reflexivity|]. rewrite length_app. cbn [List.length]. lia. }
      destruct o as [reason| |shown|explanation_text|e]; try apply Hother.
      destruct (Hother (set_row df row_idx
                          (set_cell row "explanation_ai"
                             (CText explanation_text))))
        as [calls [Hlog Hlen]].
      exists calls. split; [|exact Hlen]. rewrite <- Hlog.
      destruct (generate_ai_explanations _ rest log1) as [[r|e] l]; reflexivity.
    + exists []. cbn [generate_ai_explanations]. rewrite Hrow. unfold raise.
      cbn [snd]. rewrite app_nil_r. split; [reflexivity | cbn; lia].
Qed.

(** X24.  The cost of a run is bounded: processing a row sends at most four
    calls to the model (at most two unless the row is numeric), each with
    the prompt of the row or with that prompt followed by the retry
    instruction (none at all when [build_prompt] raises), and only appends
    to the record of calls; a run over a list of targets sends at most four
    calls per target. *)
Theorem row_sends_at_most_four_calls
  (row : Row) (df : list Row) (targets : list nat) (log : list Call) :
  (exists calls,
     snd (process_row row log) = log ++ calls
     /\ List.length calls <= 4
     /\ (_is_tiu_numerik (get row "category") (get row "sub_category") = false ->
         List.length calls <= 2)
     /\ match build_prompt row with
        | Ok p =>
            Forall (fun c => call_prompt c = prompt p
                             \/ call_prompt c = prompt p ++ retry_suffix) calls
        | Raise _ => calls = []
        end)
  /\ exists calls,
       snd (generate_ai_explanations df targets log) = log ++ calls
       /\ List.length calls <= 4 * List.length targets.
Proof.
  split.
  - rewrite process_row_log. apply row_body_calls.
  - apply generate_calls.
Qed.

(** ** Failures of a row *)

Lemma dict_get_not_object data key default :
  is_none data = false -> (forall fields, data <> JObject fields) ->
  dict_get data key default = Raise AttributeError.
Proof.
  intros _ H. destruct data; try reflexivity.
  exfalso. now apply (H fields).
Qed.

(** X25.  A reply that decodes to something other than an object (a list, a
    string, a number, a boolean) fails the row with [AttributeError]: the
    failure is caught at the row boundary, nothing more is sent to the
    model, no document is written and the row is not among the updated
    rows. *)
Theorem reply_that_is_no_object_fails_the_row
  (row : Row) (p : PromptData) (correct : list nat) (log log1 : list Call)
  (reply : text) (data : json) :
  _should_skip_row (get row "category") (get row "sub_category") = None ->
  build_prompt row = Ok p ->
  ordered_correct row = Ok correct ->
  correct <> [] ->
  ask (prompt p) log = (Ok reply, log1) ->
  _parse_response (unfence reply) = Ok data ->
  is_none data = false ->
  (forall fields, data <> JObject fields) ->
  process_row row log = (Ok (Failed AttributeError), log1)
  /\ generate_ai_explanations [row] [0] log = (Ok ([row], []), log1).
Proof.
  intros Hskip Hp Hc Hne Hask Hparse Hsome Hobject.
  assert (Hrow : process_row row log = (Ok (Failed AttributeError), log1)).
  { destruct (@ordered_lists_ok row p correct Hp Hc) as [scores [Hs [-> _]]].
    unfold process_row, try_except.
    rewrite (@row_body_with row p scores log Hskip Hp Hs).
    unfold explain_row. cbv zeta.
    destruct (_order_indices (correct_indices p) scores (option_map p))
      as [|i rest]; [congruence|].
    unfold bind at 1. rewrite Hask. rewrite bind_lift, Hparse, Hsome.
    destruct (_is_tiu_numerik (get row "category") (get row "sub_category")).
    - unfold bind at 1. unfold retry_if_thin. rewrite bind_lift.
      now rewrite (dict_get_not_object data _ _ Hsome Hobject).
    - unfold bind, ret, lift, assemble.
      now rewrite (dict_get_not_object data _ _ Hsome Hobject). }
  split; [exact Hrow|].
  cbn [generate_ai_explanations nth_error]. unfold bind.
  now rewrite Hrow.
Qed.

(** X26.  The call with the JSON generation config is tried first.  When it
    raises, the same prompt is sent once more without the config and the
    text of that answer, without its surrounding white space, is the
    reply; when that call raises too, the row fails with the error of the
    client, after exactly these two calls, and is not updated. *)
Theorem failing_call_is_repeated_without_config
  (row : Row) (p : PromptData) (log : list Call) :
  build_prompt row = Ok p ->
  let sent := prompt p in
  let with_config := {| call_prompt := sent; call_json_mode := JSON_CONFIG |} in
  let without_config := {| call_prompt := sent; call_json_mode := NO_CONFIG |} in
  generate_content log with_config = None ->
  (forall t,
      generate_content (log ++ [with_config]) without_config
        = Some (ResponseText t) ->
      ask sent log = (Ok (strip t), log ++ [with_config; without_config]))
  /\ (forall correct,
      _should_skip_row (get row "category") (get row "sub_category") = None ->
      ordered_correct row = Ok correct ->
      correct <> [] ->
      generate_content (log ++ [with_config]) without_config = None ->
      process_row row log
      = (Ok (Failed ModelError), log ++ [with_config; without_config])).
Proof.
  intros Hp sent with_config without_config Hfirst. split.
  - intros t Hsecond. unfold ask, bind, try_except, call_model.
    fold with_config without_config. rewrite Hfirst, Hsecond.
    unfold ret. now rewrite <- app_assoc.
  - intros correct Hskip Hc Hne Hsecond.
    destruct (@ordered_lists_ok row p correct Hp Hc) as [scores [Hs [-> _]]].
    unfold process_row, try_except.
    rewrite (@row_body_with row p scores log Hskip Hp Hs).
    unfold explain_row. cbv zeta.
    destruct (_order_indices (correct_indices p) scores (option_map p))
      as [|i rest]; [congruence|].
    unfold bind at 1. unfold ask, bind, try_except, call_model.
    fold sent with_config without_config. rewrite Hfirst, Hsecond.
    now rewrite <- app_assoc.
Qed.

(** ** The head of the document *)

Lemma startswith_split (p s : text) :
  startswith p s = true -> exists r, s = p ++ r.
Proof.
  revert s. induction p as [|x p IH]; intros s H; [now exists s|].
  destruct s as [|y s]; [discriminate|]. cbn [startswith] in H.
  apply andb_prop in H as [Hx H]. apply Ascii.eqb_eq in Hx. subst y.
  destruct (IH s H) as [r ->]. now exists r.
Qed.

Lemma join_head sep x (l : list text) : exists t, join sep (x :: l) = x ++ t.
Proof.
  destruct l as [|y l]; cbn [join].
  - exists []. now rewrite app_nil_r.
  - eexists. reflexivity.
Qed.

Lemma wrap_math_tex_keeps_plain_start (a b : text) :
  ~ In BACKSLASH a -> exists r, _wrap_math_tex (a ++ b) = a ++ r.
Proof.
  intro Ha. rewrite wrap_math_tex_passes. unfold re_sub.
  rewrite (re_sub_math_prefix "(" ")" math_span a b Ha).
  rewrite re_sub_math_prefix by exact Ha. eexists. reflexivity.
Qed.

Lemma label_with_score_start option_text score include_score :
  exists r, _label_with_score option_text score include_score
            = strip option_text ++ r.
Proof.
  unfold _label_with_score. cbv zeta.
  destruct include_score; [|exists []; now rewrite app_nil_r].
  destruct (_format_score score) as [[|c t]|];
    try (exists []; now rewrite app_nil_r).
  eexists. reflexivity.
Qed.

Lemma ensure_trailing_period_start text :
  exists r, _ensure_trailing_period text = text ++ r.
Proof.
  unfold _ensure_trailing_period. destruct text as [|c t].
  - now exists [].
  - destruct (ends_sentence (c :: t)); [exists []; now rewrite app_nil_r|].
    eexists. reflexivity.
Qed.

Ltac lift_lets :=
  repeat match goal with
  | |- ?P (let x := ?v in @?b x) =>
      change (let x := v in P (b x)); intro; cbv beta
  end.

Lemma correct_part_heading (P : CorrectPart -> Prop)
  (summary : text) (details : list text) (table : text) (om : list text)
  (c0 : nat) (rest : list nat) (scores : list (option Q))
  (include numerik analitis : bool) :
  c0 < List.length om -> strip (nth c0 om []) <> [] ->
  (forall line more main,
      (exists r, line = txt "Jawaban yang tepat: " ++ r) ->
      (numerik = false ->
       exists r, line = txt "Jawaban yang tepat: " ++ strip (nth c0 om []) ++ r) ->
      P {| part_fragments :=
             _format_paragraph (txt "<strong>" ++ line ++ txt "</strong>") true
             :: more;
           part_main_option := main |}) ->
  P (correct_part summary details table om (c0 :: rest) scores include
                  numerik analitis).
Proof.
  intros Hlt Hne HP. apply Nat.ltb_lt in Hlt.
  cbv beta delta [correct_part]. lift_lets.
  assert (Hmain : main_option = strip (nth c0 om []))
    by (unfold main_option; now rewrite Hlt).
  assert (Hfull : nonempty main_option = true)
    by (rewrite Hmain; destruct (strip (nth c0 om [])); [congruence | reflexivity]).
  rewrite Hfull, orb_true_r. cbv iota. lift_lets.
  assert (Hmain0 : main_option0 = main_option)
    by reflexivity.
  assert (Hprimary : primary_text0 = strip (nth c0 om [])).
  { unfold primary_text0, primary_text. rewrite Hmain0, Hfull, Hmain.
    apply strip_idempotent. }
  assert (Hheading : exists line,
            heading = [_format_paragraph
                         (txt "<strong>" ++ line ++ txt "</strong>") true]
            /\ (exists r, line = txt "Jawaban yang tepat: " ++ r)
            /\ (numerik = false ->
                exists r, line = txt "Jawaban yang tepat: "
                                 ++ strip (nth c0 om []) ++ r)).
  { unfold heading. rewrite Hprimary.
    assert (Hidem : strip (strip (nth c0 om [])) = strip (nth c0 om []))
      by apply strip_idempotent.
    destruct (strip (nth c0 om [])) as [|m0 main'] eqn:Emain; [congruence|].
    cbv zeta. eexists. split; [reflexivity|].
    destruct (label_with_score_start (m0 :: main') main_score include)
      as [r1 Hlabel].
    rewrite Hidem in Hlabel. rewrite Hlabel.
    destruct numerik; cbn [negb].
    - split; [|discriminate].
      apply wrap_math_tex_keeps_plain_start.
      intro H. vm_compute in H.
      repeat (destruct H as [H | H]; [discriminate H|]). exact H.
    - destruct (ensure_trailing_period_start
                  (txt "Jawaban yang tepat: " ++ (m0 :: main') ++ r1))
        as [r2 ->].
      split.
      + eexists. rewrite <- app_assoc. reflexivity.
      + intros _. eexists. rewrite <- !app_assoc. reflexivity. }
  destruct Hheading as [line [Hheading [Hline Hoption]]].
  cbv beta delta [finish_correct_part]. cbv zeta.
  rewrite Hheading. cbn [app]. now apply HP.
Qed.

Lemma assemble_opens_with_the_correct_answer
  (data : json) (option_map : list text) (first_correct : nat)
  (more_correct incorrect : list nat) (scores : list (option Q))
  (include_scores is_tiu_numerik is_verbal_analitis : bool)
  (question_summary doc : text) :
  first_correct < List.length option_map ->
  strip (nth first_correct option_map []) <> [] ->
  assemble data option_map (first_correct :: more_correct) incorrect scores
           include_scores is_tiu_numerik is_verbal_analitis question_summary
  = Ok doc ->
  let opening :=
    txt "<p style=" ++ quoted (txt "text-align:justify")
    ++ txt "><strong>Jawaban yang tepat: " in
  startswith opening doc = true
  /\ (is_tiu_numerik = false ->
      startswith (opening ++ strip (nth first_correct option_map [])) doc
      = true).
Proof.
  intros Hlt Hne Hdoc opening.
  unfold assemble in Hdoc.
  destruct (dict_get data (txt "correct_summary") (JString [])) as [summary|];
    [|discriminate Hdoc]. cbn [bind_result] in Hdoc.
  destruct (dict_get data (txt "detail_paragraphs") JNull) as [detail_value|];
    [|discriminate Hdoc]. cbn [bind_result] in Hdoc.
  destruct (_normalize_detail_paragraphs detail_value) as [paragraphs|];
    [|discriminate Hdoc]. cbn [bind_result] in Hdoc.
  destruct (dict_get data (txt "incorrect_reasons") JNull) as [reasons|];
    [|discriminate Hdoc]. cbn [bind_result] in Hdoc.
  destruct (dict_get data (txt "table_html") (JString [])) as [table_value|];
    [|discriminate Hdoc]. cbn [bind_result] in Hdoc.
  revert Hdoc.
  apply correct_part_heading; try assumption.
  intros line more main Hline Hoption. cbn [part_fragments part_main_option].
  assert (Hgoal : forall t,
            startswith opening
              (_format_paragraph (txt "<strong>" ++ line ++ txt "</strong>") true
               ++ t) = true
            /\ (is_tiu_numerik = false ->
                startswith
                  (opening ++ strip (nth first_correct option_map []))
                  (_format_paragraph
                     (txt "<strong>" ++ line ++ txt "</strong>") true ++ t)
                = true)).
  { intro t. unfold _format_paragraph, opening. split.
    - destruct Hline as [r ->].
      replace ((txt "<p style=" ++ quoted (txt "text-align:justify") ++ txt ">"
                ++ (txt "<strong>" ++ (txt "Jawaban yang tepat: " ++ r)
                    ++ txt "</strong>") ++ txt "</p>") ++ t)
        with ((txt "<p style=" ++ quoted (txt "text-align:justify")
               ++ txt "><strong>Jawaban yang tepat: ")
              ++ r ++ txt "</strong>" ++ txt "</p>" ++ t)
        by (cbn [txt list_ascii_of_string app quoted];
            rewrite <- !app_assoc; reflexivity).
      apply startswith_app_self.
    - intro Hnum. destruct (Hoption Hnum) as [r ->].
      replace ((txt "<p style=" ++ quoted (txt "text-align:justify") ++ txt ">"
                ++ (txt "<strong>"
                    ++ (txt "Jawaban yang tepat: "
                        ++ strip (nth first_correct option_map []) ++ r)
                    ++ txt "</strong>") ++ txt "</p>") ++ t)
        with (((txt "<p style=" ++ quoted (txt "text-align:justify")
                ++ txt "><strong>Jawaban yang tepat: ")
               ++ strip (nth first_correct option_map []))
              ++ r ++ txt "</strong>" ++ txt "</p>" ++ t)
        by (cbn [txt list_ascii_of_string app quoted];
            rewrite <- !app_assoc; reflexivity).
      apply startswith_app_self. }
  assert (Hjoin : forall rest t,
            Ok (join [LF]
                  (_format_paragraph
                     (txt "<strong>" ++ line ++ txt "</strong>") true :: rest))
            = Ok t ->
            startswith opening t = true
            /\ (is_tiu_numerik = false ->
                startswith
                  (opening ++ strip (nth first_correct option_map [])) t
                = true)).
  { intros rest t H.
    destruct (join_head [LF]
                (_format_paragraph (txt "<strong>" ++ line ++ txt "</strong>") true)
                rest) as [tail Htail].
    rewrite Htail in H.
    assert (E : _format_paragraph
                  (txt "<strong>" ++ line ++ txt "</strong>") true ++ tail = t)
      by congruence.
    rewrite <- E. apply Hgoal. }
  destruct (nonempty_list incorrect && negb is_tiu_numerik).
  - destruct (incorrect_entries _ _ _ _ _ _ _) as [entries|];
      [|discriminate]. cbn [bind_result app].
    apply Hjoin.
  - apply Hjoin.
Qed.

Lemma option_map_entries_stripped row p j :
  build_prompt row = Ok p ->
  strip (nth j (option_map p) []) = nth j (option_map p) [].
Proof.
  intro Hp. destruct (@build_prompt_ok row p Hp) as [_ [_ [-> _]]].
  unfold build_option_map.
  assert (H : forall label, strip (option_text_of row label)
                            = option_text_of row label).
  { intro label. unfold option_text_of. cbv zeta.
    destruct (notna _ && _); [|reflexivity].
    unfold _sanitize_text. cbv zeta. apply strip_idempotent. }
  generalize OPTION_TEXT_LABELS. intro labels. revert j.
  induction labels as [|label labels IH]; intros [|j]; cbn [map nth];
    try reflexivity; [apply H | apply IH].
Qed.

Lemma updated_row_document row log doc log' :
  process_row row log = (Ok (Updated doc), log') ->
  exists p scores data first more,
    build_prompt row = Ok p
    /\ _extract_option_scores row = Ok scores
    /\ _order_indices (correct_indices p) scores (option_map p) = first :: more
    /\ assemble data (option_map p) (first :: more)
         (_order_indices (incorrect_indices p) scores (option_map p)) scores
         (teqb (_normalize_label (get row "category")) (txt "tkp"))
         (_is_tiu_numerik (get row "category") (get row "sub_category"))
         (_is_verbal_analitis (get row "category") (get row "sub_category"))
         (question_summary p) = Ok doc.
Proof.
  unfold process_row, try_except, row_body.
  destruct (_should_skip_row _ _); [discriminate|].
  rewrite bind_lift.
  destruct (build_prompt row) as [p|e] eqn:Hp; [|discriminate].
  rewrite bind_lift.
  destruct (_extract_option_scores row) as [scores|e] eqn:Hs; [|discriminate].
  unfold explain_row. cbv zeta.
  destruct (_order_indices (correct_indices p) _ _)
    as [|first more] eqn:Hc; [discriminate|].
  unfold bind at 1.
  destruct (ask (prompt p) log) as [[raw_text|e] log1];
    [|discriminate].
  rewrite bind_lift.
  destruct (_parse_response (unfence raw_text)) as [parsed|e]; [|discriminate].
  destruct (is_none parsed); [discriminate|].
  unfold bind at 1.
  destruct ((if _is_tiu_numerik (get row "category") (get row "sub_category")
             then retry_if_thin (prompt p) parsed
             else ret parsed) log1)
    as [[data|e] log2]; [|discriminate].
  unfold bind, lift, ret.
  destruct (assemble data _ _ _ _ _ _ _ _) as [explanation_text|e] eqn:Hdoc;
    [|discriminate].
  intro H. exists p, scores, data, first, more.
  split; [reflexivity|]. split; [reflexivity|]. split; [exact Hc|].
  rewrite Hdoc. congruence.
Qed.

(** X27.  Every document that is written for a row opens with the
    correct-answer line: there is a first correct option, and the document
    starts with the justified paragraph whose bold text begins with
    "Jawaban yang tepat: ", followed, unless the row is numeric (where
    inline TeX may be wrapped first), by the text of that option. *)
Theorem written_document_opens_with_the_correct_answer
  (row : Row) (log : list Call) (doc : text) (log' : list Call) :
  process_row row log = (Ok (Updated doc), log') ->
  let opening :=
    txt "<p style=" ++ quoted (txt "text-align:justify")
    ++ txt "><strong>Jawaban yang tepat: " in
  exists p first more,
    build_prompt row = Ok p
    /\ ordered_correct row = Ok (first :: more)
    /\ startswith opening doc = true
    /\ (_is_tiu_numerik (get row "category") (get row "sub_category") = false ->
        startswith (opening ++ nth first (option_map p) []) doc = true).
Proof.
  intros Hrow opening.
  destruct (updated_row_document row log doc log' Hrow)
    as [p [scores [data [first [more [Hp [Hs [Hcorrect Hdoc]]]]]]]].
  exists p, first, more. split; [exact Hp|]. split.
  { unfold ordered_correct. rewrite Hp, Hs. cbn [bind_result].
    now rewrite Hcorrect. }
  assert (Hin : In first (_order_indices (correct_indices p) scores
                            (option_map p)))
    by (rewrite Hcorrect; now left).
  apply order_indices_elements in Hin as [_ Htext].
  apply has_text_spec in Htext as [Hlt Hne].
  assert (Hstrip : strip (nth first (option_map p) []) <> [])
    by now rewrite (option_map_entries_stripped row p first Hp).
  pose proof (assemble_opens_with_the_correct_answer _ _ _ _ _ _ _ _ _ _ _
                Hlt Hstrip Hdoc) as Hopen.
  cbv zeta in Hopen.
  rewrite (option_map_entries_stripped row p first Hp) in Hopen.
  exact Hopen.
Qed.

(** ** Code fences around the reply *)

Lemma unmatched_fence_comma_app (body tail : text) :
  ~ In "`"%char body ->
  unmatched (fun t => if startswith (FENCE ++ txt ",") t
                      then Some (List.length (FENCE ++ txt ",")) else None) tail ->
  unmatched (fun t => if startswith (FENCE ++ txt ",") t
                      then Some (List.length (FENCE ++ txt ",")) else None)
            (body ++ tail).
Proof.
  intros Hbody Htail. induction body as [|x body IH]; [exact Htail|].
  apply not_in_cons in Hbody as [Hx Hbody].
  cbn [app unmatched]. split; [|now apply IH].
  cbn [FENCE txt list_ascii_of_string app startswith].
  now rewrite (eqb_neq_false Hx).
Qed.

Lemma strip_fixed (s : text) :
  head_kept is_space s -> head_kept is_space (rev s) -> strip s = s.
Proof.
  intros Hhead Hlast. unfold strip, rstrip, lstrip, lstrip_by.
  rewrite dropwhile_fixed by exact Hhead. now apply rstrip_by_fixed.
Qed.

Lemma rstrip_by_none p (s : text) :
  (forall c, In c s -> p c = false) -> rstrip_by p s = s.
Proof.
  intro H. apply rstrip_by_fixed.
  destruct (rev s) as [|c r] eqn:E; [exact I|]. cbn [head_kept].
  apply H. apply in_rev. rewrite E. now left.
Qed.

Lemma strip_chars_fence (body : text) :
  ~ In "`"%char body -> strip_chars (txt "`") (body ++ FENCE) = body.
Proof.
  intro Hbody. unfold strip_chars, lstrip_chars, rstrip_chars, lstrip_by.
  assert (Hp : forall c, In c body -> mem_char c (txt "`") = false).
  { intros c Hc. unfold mem_char. cbn [txt list_ascii_of_string existsb].
    rewrite orb_false_r. apply eqb_neq_false. intros ->. contradiction. }
  destruct body as [|x body]; [reflexivity|].
  cbn [app dropwhile]. rewrite (Hp x) by now left.
  change (x :: body ++ FENCE) with ((x :: body) ++ FENCE).
  rewrite rstrip_by_app.
  change (rstrip_by (fun c => mem_char c (txt "`")) FENCE) with (@nil ascii).
  cbv iota. now apply rstrip_by_none.
Qed.

(** X28.  The removal of a code fence: a reply without a back quote is left
    as it is; a reply that consists of a "```json" fence, a body without a
    back quote and a closing fence becomes the body without its
    surrounding white space, and so does a reply with a plain "```" fence
    whose body starts with neither a comma nor the letter j. *)
Theorem fenced_reply_is_unwrapped (body : text) :
  ~ In "`"%char body ->
  unfence body = body
  /\ unfence (FENCE ++ txt "json" ++ body ++ FENCE) = strip body
  /\ (head_kept (fun c => mem_char c (txt ",j")) body ->
      unfence (FENCE ++ body ++ FENCE) = strip body).
Proof.
  intro Hbody.
  assert (Hfence : unmatched
                     (fun t => if startswith (FENCE ++ txt ",") t
                               then Some (List.length (FENCE ++ txt ","))
                               else None) FENCE)
    by (cbn; repeat split).
  assert (Hhead : forall b rest, body = b :: rest -> b <> "`"%char).
  { intros b rest -> E. apply Hbody. left. now symmetry. }
  split; [|split].
  - unfold unfence, replace, re_sub.
    rewrite re_sub_unmatched.
    + destruct body as [|b rest]; [reflexivity|].
      cbn [FENCE txt list_ascii_of_string startswith].
      now rewrite (eqb_neq_false (not_eq_sym (Hhead b rest eq_refl))).
    + rewrite <- (app_nil_r body).
      apply unmatched_fence_comma_app; [exact Hbody | exact I].
  - unfold unfence, replace, re_sub.
    rewrite re_sub_unmatched.
    + change (startswith FENCE (FENCE ++ txt "json" ++ body ++ FENCE)) with true.
      cbv iota.
      rewrite (strip_fixed (FENCE ++ txt "json" ++ body ++ FENCE)).
      * change (startswith (FENCE ++ txt "json")
                  (FENCE ++ txt "json" ++ body ++ FENCE)) with true.
        cbv iota.
        change (skipn 7 (FENCE ++ txt "json" ++ body ++ FENCE))
          with (body ++ FENCE).
        now rewrite strip_chars_fence.
      * reflexivity.
      * rewrite !rev_app_distr. reflexivity.
    + cbn [FENCE txt list_ascii_of_string app unmatched].
      repeat (split; [reflexivity|]).
      apply (unmatched_fence_comma_app body FENCE Hbody Hfence).
  - intro Hstart. unfold unfence, replace, re_sub.
    assert (Hfirst : forall b rest, body = b :: rest ->
                       b <> ","%char /\ b <> "j"%char).
    { intros b rest ->. cbn [head_kept] in Hstart.
      unfold mem_char in Hstart. cbn [txt list_ascii_of_string existsb] in Hstart.
      apply orb_false_elim in Hstart as [H1 H2].
      apply orb_false_elim in H2 as [H2 _].
      split; intros ->; discriminate. }
    rewrite re_sub_unmatched.
    + change (startswith FENCE (FENCE ++ body ++ FENCE)) with true. cbv iota.
      rewrite (strip_fixed (FENCE ++ body ++ FENCE)).
      * assert (Hjson : startswith (FENCE ++ txt "json")
                          (FENCE ++ body ++ FENCE) = false).
        { destruct body as [|b rest]; [reflexivity|].
          destruct (Hfirst b rest eq_refl) as [_ Hj].
          cbn [FENCE txt list_ascii_of_string app startswith].
          rewrite !Ascii.eqb_refl. cbn [andb].
          now rewrite (eqb_neq_false (not_eq_sym Hj)). }
        rewrite Hjson.
        assert (Hstrip : strip_chars (txt "`") (FENCE ++ body ++ FENCE) = body).
        { rewrite <- (strip_chars_fence body Hbody) at 2.
          unfold strip_chars. f_equal. }
        now rewrite Hstrip.
      * reflexivity.
      * rewrite !rev_app_distr. reflexivity.
    + destruct body as [|b rest]; [cbn; repeat split|].
      destruct (Hfirst b rest eq_refl) as [Hcomma _].
      pose proof (Hhead b rest eq_refl) as Hquote.
      assert (Hrest : unmatched
                        (fun t => if startswith (FENCE ++ txt ",") t
                                  then Some (List.length (FENCE ++ txt ","))
                                  else None) ((b :: rest) ++ FENCE))
        by (apply unmatched_fence_comma_app; assumption).
      cbn [FENCE txt list_ascii_of_string app unmatched startswith].
      cbn [FENCE txt list_ascii_of_string app unmatched] in Hrest.
      rewrite !Ascii.eqb_refl. cbn [andb].
      rewrite (eqb_neq_false (not_eq_sym Hcomma)),
        (eqb_neq_false (not_eq_sym Hquote)).
      cbn [andb]. repeat (split; [reflexivity|]). exact (proj2 Hrest).
Qed.

End Pipeline.

(* ================================================================== *)
(** * The statements at sample inputs *)
(* ================================================================== *)

Import Samples.

(** C1 (amended) at [paris_row]: option A holds the only maximal score. *)
Lemma unique_max_score_is_sole_correct_witness :
  slot_score no_float paris_row 0 = Ok (Some (inject_Z 10))
  /\ exists p,
       build_prompt plain_unescape no_float integral_repr short_instruction
                    paris_row = Ok p
       /\ correct_indices p = [0]
       /\ In 1 (incorrect_indices p).
Proof.
  split; [vm_compute; reflexivity|].
  destruct (@unique_max_score_is_sole_correct plain_unescape no_float
              integral_repr short_instruction paris_row 0 (inject_Z 10))
    as [p [Hp [_ [Hcorrect Hincorrect]]]].
  - lia.
  - intros j Hj.
    do 6 (destruct j as [|j]; [eexists; vm_compute; reflexivity|]). lia.
  - vm_compute. reflexivity.
  - intros j s' Hj Hne Hs.
    do 6 (destruct j as [|j];
          [first [ lia
                 | vm_compute in Hs; discriminate Hs
                 | vm_compute in Hs; injection Hs as <-; reflexivity ]|]).
    lia.
  - exists p. split; [exact Hp|]. split; [exact Hcorrect|].
    apply Hincorrect. split; [lia|]. split; [lia|].
    destruct (@build_prompt_ok plain_unescape no_float integral_repr
                short_instruction paris_row p Hp) as [_ [_ [Hom _]]].
    rewrite Hom. vm_compute. discriminate.
Defined.

(** C1: in [chosen_row] option A is the one lettered option with the
    highest score, but the score of the chosen-option slot is higher and
    its letter names option B; and in [rounded_row] the integer score of
    option A is above that of option B, but both are the same float. *)
Lemma highest_lettered_score_is_not_sole_correct :
  (slot_score no_float chosen_row 0 = Ok (Some (inject_Z 10))
   /\ (forall j s, j < 5 -> j <> 0 ->
         slot_score no_float chosen_row j = Ok (Some s) ->
         (s < inject_Z 10)%Q)
   /\ _infer_correct_indices plain_unescape no_float integral_repr chosen_row
        [txt "Paris"; txt "Lyon"; []; []; []] = Ok [1])
  /\ (get rounded_row "option_a_score" = CInt (2 ^ 53 + 1)
      /\ get rounded_row "option_b_score" = CInt (2 ^ 53)
      /\ _infer_correct_indices plain_unescape no_float integral_repr
           rounded_row [txt "Paris"; txt "Lyon"; []; []; []] = Ok [0; 1]).
Proof.
  split; split; [| split | | split].
  - vm_compute. reflexivity.
  - intros j s Hj Hne Hs.
    do 5 (destruct j as [|j];
          [first [ congruence
                 | vm_compute in Hs; discriminate Hs
                 | vm_compute in Hs; injection Hs as <-; reflexivity ]|]).
    lia.
  - vm_compute. reflexivity.
  - reflexivity.
  - reflexivity.
  - vm_compute. reflexivity.
Qed.

(** A score that is an integer too large for a float makes the inference
    raise [OverflowError]; the row fails at the row boundary, before any
    call to the model. *)
Example huge_score_fails_the_row :
  _infer_correct_indices plain_unescape no_float integral_repr huge_score_row
    [txt "Paris"; txt "Lyon"; []; []; []] = Raise OverflowError
  /\ process_row plain_unescape no_float integral_repr
       (table_loads [(paris_reply, paris_data)]) brackets short_instruction
       (scripted [Some (ResponseText paris_reply)]) huge_score_row []
     = (Ok (Failed OverflowError), []).
Proof. vm_compute. split; reflexivity. Qed.

(** The correct list of [build_prompt] may hold a slot without text; the
    list the pipeline goes on with does not. *)
Example unpopulated_slot_is_filtered :
  (exists p,
     build_prompt plain_unescape no_float integral_repr short_instruction
                  unpopulated_row = Ok p
     /\ correct_indices p = [0])
  /\ ordered_correct plain_unescape no_float integral_repr short_instruction
       unpopulated_row = Ok [].
Proof.
  split; [eexists; split; [vm_compute; reflexivity | reflexivity]|].
  vm_compute. reflexivity.
Qed.

(** C2 at [paris_row]. *)
Lemma index_lists_disjoint_and_populated_witness :
  ordered_correct plain_unescape no_float integral_repr short_instruction
                  paris_row = Ok [0]
  /\ ordered_incorrect plain_unescape no_float integral_repr short_instruction
                       paris_row = Ok [1]
  /\ exists p,
       build_prompt plain_unescape no_float integral_repr short_instruction
                    paris_row = Ok p
       /\ ~ In 0 [1]
       /\ nth 1 (option_map p) [] <> [].
Proof.
  assert (Hc : ordered_correct plain_unescape no_float integral_repr
                 short_instruction paris_row = Ok [0])
    by (vm_compute; reflexivity).
  assert (Hi : ordered_incorrect plain_unescape no_float integral_repr
                 short_instruction paris_row = Ok [1])
    by (vm_compute; reflexivity).
  assert (Hp : exists p,
            build_prompt plain_unescape no_float integral_repr
                         short_instruction paris_row = Ok p)
    by (eexists; vm_compute; reflexivity).
  destruct Hp as [p Hp].
  split; [exact Hc|]. split; [exact Hi|]. exists p. split; [exact Hp|].
  destruct (@index_lists_disjoint_and_populated plain_unescape no_float
              integral_repr short_instruction paris_row p [0] [1] Hp Hc Hi)
    as [Hdisj [_ Hinc]].
  split.
  - apply Hdisj. now left.
  - apply Hinc. now left.
Defined.

(** C3 at [mixed_row]: of the incorrect options, B and C have the same
    float as score and stand in option order, E with its lower score comes
    next, and D, which has no score, comes last. *)
Lemma index_lists_in_score_order_witness :
  let scores :=
    [ Some (inject_Z (2 ^ 60)); Some (inject_Z (2 ^ 53));
      Some (inject_Z (2 ^ 53)); None; Some (inject_Z 3) ] in
  _extract_option_scores no_float mixed_row = Ok scores
  /\ ordered_correct plain_unescape no_float integral_repr short_instruction
                     mixed_row = Ok [0]
  /\ ordered_incorrect plain_unescape no_float integral_repr short_instruction
                       mixed_row = Ok [1; 2; 4; 3]
  /\ StronglySorted (ranks_before scores) [1; 2; 4; 3].
Proof.
  intro scores.
  assert (Hs : _extract_option_scores no_float mixed_row = Ok scores)
    by (vm_compute; reflexivity).
  assert (Hc : ordered_correct plain_unescape no_float integral_repr
                 short_instruction mixed_row = Ok [0])
    by (vm_compute; reflexivity).
  assert (Hi : ordered_incorrect plain_unescape no_float integral_repr
                 short_instruction mixed_row = Ok [1; 2; 4; 3])
    by (vm_compute; reflexivity).
  split; [exact Hs|]. split; [exact Hc|]. split; [exact Hi|].
  apply (@index_lists_in_score_order plain_unescape no_float integral_repr
           short_instruction mixed_row scores [0] [1; 2; 4; 3] Hs Hc Hi).
Defined.

(** C4 at [figural_row], with a client that would answer. *)
Lemma excluded_category_row_is_skipped_witness :
  process_row plain_unescape no_float integral_repr (table_loads []) brackets
    short_instruction (scripted [Some (ResponseText thin_reply)])
    figural_row []
  = (Ok (Skipped (txt "subkategori TIU figural di-skip.")), []).
Proof.
  destruct (@excluded_category_row_is_skipped plain_unescape no_float
              integral_repr (table_loads []) brackets short_instruction
              (scripted [Some (ResponseText thin_reply)]) figural_row [])
    as [reason [_ [Hreason [Hrow _]]]].
  - reflexivity.
  - left. reflexivity.
  - rewrite Hrow. vm_compute in Hreason. injection Hreason as <-.
    reflexivity.
Defined.

(** C5 (amended) at [paris_row], answered with a text that no attempt
    decodes. *)
Lemma parse_response_first_success_or_none_witness :
  _parse_response (table_loads []) garbled_reply = Ok JNull
  /\ exists p shown,
       build_prompt plain_unescape no_float integral_repr short_instruction
                    paris_row = Ok p
       /\ process_row plain_unescape no_float integral_repr (table_loads [])
            brackets short_instruction
            (scripted [Some (ResponseText garbled_reply)]) paris_row []
          = (Ok (InvalidResponse shown),
             [{| call_prompt := prompt p; call_json_mode := JSON_CONFIG |}]).
Proof.
  destruct (parse_response_first_success_or_none plain_unescape no_float
              integral_repr (table_loads []) brackets short_instruction
              (scripted [Some (ResponseText garbled_reply)]) garbled_reply)
    as [_ [Hnone [_ Hrow]]].
  assert (Hparse : _parse_response (table_loads []) garbled_reply = Ok JNull).
  { apply Hnone. apply Forall_forall. intros a _. reflexivity. }
  split; [exact Hparse|].
  assert (Hp : exists p,
            build_prompt plain_unescape no_float integral_repr
                         short_instruction paris_row = Ok p)
    by (eexists; vm_compute; reflexivity).
  destruct Hp as [p Hp]. exists p.
  destruct (Hrow paris_row p [0] [] garbled_reply
              [{| call_prompt := prompt p; call_json_mode := JSON_CONFIG |}])
    as [Hinvalid _].
  - reflexivity.
  - exact Hp.
  - vm_compute. reflexivity.
  - discriminate.
  - reflexivity.
  - vm_compute. reflexivity.
  - destruct (Hinvalid Hparse) as [shown [Hshown _]].
    exists shown. split; [exact Hp | exact Hshown].
Defined.

(** C5: [json.loads] raises [ValueError], not [JSONDecodeError], for an
    integer literal over the digit limit; the parser lets it through, and
    the row fails at the row boundary. *)
Lemma parser_raises_on_a_long_literal :
  _parse_response digit_limit_loads long_literal = Raise ValueError
  /\ exists p,
       build_prompt plain_unescape no_float integral_repr short_instruction
                    paris_row = Ok p
       /\ process_row plain_unescape no_float integral_repr digit_limit_loads
            brackets short_instruction
            (scripted [Some (ResponseText long_literal)]) paris_row []
          = (Ok (Failed ValueError),
             [{| call_prompt := prompt p; call_json_mode := JSON_CONFIG |}]).
Proof.
  assert (Hloads : digit_limit_loads long_literal = Raise ValueError)
    by (vm_compute; reflexivity).
  assert (Hparse : _parse_response digit_limit_loads long_literal
                   = Raise ValueError).
  { unfold _parse_response, loads_or_else. now rewrite Hloads. }
  split; [exact Hparse|].
  assert (Hp : exists p,
            build_prompt plain_unescape no_float integral_repr
                         short_instruction paris_row = Ok p)
    by (eexists; vm_compute; reflexivity).
  destruct Hp as [p Hp]. exists p. split; [exact Hp|].
  assert (Hreply : unfence (strip long_literal) = long_literal)
    by (vm_compute; reflexivity).
  apply (@raising_reply_fails_the_row plain_unescape no_float integral_repr
           digit_limit_loads brackets short_instruction
           (scripted [Some (ResponseText long_literal)]) paris_row p [0] []
           (strip long_literal)).
  - reflexivity.
  - exact Hp.
  - vm_compute. reflexivity.
  - discriminate.
  - reflexivity.
  - rewrite Hreply. exact Hparse.
Qed.

Ltac char_differs :=
  let H := fresh in intro H; vm_compute in H; discriminate H.

(** Read a concrete reply against its repaired form. *)
Ltac read_unescaped :=
  repeat first
    [ apply un_end
    | apply un_open
    | apply un_close
    | apply un_newline
    | apply un_escape; [reflexivity|]
    | apply un_plain; [char_differs | char_differs | char_differs | char_differs |]
    | apply un_outside; [char_differs | char_differs |] ].

(** C6 at [newline_reply]. *)
Lemma repair_pass_escapes_bare_newlines_witness :
  _repair_json_text newline_reply = newline_reply_fixed
  /\ _parse_response (table_loads [(newline_reply_fixed, newline_data)])
       newline_reply = Ok newline_data.
Proof.
  destruct (@repair_pass_escapes_bare_newlines
              (table_loads [(newline_reply_fixed, newline_data)])
              newline_reply newline_reply_fixed newline_data)
    as [Hrepair [Hparse _]].
  - vm_compute. read_unescaped.
  - vm_compute. reflexivity.
  - split; [exact Hrepair|]. apply Hparse. vm_compute. reflexivity.
Defined.


(** C8: a second pass enriches again, and a second pass strips again. *)
Lemma reason_normalization_not_idempotent :
  (let once := normalize_reason (txt "Lyon") (txt "Paris") [] (txt "Salah.") in
   normalize_reason (txt "Lyon") (txt "Paris") [] once <> once)
  /\ (let once :=
        normalize_reason (txt "Lyon") (txt "Paris") []
                         (txt "Lyon: Opsi 2: " ++ long_reason) in
      once = txt "Opsi 2: " ++ long_reason
      /\ normalize_reason (txt "Lyon") (txt "Paris") [] once = long_reason).
Proof.
  split.
  - vm_compute. discriminate.
  - vm_compute. split; reflexivity.
Qed.

(** C8 (amended) at [long_reason]. *)
Lemma reason_normalisers_stable_on_own_output_witness :
  normalize_reason (txt "Lyon") (txt "Paris") []
    (normalize_reason (txt "Lyon") (txt "Paris") [] long_reason)
  = normalize_reason (txt "Lyon") (txt "Paris") [] long_reason.
Proof.
  destruct (reason_normalisers_stable_on_own_output
              (txt "Lyon") (txt "Paris") [] long_reason) as [_ [_ Hstable]].
  apply Hstable.
  - vm_compute. reflexivity.
  - right. vm_compute. reflexivity.
  - vm_compute. lia.
  - vm_compute. lia.
Defined.

(** C9: the first word of a reason is not always put in lower case.  In
    "Kota: Besar sekali." the first word "Kota", which is no preserved
    token, keeps its capital and the word after the reason's own colon is
    changed; in "SALAH besar." only the first letter of the first word is
    changed. *)
Lemma reason_first_word_is_not_lowercased :
  (let reason := txt "Kota: Besar sekali." in
   match_word reason = Some (txt "Kota")
   /\ _normalize_reason_capital reason [] = txt "Kota: besar sekali."
   /\ match_word (_normalize_reason_capital reason [])
      <> Some (lower (txt "Kota")))
  /\ (let reason := txt "SALAH besar." in
      match_word reason = Some (txt "SALAH")
      /\ _normalize_reason_capital reason [] = txt "sALAH besar."
      /\ match_word (_normalize_reason_capital reason [])
         <> Some (lower (txt "SALAH"))).
Proof.
  split; vm_compute; (split; [reflexivity|]); (split; [reflexivity|]);
    discriminate.
Qed.

(** C9 (amended): "Paris" is kept when it is a preserved token, and the
    first letter of the word after a colon is put in lower case. *)
Lemma reason_capital_lowercases_first_word_witness :
  _normalize_reason_capital (txt "Paris adalah ibu kota Inggris.")
                            [txt "Paris"]
  = txt "Paris adalah ibu kota Inggris."
  /\ exists others,
       _normalize_reason_capital (txt "Kota: Besar sekali.") [txt "Paris"]
       = txt "Kota: b" ++ others ++ txt " sekali."
       /\ lower others = txt "esar".
Proof.
  destruct (reason_capital_lowercases_first_word [txt "Paris"])
    as [Hplain [Hcolon _]].
  split.
  - destruct (Hplain [] "P"%char (txt "aris")
                (txt " adalah ibu kota Inggris.")
                eq_refl eq_refl eq_refl eq_refl eq_refl)
      as [first [others [Hrun [_ Hkept]]]].
    vm_compute in Hkept. destruct Hkept as [-> ->]. exact Hrun.
  - destruct (Hcolon [] (txt "Kota") (txt " ") [] "B"%char (txt "esar")
                (txt " sekali.") eq_refl eq_refl eq_refl eq_refl
                (or_introl (conj eq_refl eq_refl)) eq_refl eq_refl)
      as [first [others [Hrun [Hsame Hkept]]]].
    vm_compute in Hkept. subst first. exists others. split; [exact Hrun | exact Hsame].
Defined.

(** C10 at the reason given for "Lyon". *)
Lemma enriched_reason_is_nonempty_sentence_witness :
  exists entries,
    incorrect_entries plain_unescape integral_repr brackets
      [txt "Paris"; txt "Lyon"] [] false (txt "Paris") []
      (JObject [(txt "2", JString (txt "Lyon: bukan ibu kota."))]) [1]
    = Ok entries
    /\ forall e, In e entries -> entry_reason e <> [].
Proof.
  eexists. split; [vm_compute; reflexivity|].
  destruct (enriched_reason_is_nonempty_sentence plain_unescape integral_repr
              brackets [] [] [] []) as [_ [_ Hentries]].
  apply (Hentries [txt "Paris"; txt "Lyon"] [] false (txt "Paris") []
           (JObject [(txt "2", JString (txt "Lyon: bukan ibu kota."))]) [1]).
  vm_compute. reflexivity.
Defined.

(* ================================================================== *)
(** * Further statements at sample inputs *)
(* ================================================================== *)

Ltac char_absent :=
  let H := fresh in
  intro H; vm_compute in H;
  repeat (destruct H as [H|H]; [discriminate H|]); exact H.

(** X2 at a text with a tag and a double space. *)
Lemma sanitized_text_is_stable_witness :
  let cleaned :=
    _sanitize_text plain_unescape (txt "<p>Ibu  kota</p> Prancis ") in
  _sanitize_text plain_unescape cleaned = cleaned.
Proof.
  intro cleaned.
  apply (proj2 (sanitized_text_is_stable plain_unescape
                  (txt "<p>Ibu  kota</p> Prancis "))).
  reflexivity.
Defined.

(** X5 at the score 10, shown as "10.0" by the runtime. *)
Lemma formatted_score_has_no_trailing_point_witness :
  _format_score integral_repr (Some (inject_Z 10)) = Some (txt "10").
Proof.
  apply (proj2 (formatted_score_has_no_trailing_point integral_repr
                  (inject_Z 10))).
  - vm_compute. reflexivity.
  - discriminate.
  - reflexivity.
Defined.

(** X6: the indices 1, 0, 1 are ordered as the indices 0, 1 are. *)
Lemma order_indices_is_canonical_witness :
  _order_indices [1; 0; 1] [Some (inject_Z 2); Some (inject_Z 10)]
                 [txt "Lyon"; txt "Paris"]
  = _order_indices [0; 1] [Some (inject_Z 2); Some (inject_Z 10)]
                   [txt "Lyon"; txt "Paris"].
Proof.
  destruct (order_indices_is_canonical
              [0; 1] [Some (inject_Z 2); Some (inject_Z 10)]
              [txt "Lyon"; txt "Paris"]) as [_ [_ [_ Hsame]]].
  apply Hsame. intro j. cbn [In]. tauto.
Defined.

(** X7 at an inline formula between two words. *)
Lemma math_formula_is_wrapped_in_span_witness :
  let inline :=
    [BACKSLASH; "("%char] ++ txt "x^2" ++ [BACKSLASH; ")"%char] in
  _wrap_math_tex (txt "Luasnya " ++ inline ++ txt " satuan.")
  = txt "Luasnya " ++ math_span inline ++ txt " satuan.".
Proof.
  intro inline.
  destruct (math_formula_is_wrapped_in_span
              (txt "Luasnya ") (txt "x^2") (txt " satuan."))
    as [_ Hwrap]; [char_absent | char_absent |].
  destruct Hwrap as [Hinline _];
    [char_absent | char_absent | discriminate |].
  exact Hinline.
Defined.

(** X9 at a text without a double quote. *)
Lemma repair_leaves_clean_text_alone_witness :
  _repair_json_text (txt "tanpa tanda kutip") = txt "tanpa tanda kutip".
Proof.
  apply (repair_leaves_clean_text_alone (txt "tanpa tanda kutip")).
  left. char_absent.
Defined.

(** X12 at [paris_reply] between two sentences. *)
Lemma object_inside_prose_is_parsed_witness :
  _parse_response (table_loads [(paris_reply, paris_data)])
    (txt "Berikut jawabannya: " ++ txt "{" ++ txt " jawaban paris "
     ++ txt "}" ++ txt " Semoga membantu.")
  = Ok paris_data.
Proof.
  destruct (object_inside_prose_is_parsed
              (table_loads [(paris_reply, paris_data)])
              (txt "Berikut jawabannya: ") (txt " jawaban paris ")
              (txt " Semoga membantu.") paris_data)
    as [Hfirst _].
  - char_absent.
  - char_absent.
  - vm_compute. reflexivity.
  - vm_compute. reflexivity.
  - apply Hfirst. vm_compute. reflexivity.
Defined.

(** X15 at the word "Prancis" inside a question. *)
Lemma proper_tokens_are_the_capitalized_words_witness :
  In (txt "Prancis") (_extract_proper_tokens [txt "Ibu kota Prancis adalah"]).
Proof.
  apply (proj2 (proper_tokens_are_the_capitalized_words
                  [txt "Ibu kota Prancis adalah"])
           (txt "Ibu kota ") "P"%char (txt "rancis") (txt " adalah")).
  - left. reflexivity.
  - vm_compute. reflexivity.
  - vm_compute. reflexivity.
  - vm_compute. reflexivity.
  - vm_compute. reflexivity.
Defined.

(** X17 at [tied_row]: both options with the score 5 are correct. *)
Lemma maximal_scores_are_the_correct_options_witness :
  exists correct,
    _infer_correct_indices plain_unescape no_float integral_repr tied_row
      [txt "Paris"; txt "Lyon"; txt "Nice"; []; []] = Ok correct
    /\ In 0 correct /\ In 1 correct /\ ~ In 2 correct.
Proof.
  destruct (maximal_scores_are_the_correct_options plain_unescape no_float
              integral_repr tied_row
              [txt "Paris"; txt "Lyon"; txt "Nice"; []; []] 0 (inject_Z 5))
    as [correct [Hcorrect [_ Hin]]].
  - intros j Hj.
    do 6 (destruct j as [|j]; [eexists; vm_compute; reflexivity|]). lia.
  - vm_compute. reflexivity.
  - lia.
  - vm_compute. reflexivity.
  - assert (Hmax : forall k t, k < 6 ->
                     slot_score no_float tied_row k = Ok (Some t) ->
                     (t <= inject_Z 5)%Q).
    { intros k t Hk Hs.
      do 6 (destruct k as [|k];
            [first [ vm_compute in Hs; discriminate Hs
                   | vm_compute in Hs; injection Hs as <-;
                     vm_compute; discriminate ]|]).
      lia. }
    exists correct. split; [exact Hcorrect|]. split; [|split].
    + apply Hin. split; [lia|]. exists (inject_Z 5).
      split; [vm_compute; reflexivity | exact Hmax].
    + apply Hin. split; [lia|]. exists (inject_Z 5).
      split; [vm_compute; reflexivity | exact Hmax].
    + intro H. apply Hin in H as [_ [s [Hs Hall]]].
      vm_compute in Hs. injection Hs as <-.
      assert (H5 : slot_score no_float tied_row 0 = Ok (Some (inject_Z 5)))
        by (vm_compute; reflexivity).
      pose proof (Hall 0 (inject_Z 5) ltac:(lia) H5) as Hle.
      vm_compute in Hle. apply Hle. reflexivity.
Defined.

(** X18 at [unscored_row]: the letter "c" names the third option. *)
Lemma chosen_letter_decides_without_scores_witness :
  _infer_correct_indices plain_unescape no_float integral_repr unscored_row
    [txt "Paris"; txt "Lyon"; txt "Nice"; []; []] = Ok [2].
Proof.
  apply (chosen_letter_decides_without_scores plain_unescape no_float
           integral_repr unscored_row
           [txt "Paris"; txt "Lyon"; txt "Nice"; []; []] 2).
  - intros j Hj. do 6 (destruct j as [|j]; [reflexivity|]). lia.
  - vm_compute. reflexivity.
  - cbn [List.length]. lia.
Defined.

(** X20 at option B of [paris_row]. *)
Lemma every_populated_option_is_classified_witness :
  ordered_correct plain_unescape no_float integral_repr short_instruction
                  paris_row = Ok [0]
  /\ ordered_incorrect plain_unescape no_float integral_repr short_instruction
                       paris_row = Ok [1]
  /\ (In 1 [0] \/ In 1 [1]).
Proof.
  assert (Hc : ordered_correct plain_unescape no_float integral_repr
                 short_instruction paris_row = Ok [0])
    by (vm_compute; reflexivity).
  assert (Hi : ordered_incorrect plain_unescape no_float integral_repr
                 short_instruction paris_row = Ok [1])
    by (vm_compute; reflexivity).
  assert (Hp : exists p,
            build_prompt plain_unescape no_float integral_repr
                         short_instruction paris_row = Ok p)
    by (eexists; vm_compute; reflexivity).
  destruct Hp as [p Hp].
  split; [exact Hc|]. split; [exact Hi|].
  apply (every_populated_option_is_classified plain_unescape no_float
           integral_repr short_instruction paris_row p [0] [1] 1 Hp Hc Hi).
  destruct (@build_prompt_ok plain_unescape no_float integral_repr
              short_instruction paris_row p Hp) as [_ [_ [Hom _]]].
  rewrite Hom. vm_compute. reflexivity.
Defined.

(** X21 at [unpopulated_row], with a client that would answer. *)
Lemma row_without_correct_option_is_not_sent_witness :
  generate_ai_explanations plain_unescape no_float integral_repr
    (table_loads [(paris_reply, paris_data)]) brackets short_instruction
    (scripted [Some (ResponseText paris_reply)]) [unpopulated_row] [0] []
  = (Ok ([unpopulated_row], []), []).
Proof.
  apply (row_without_correct_option_is_not_sent plain_unescape no_float
           integral_repr (table_loads [(paris_reply, paris_data)]) brackets
           short_instruction (scripted [Some (ResponseText paris_reply)])
           unpopulated_row []).
  - vm_compute. reflexivity.
  - vm_compute. reflexivity.
Defined.

(** X22 at a frame of [figural_row] and [paris_row]: the second row is
    updated, the first one and the question of the second are as before. *)
Lemma run_changes_only_the_explanation_column_witness :
  exists df' log',
    generate_ai_explanations plain_unescape no_float integral_repr
      (table_loads [(paris_reply, paris_data)]) brackets short_instruction
      (scripted [Some (ResponseText paris_reply)])
      [figural_row; paris_row] [0; 1] []
    = (Ok (df', [1]), log')
    /\ List.length df' = 2
    /\ nth_error df' 0 = Some figural_row
    /\ get (nth 1 df' []) "question" = get paris_row "question"
    /\ exists doc, get (nth 1 df' []) "explanation_ai" = CText doc.
Proof.
  assert (Hrun : exists df' log',
            generate_ai_explanations plain_unescape no_float integral_repr
              (table_loads [(paris_reply, paris_data)]) brackets
              short_instruction (scripted [Some (ResponseText paris_reply)])
              [figural_row; paris_row] [0; 1] []
            = (Ok (df', [1]), log'))
    by (eexists; eexists; vm_compute; reflexivity).
  destruct Hrun as [df' [log' Hrun]]. exists df', log'.
  split; [exact Hrun|].
  destruct (run_changes_only_the_explanation_column plain_unescape no_float
              integral_repr (table_loads [(paris_reply, paris_data)]) brackets
              short_instruction (scripted [Some (ResponseText paris_reply)])
              [figural_row; paris_row] [0; 1] [] df' [1] log' Hrun)
    as [Hlen [Hcols [Hrest [Hupd _]]]].
  split; [exact Hlen|]. split; [|split].
  - apply (Hrest 0). intros [H|[]]. discriminate H.
  - apply (Hcols 1 "question"%string). discriminate.
  - apply (Hupd 1). now left.
Defined.

(** X25 at [paris_row], answered with a text that decodes to a list. *)
Lemma reply_that_is_no_object_fails_the_row_witness :
  exists p,
    build_prompt plain_unescape no_float integral_repr short_instruction
                 paris_row = Ok p
    /\ process_row plain_unescape no_float integral_repr
         (table_loads [(list_reply, list_data)]) brackets short_instruction
         (scripted [Some (ResponseText list_reply)]) paris_row []
       = (Ok (Failed AttributeError),
          [{| call_prompt := prompt p; call_json_mode := JSON_CONFIG |}]).
Proof.
  assert (Hp : exists p,
            build_prompt plain_unescape no_float integral_repr
                         short_instruction paris_row = Ok p)
    by (eexists; vm_compute; reflexivity).
  destruct Hp as [p Hp]. exists p. split; [exact Hp|].
  apply (reply_that_is_no_object_fails_the_row plain_unescape no_float
           integral_repr (table_loads [(list_reply, list_data)]) brackets
           short_instruction (scripted [Some (ResponseText list_reply)])
           paris_row p [0] []
           [{| call_prompt := prompt p; call_json_mode := JSON_CONFIG |}]
           list_reply list_data).
  - vm_compute. reflexivity.
  - exact Hp.
  - vm_compute. reflexivity.
  - discriminate.
  - reflexivity.
  - vm_compute. reflexivity.
  - reflexivity.
  - discriminate.
Defined.

(** X26 at [paris_row], with a client that raises on the first call. *)
Lemma failing_call_is_repeated_without_config_witness :
  exists p,
    build_prompt plain_unescape no_float integral_repr short_instruction
                 paris_row = Ok p
    /\ ask (scripted [None; Some (ResponseText paris_reply)]) (prompt p) []
       = (Ok paris_reply,
          [ {| call_prompt := prompt p; call_json_mode := JSON_CONFIG |};
            {| call_prompt := prompt p; call_json_mode := NO_CONFIG |} ]).
Proof.
  assert (Hp : exists p,
            build_prompt plain_unescape no_float integral_repr
                         short_instruction paris_row = Ok p)
    by (eexists; vm_compute; reflexivity).
  destruct Hp as [p Hp]. exists p. split; [exact Hp|].
  pose proof (failing_call_is_repeated_without_config plain_unescape no_float
                integral_repr (table_loads [(paris_reply, paris_data)])
                brackets short_instruction
                (scripted [None; Some (ResponseText paris_reply)])
                paris_row p [] Hp) as H.
  cbv zeta in H. destruct (H eq_refl) as [Hask _].
  apply (Hask paris_reply). reflexivity.
Defined.

(** X27 at [paris_row] answered with [paris_reply]. *)
Lemma written_document_opens_with_the_correct_answer_witness :
  exists doc log',
    process_row plain_unescape no_float integral_repr
      (table_loads [(paris_reply, paris_data)]) brackets short_instruction
      (scripted [Some (ResponseText paris_reply)]) paris_row []
    = (Ok (Updated doc), log')
    /\ startswith
         (txt "<p style=" ++ quoted (txt "text-align:justify")
          ++ txt "><strong>Jawaban yang tepat: " ++ txt "Paris")
         doc = true.
Proof.
  assert (Hrun : exists doc log',
            process_row plain_unescape no_float integral_repr
              (table_loads [(paris_reply, paris_data)]) brackets
              short_instruction (scripted [Some (ResponseText paris_reply)])
              paris_row []
            = (Ok (Updated doc), log'))
    by (eexists; eexists; vm_compute; reflexivity).
  destruct Hrun as [doc [log' Hrun]]. exists doc, log'.
  split; [exact Hrun|].
  destruct (written_document_opens_with_the_correct_answer plain_unescape
              no_float integral_repr (table_loads [(paris_reply, paris_data)])
              brackets short_instruction
              (scripted [Some (ResponseText paris_reply)]) paris_row [] doc
              log' Hrun)
    as [p [first [more [Hp [Hfirst [_ Hopen]]]]]].
  vm_compute in Hfirst. injection Hfirst as <- _.
  destruct (@build_prompt_ok plain_unescape no_float integral_repr
              short_instruction paris_row p Hp) as [_ [_ [Hom _]]].
  rewrite Hom in Hopen.
  assert (E : txt "<p style=" ++ quoted (txt "text-align:justify")
               ++ txt "><strong>Jawaban yang tepat: " ++ txt "Paris"
               = (txt "<p style=" ++ quoted (txt "text-align:justify")
                  ++ txt "><strong>Jawaban yang tepat: ")
                 ++ nth 0 (build_option_map plain_unescape integral_repr
                             paris_row) [])
    by (vm_compute; reflexivity).
  rewrite E. exact (Hopen eq_refl).
Defined.

(** X28 at a fenced reply with line breaks inside the fence. *)
Lemma fenced_reply_is_unwrapped_witness :
  unfence (FENCE ++ txt "json" ++ ([LF] ++ paris_reply ++ [LF]) ++ FENCE)
  = paris_reply.
Proof.
  destruct (fenced_reply_is_unwrapped ([LF] ++ paris_reply ++ [LF]))
    as [_ [Hjson _]]; [char_absent|].
  rewrite Hjson. vm_compute. reflexivity.
Defined.

End AiUtils.

(* ================================================================== *)
(** * streamlit_app.py: the spreadsheet id and the batches *)
(* ================================================================== *)

Module StreamlitFacts.
Import Text StreamlitApp.

#[local] Unset Implicit Arguments.

Lemma startswith_app_long (p s r : text) :
  List.length p <= List.length s ->
  startswith p (s ++ r) = startswith p s.
Proof.
  revert s. induction p as [|x p IH]; intros s H; [now destruct s|].
  destruct s as [|y s]; [cbn [List.length] in H; lia|].
  cbn [app startswith]. rewrite IH; [reflexivity|].
  cbn [List.length] in H. lia.
Qed.

Lemma match_url_pattern_at_marker (id post : text) :
  id <> [] -> forallb is_id_char id = true ->
  AiUtils.head_kept is_id_char post ->
  match_url_pattern (url_marker ++ id ++ post) = Some id.
Proof.
  intros Hid Hall Hpost. unfold match_url_pattern.
  rewrite AiUtils.startswith_app_self.
  rewrite skipn_app, skipn_all, Nat.sub_diag. cbn [app skipn].
  rewrite AiUtils.takewhile_all by assumption.
  destruct id; [contradiction|reflexivity].
Qed.

Lemma search_url_pattern_first (pre id post : text) :
  id <> [] -> forallb is_id_char id = true ->
  AiUtils.head_kept is_id_char post ->
  contains url_marker (pre ++ removelast url_marker) = false ->
  search_url_pattern (pre ++ url_marker ++ id ++ post) = Some id.
Proof.
  intros Hid Hall Hpost. induction pre as [|c pre IH]; intro Hpre.
  - cbn [app]. destruct (url_marker ++ id ++ post) eqn:E;
      cbn [search_url_pattern]; rewrite <- E;
      now rewrite match_url_pattern_at_marker.
  - cbn [app contains] in Hpre. apply orb_false_iff in Hpre as [Hhere Hpre].
    cbn [app search_url_pattern].
    assert (Hno : match_url_pattern (c :: pre ++ url_marker ++ id ++ post)
                  = None).
    { unfold match_url_pattern.
      assert (Hsplit : url_marker ++ id ++ post
                       = removelast url_marker ++ (txt "/" ++ id ++ post))
        by reflexivity.
      rewrite Hsplit, app_assoc.
      change (c :: (pre ++ removelast url_marker) ++ txt "/" ++ id ++ post)
        with ((c :: pre ++ removelast url_marker) ++ txt "/" ++ id ++ post).
      rewrite startswith_app_long, Hhere; [reflexivity|].
      cbn [List.length]. rewrite length_app.
      change (List.length url_marker) with 16.
      change (List.length (removelast url_marker)) with 15. lia. }
    rewrite Hno. now apply IH.
Qed.

Lemma match_url_pattern_needs_slash (s : text) :
  ~ In "/"%char s -> match_url_pattern s = None.
Proof.
  intro H. unfold match_url_pattern.
  destruct s as [|c s]; [reflexivity|].
  change url_marker with ("/"%char :: txt "spreadsheets/d/").
  cbn [startswith]. destruct (Ascii.eqb "/" c) eqn:E; [|reflexivity].
  apply Ascii.eqb_eq in E. subst c. exfalso. apply H. now left.
Qed.

Lemma search_url_pattern_needs_slash (s : text) :
  ~ In "/"%char s -> search_url_pattern s = None.
Proof.
  induction s as [|c s IH]; intro H.
  - reflexivity.
  - cbn [search_url_pattern]. rewrite match_url_pattern_needs_slash by exact H.
    apply IH. intro Hin. apply H. now right.
Qed.

Lemma firstn_add_skipn {A : Type} (a b : nat) (l : list A) :
  firstn (a + b) l = firstn a l ++ firstn b (skipn a l).
Proof.
  revert l. induction a as [|a IH]; intro l; [reflexivity|].
  destruct l as [|x l]; [cbn [Nat.add firstn skipn app]; now rewrite firstn_nil|].
  cbn [Nat.add firstn skipn app]. now rewrite IH.
Qed.

Lemma batch_slice (target_indices : list nat) (i : nat) :
  batch target_indices i
  = firstn AUTO_SAVE_BATCH_SIZE
           (skipn (i * AUTO_SAVE_BATCH_SIZE) target_indices).
Proof.
  unfold batch. cbv zeta. f_equal. lia.
Qed.

Lemma batches_prefix (target_indices : list nat) (n : nat) :
  concat (map (batch target_indices) (seq 0 n))
  = firstn (n * AUTO_SAVE_BATCH_SIZE) target_indices.
Proof.
  induction n as [|n IH]; [reflexivity|].
  rewrite seq_S, map_app, concat_app, IH. cbn [Nat.add map concat].
  rewrite app_nil_r, batch_slice.
  replace (S n * AUTO_SAVE_BATCH_SIZE)
    with (n * AUTO_SAVE_BATCH_SIZE + AUTO_SAVE_BATCH_SIZE) by lia.
  now rewrite firstn_add_skipn.
Qed.

Lemma total_batches_cover (target_indices : list nat) :
  List.length target_indices
  <= total_batches target_indices * AUTO_SAVE_BATCH_SIZE.
Proof.
  unfold total_batches, AUTO_SAVE_BATCH_SIZE.
  pose proof (Nat.div_mod_eq (List.length target_indices + 50 - 1) 50) as E.
  pose proof (Nat.mod_upper_bound (List.length target_indices + 50 - 1) 50
                ltac:(discriminate)) as B.
  lia.
Qed.

Lemma total_batches_tight (target_indices : list nat) (i : nat) :
  target_indices <> [] -> i < total_batches target_indices ->
  i * AUTO_SAVE_BATCH_SIZE < List.length target_indices.
Proof.
  intros Hne Hi. unfold total_batches, AUTO_SAVE_BATCH_SIZE in *.
  assert (Hlen : 0 < List.length target_indices)
    by (destruct target_indices; [contradiction | cbn [List.length]; lia]).
  pose proof (Nat.div_mod_eq (List.length target_indices + 50 - 1) 50) as E.
  pose proof (Nat.mod_upper_bound (List.length target_indices + 50 - 1) 50
                ltac:(discriminate)) as B.
  lia.
Qed.

(** X29.  [extract_spreadsheet_id] answers [None] for an empty input.  For an
    input that holds the marker [/spreadsheets/d/] followed by a non-empty
    run of id characters (letters, digits, [-] and [_]) that ends at the
    end of the input or at another character, and in which the marker does
    not start earlier, the answer is that run.  For a non-empty input
    without any [/] the answer is the input without its surrounding white
    space. *)
Theorem spreadsheet_id_is_read_from_the_url :
  extract_spreadsheet_id [] = None
  /\ (forall pre id post : text,
        id <> [] -> forallb is_id_char id = true ->
        AiUtils.head_kept is_id_char post ->
        contains url_marker (pre ++ removelast url_marker) = false ->
        extract_spreadsheet_id (pre ++ url_marker ++ id ++ post) = Some id)
  /\ (forall user_input : text,
        user_input <> [] -> ~ In "/"%char user_input ->
        extract_spreadsheet_id user_input = Some (strip user_input)).
Proof.
  split; [reflexivity|]. split.
  - intros pre id post Hid Hall Hpost Hpre. unfold extract_spreadsheet_id.
    rewrite search_url_pattern_first by assumption.
    destruct (pre ++ url_marker ++ id ++ post) eqn:E; [|reflexivity].
    apply (f_equal (@List.length ascii)) in E.
    rewrite !length_app in E. change (List.length url_marker) with 16 in E.
    cbn [List.length] in E. lia.
  - intros user_input Hne Hslash. unfold extract_spreadsheet_id.
    destruct user_input as [|c s]; [contradiction|].
    now rewrite search_url_pattern_needs_slash.
Qed.

(** X30.  The batches that are handed to [generate_ai_explanations] split the
    target rows: put one after the other they give the target rows back,
    in order and each once; no batch holds more than
    [AUTO_SAVE_BATCH_SIZE] rows; and when there is a target row at all, no
    batch is empty. *)
Theorem batches_split_the_target_rows (target_indices : list nat) :
  concat (batches target_indices) = target_indices
  /\ Forall (fun b => List.length b <= AUTO_SAVE_BATCH_SIZE)
            (batches target_indices)
  /\ (target_indices <> [] ->
      Forall (fun b => b <> []) (batches target_indices)).
Proof.
  unfold batches. split; [|split].
  - rewrite batches_prefix. apply firstn_all2, total_batches_cover.
  - apply Forall_forall. intros b Hb. apply in_map_iff in Hb as [i [<- _]].
    rewrite batch_slice. apply firstn_le_length.
  - intro Hne. apply Forall_forall. intros b Hb.
    apply in_map_iff in Hb as [i [<- Hi]]. apply in_seq in Hi.
    pose proof (total_batches_tight target_indices i Hne ltac:(lia)) as Hlt.
    rewrite batch_slice. intro Hnil.
    apply (f_equal (@List.length nat)) in Hnil.
    rewrite length_firstn, length_skipn in Hnil.
    unfold AUTO_SAVE_BATCH_SIZE in *. cbn [List.length] in Hnil. lia.
Qed.

(** X29 at the address of a sheet, and at a bare id between spaces. *)
Lemma spreadsheet_id_is_read_from_the_url_witness :
  extract_spreadsheet_id
    (txt "https://docs.google.com" ++ url_marker ++ txt "1AbC-d_9"
     ++ txt "/edit#gid=0")
  = Some (txt "1AbC-d_9")
  /\ extract_spreadsheet_id (txt " 1AbC-d_9 ") = Some (txt "1AbC-d_9").
Proof.
  destruct spreadsheet_id_is_read_from_the_url as [_ [Hurl Hbare]].
  split.
  - apply (Hurl (txt "https://docs.google.com") (txt "1AbC-d_9")
             (txt "/edit#gid=0")).
    + discriminate.
    + reflexivity.
    + reflexivity.
    + reflexivity.
  - rewrite (Hbare (txt " 1AbC-d_9 ")).
    + reflexivity.
    + discriminate.
    + intro H. vm_compute in H.
      repeat (destruct H as [H|H]; [discriminate H|]). exact H.
Defined.

End StreamlitFacts.
